(** * jamkv: a key-value store on top of a SQL table

    A shallow embedding of [src/core/index.ts]: the value codec
    ([encodeValue], [decodeValue], [toArrayBuffer]), the predicate compiler
    ([buildWhereSql]) and the entry store ([CoreKV]: [get], [getMany], [set],
    [del], [cleanupExpired], [list]) together with the overrides of
    [KVTransaction].  The store is written against an abstract statement
    executor; [Module SQLite] supplies a model of the engine behind it, which
    reads the SQL text the store produces. *)

From Stdlib Require Import ZArith String Ascii DecimalString DecimalZ Sorted.
From Stdlib.Strings Require Import Byte.
From stdpp Require Import base numbers strings list gmap.

Set Warnings "-register-all".
Local Open Scope Z_scope.

(** ** Values *)

(** A JavaScript number: the three non-finite values and the finite ones.
    The finite doubles are a type [F] supplied by the runtime (see
    [Externals]); they are taken up to numeric equality ([===]). *)
Inductive number (F : Type) : Type :=
| NaN
| Infinity
| NegInfinity
| Finite (f : F).
Arguments NaN {F}.
Arguments Infinity {F}.
Arguments NegInfinity {F}.
Arguments Finite {F} f.

(** [type JSONValue = string | number | boolean | null
                    | { [key: string]: JSONValue } | JSONValue[]] *)
Inductive JSONValue (F : Type) : Type :=
| JString (s : string)
| JNumber (n : number F)
| JBoolean (b : bool)
| JNull
| JObject (members : list (string * JSONValue F))
| JArray (items : list (JSONValue F)).
Arguments JString {F} s.
Arguments JNumber {F} n.
Arguments JBoolean {F} b.
Arguments JNull {F}.
Arguments JObject {F} members.
Arguments JArray {F} items.

(** A [Uint8Array]: a window of [byteLength] bytes starting at [byteOffset]
    into an [ArrayBuffer]. *)
Record Uint8Array : Type := {
  buffer : list byte;
  byteOffset : nat;
  byteLength : nat
}.

(** The elements the view exposes. *)
Definition elements_of (arr : Uint8Array) : list byte :=
  take (byteLength arr) (drop (byteOffset arr) (buffer arr)).

(** [new Uint8Array(buffer)]: a view of the whole buffer. *)
Definition Uint8Array_of (buf : list byte) : Uint8Array :=
  {| buffer := buf; byteOffset := 0; byteLength := length buf |}.

(** [ArrayBuffer.prototype.slice(begin, end)]. *)
Definition slice (buf : list byte) (begin_ end_ : nat) : list byte :=
  take (end_ - begin_) (drop begin_ buf).

(** [type KVValue = JSONValue | Uint8Array<ArrayBuffer>] *)
Inductive KVValue (F : Type) : Type :=
| Json (j : JSONValue F)
| Binary (arr : Uint8Array).
Arguments Json {F} j.
Arguments Binary {F} arr.

(** What a read hands back in the [value] field of an entry.  [decodeValue]
    is typed as returning a [KVValue], but its last branch returns
    [row.value_text] as it is, which is [undefined] when the row object has
    no such property. *)
Inductive JSValue (F : Type) : Type :=
| Defined (v : KVValue F)
| Undefined.
Arguments Defined {F} v.
Arguments Undefined {F}.

(** Equality of values as a caller observes it: JSON values structurally,
    byte arrays element by element (the decoded array is a fresh view, so
    its buffer and offset need not be those of the array that was stored). *)
Definition same_value {F} (v w : KVValue F) : Prop :=
  match v, w with
  | Json j, Json k => j = k
  | Binary a, Binary b => elements_of a = elements_of b
  | _, _ => False
  end.

(** ** Errors *)

Inductive exn : Type :=
| Error (message : string)        (* [throw new Error(message)] *)
| SyntaxError                     (* thrown by [JSON.parse] *)
| LibsqlError (message : string). (* raised by the statement executor *)

Inductive result (A : Type) : Type :=
| Ok (a : A)
| Throw (e : exn).
Arguments Ok {A} a.
Arguments Throw {A} e.

Definition result_bind {A B} (r : result A) (k : A -> result B) : result B :=
  match r with
  | Ok a => k a
  | Throw e => Throw e
  end.

(** ** Values bound to a statement, rows returned by it *)

(** [InValue] of the client library, as far as the store uses it.  Instants,
    durations and limits are whole numbers of milliseconds or rows and are
    kept as integers; numbers that are data (the comparison value of a filter
    condition) are [number]s. *)
Inductive InValue (F : Type) : Type :=
| INull
| IText (s : string)
| IInteger (z : Z)
| INumber (n : number F)
| IBlob (b : list byte).
Arguments INull {F}.
Arguments IText {F} s.
Arguments IInteger {F} z.
Arguments INumber {F} n.
Arguments IBlob {F} b.

(** A property of a row object: not there at all, [null], or a value. *)
Inductive column (A : Type) : Type :=
| Absent
| SqlNull
| Val (a : A).
Arguments Absent {A}.
Arguments SqlNull {A}.
Arguments Val {A} a.

Definition column_of_option {A} (o : option A) : column A :=
  match o with
  | Some a => Val a
  | None => SqlNull
  end.

(** A row of [kv_store] as the store reads it.  [created_at] is left out: no
    statement of the store writes it and no code reads it. *)
Record Row : Type := {
  key : string;
  value_blob : column (list byte);
  value_text : column string;
  value_type : column string;
  version : string;
  expires_at : option Z
}.

Record ResultSet : Type := { rows : list Row }.

(** ** What the store takes from its environment

    Built-in functions of the JavaScript runtime, and the one SQL function
    whose meaning the store relies on.  None of them is defined in the
    repository. *)
Class Externals : Type := {
  (* finite IEEE doubles *)
  finite : Type;
  (* [+0] *)
  finite_zero : finite;
  (* [String(x)] on a finite number *)
  String_finite : finite -> string;
  (* [Number(s)] on a string *)
  Number_string : string -> number finite;
  (* [JSON.stringify(v)] *)
  JSON_stringify : JSONValue finite -> string;
  (* [JSON.parse(s)]; [None] when it throws a [SyntaxError] *)
  JSON_parse : string -> option (JSONValue finite);
  (* the engine's verdict on [json_extract(value_text, path) op value] for
     a stored text; [None] is SQL's NULL *)
  json_compare : string -> string -> InValue finite -> InValue finite -> option bool
}.

Section Codec.
Context `{Ext : Externals}.

(** [String(value)] for a number. *)
Definition String_number (n : number finite) : string :=
  match n with
  | NaN => "NaN"
  | Infinity => "Infinity"
  | NegInfinity => "-Infinity"
  | Finite f => String_finite f
  end.

(** [String(value)] for a boolean. *)
Definition String_boolean (b : bool) : string :=
  if b then "true" else "false".

Definition toArrayBuffer (arr : Uint8Array) : list byte :=
  if bool_decide (byteLength arr = length (buffer arr)) && bool_decide (byteOffset arr = 0%nat)
  then buffer arr
  else slice (buffer arr) (byteOffset arr) (byteOffset arr + byteLength arr).

Record Encoded : Type := {
  blob : option (list byte);
  text : option string;
  type : string
}.

Definition encodeValue (value : KVValue finite) : Encoded :=
  match value with
  | Binary arr => {| blob := Some (toArrayBuffer arr); text := None; type := "binary" |}
  | Json (JString s) => {| blob := None; text := Some s; type := "string" |}
  | Json (JNumber n) => {| blob := None; text := Some (String_number n); type := "number" |}
  | Json (JBoolean b) => {| blob := None; text := Some (String_boolean b); type := "boolean" |}
  | Json j => {| blob := None; text := Some (JSON_stringify j); type := "json" |}
  end.

(** [row.value_type === tag] *)
Definition type_is (row : Row) (tag : string) : bool :=
  match value_type row with
  | Val t => String.eqb t tag
  | _ => false
  end.

(** ["name" in row] *)
Definition has_column {A} (c : column A) : bool :=
  match c with
  | Absent => false
  | _ => true
  end.

(** [new Uint8Array(row.value_blob)]: [null] and [undefined] give an array
    of length 0. *)
Definition Uint8Array_of_column (c : column (list byte)) : Uint8Array :=
  match c with
  | Val b => Uint8Array_of b
  | _ => Uint8Array_of []
  end.

(** [Number(row.value_text)]: [Number(null)] is [0] and
    [Number(undefined)] is [NaN]. *)
Definition Number_column (c : column string) : number finite :=
  match c with
  | Val s => Number_string s
  | SqlNull => Finite finite_zero
  | Absent => NaN
  end.

(** [JSON.parse(row.value_text)]: the argument is first turned into a
    string, so [null] is read as the text [null] and [undefined] as the
    text [undefined]. *)
Definition JSON_parse_column (c : column string) : option (JSONValue finite) :=
  match c with
  | Val s => JSON_parse s
  | SqlNull => JSON_parse "null"
  | Absent => JSON_parse "undefined"
  end.

(** [row.value_text === "true"] *)
Definition is_true_text (c : column string) : bool :=
  match c with
  | Val s => String.eqb s "true"
  | _ => false
  end.

Definition decodeValue (row : Row) : result (JSValue finite) :=
  if negb (has_column (value_type row)) &&
     negb (has_column (value_blob row)) &&
     negb (has_column (value_text row))
  then Throw (Error "Invalid row format for decoding value.")
  else if type_is row "binary" then
    Ok (Defined (Binary (Uint8Array_of_column (value_blob row))))
  else if type_is row "number" then
    Ok (Defined (Json (JNumber (Number_column (value_text row)))))
  else if type_is row "boolean" then
    Ok (Defined (Json (JBoolean (is_true_text (value_text row)))))
  else if type_is row "json" then
    match JSON_parse_column (value_text row) with
    | Some j => Ok (Defined (Json j))
    | None => Throw SyntaxError
    end
  else
    match value_text row with
    | Val s => Ok (Defined (Json (JString s)))
    | SqlNull => Ok (Defined (Json JNull))
    | Absent => Ok Undefined
    end.

End Codec.

(** ** Entries, filters and options *)

(** [type KVEntry<T> = { key: string; value: T; version: string }] *)
Module KVEntry.
Record t (F : Type) : Type := {
  key : string;
  value : JSValue F;
  version : string
}.
Arguments key {F} _.
Arguments value {F} _.
Arguments version {F} _.
End KVEntry.
Abbreviation KVEntry := KVEntry.t.

(** The comparison value of a condition: [string | number]. *)
Inductive FilterValue (F : Type) : Type :=
| FString (s : string)
| FNumber (n : number F).
Arguments FString {F} s.
Arguments FNumber {F} n.

(** [type WhereCondition = { field: string; operator: WhereOperator;
    value: string | number }].  [WhereOperator] is a union of five string
    literals for the type checker only; at run time the field holds whatever
    string the caller put there, and the store checks it. *)
Record WhereCondition (F : Type) : Type := {
  field : string;
  operator : string;
  value : FilterValue F
}.
Arguments field {F} _.
Arguments operator {F} _.
Arguments value {F} _.

Inductive LogicOp : Type := AND | OR | NOT.

(** [WhereCondition | LogicResult], where
    [type LogicResult = { op: "AND" | "OR" | "NOT"; conditions: (...)[] }]. *)
Inductive Filter (F : Type) : Type :=
| Condition (c : WhereCondition F)
| LogicResult (op : LogicOp) (conditions : list (Filter F)).
Arguments Condition {F} c.
Arguments LogicResult {F} op conditions.

(** The argument of a [WhereCallback]: the three combinators. *)
Record Combinators (F : Type) : Type := {
  and_ : list (Filter F) -> Filter F;
  or_ : list (Filter F) -> Filter F;
  not_ : Filter F -> Filter F
}.
Arguments and_ {F} _.
Arguments or_ {F} _.
Arguments not_ {F} _.

(** [where?: WhereCondition | WhereCallback] *)
Inductive Where (F : Type) : Type :=
| WhereObject (c : WhereCondition F)
| WhereCallback (callback : Combinators F -> Filter F).
Arguments WhereObject {F} c.
Arguments WhereCallback {F} callback.

(** [type ListOptions = { prefix?; limit?; cursor?; where?; reverse? }] *)
Module ListOptions.
Record t (F : Type) : Type := {
  prefix : option string;
  limit : option Z;
  cursor : option string;
  where_ : option (Where F);
  reverse : option bool
}.
Arguments prefix {F} _.
Arguments limit {F} _.
Arguments cursor {F} _.
Arguments where_ {F} _.
Arguments reverse {F} _.

(** [options: ListOptions = {}] *)
Definition default {F} : t F :=
  {| prefix := None; limit := None; cursor := None; where_ := None; reverse := None |}.
End ListOptions.
Abbreviation ListOptions := ListOptions.t.

(** [type SetOptions = { expireIn?: number }], in milliseconds *)
Record SetOptions : Type := { expireIn : option Z }.

(** A statement handed to the executor: its text and positional arguments. *)
Record Statement (F : Type) : Type := {
  sql : string;
  args : list (InValue F)
}.
Arguments sql {F} _.
Arguments args {F} _.

(** ** The predicate compiler and the entry store *)

Definition LF : string := String (ascii_of_nat 10) EmptyString.

(** [Array.prototype.join] *)
Definition join (sep : string) (parts : list string) : string :=
  String.concat sep parts.

(** [Array.prototype.includes] on an array of strings *)
Definition includes (xs : list string) (x : string) : bool :=
  existsb (String.eqb x) xs.

Definition LogicOp_text (op : LogicOp) : string :=
  match op with
  | AND => "AND"
  | OR => "OR"
  | NOT => "NOT"
  end.

Definition safeOps : list string := ["="; ">"; "<"; "LIKE"; "!="].

Module CoreKV.
Section Store.
Context `{Ext : Externals}.

(** The state behind the executor (a database connection or an open
    transaction) and the executor itself: [protected abstract execute]. *)
Context {Conn : Type}.
Variable run : Statement finite -> Conn -> result ResultSet * Conn.

(** A session: the state behind the executor and, for the record, the
    statements handed to it so far, oldest first. *)
Record Session : Type := {
  conn : Conn;
  issued : list (Statement finite)
}.

(** An asynchronous method: it may change the session and it resolves or
    rejects. *)
Definition M (A : Type) : Type := Session -> result A * Session.

Definition ret {A} (a : A) : M A := fun s => (Ok a, s).

Definition throw {A} (e : exn) : M A := fun s => (Throw e, s).

Definition bind {A B} (m : M A) (k : A -> M B) : M B :=
  fun s =>
    match m s with
    | (Ok a, s') => k a s'
    | (Throw e, s') => (Throw e, s')
    end.

Definition lift {A} (r : result A) : M A := fun s => (r, s).

(** [promise.catch(() => {})]: whatever the outcome, carry on. *)
Definition catch_ignore (m : M unit) : M unit :=
  fun s => (Ok tt, snd (m s)).

Local Notation "x <- m ;; k" := (bind m (fun x => k))
  (at level 100, m at next level, right associativity).
Local Notation "m ;;; k" := (bind m (fun _ => k))
  (at level 100, right associativity).

Definition execute (sql : string) (args : list (InValue finite)) : M ResultSet :=
  fun s =>
    let stmt := {| sql := sql; args := args |} in
    let '(r, c) := run stmt (conn s) in
    (r, {| conn := c; issued := issued s ++ [stmt] |}).

Definition tableName : string := "kv_store".

(** [row.expires_at && row.expires_at < now]: [null] and [0] are falsy. *)
Definition expired (row : Row) (now : Z) : bool :=
  match expires_at row with
  | Some e => negb (Z.eqb e 0) && Z.ltb e now
  | None => false
  end.

Definition entry_of (row : Row) : M (KVEntry finite) :=
  v <- lift (decodeValue row) ;;
  ret {| KVEntry.key := key row; KVEntry.value := v; KVEntry.version := version row |}.

Definition del (key : string) : M unit :=
  execute ("DELETE FROM " +:+ tableName +:+ " WHERE key = ?") [IText key] ;;;
  ret tt.

(** [get]; [now] is what [Date.now()] returns during the call.  The
    clean-up delete is started and not awaited; here it takes effect before
    the call returns, and its failure is dropped. *)
Definition get (key : string) (now : Z) : M (option (KVEntry finite)) :=
  rs <- execute ("SELECT * FROM " +:+ tableName +:+ " WHERE key = ?") [IText key] ;;
  match rows rs with
  | [] => ret None
  | row :: _ =>
      if expired row now then
        catch_ignore (del key) ;;;
        ret None
      else
        e <- entry_of row ;;
        ret (Some e)
  end.

(** The [for] loop of [getMany] that fills the [Map]. *)
Fixpoint collect_live (clean : string -> M unit) (rows : list Row) (now : Z)
    (map : gmap string Row) : M (gmap string Row) :=
  match rows with
  | [] => ret map
  | row :: rest =>
      if expired row now then
        clean (key row) ;;;
        collect_live clean rest now map
      else
        collect_live clean rest now (<[key row := row]> map)
  end.

(** [keys.map(...)] with a callback that may throw. *)
Fixpoint map_keys (map : gmap string Row) (keys : list string)
    : M (list (option (KVEntry finite))) :=
  match keys with
  | [] => ret []
  | key :: rest =>
      slot <- match map !! key with
              | None => ret None
              | Some row => e <- entry_of row ;; ret (Some e)
              end ;;
      slots <- map_keys map rest ;;
      ret (slot :: slots)
  end.

Definition getMany (keys : list string) (now : Z) : M (list (option (KVEntry finite))) :=
  if bool_decide (length keys = 0%nat) then ret []
  else
    let placeholders := join "," (List.map (fun _ => "?") keys) in
    rs <- execute ("SELECT * FROM " +:+ tableName +:+ " WHERE key IN (" +:+ placeholders +:+ ")")
                  (List.map IText keys) ;;
    map <- collect_live (fun k => catch_ignore (del k)) (rows rs) now ∅ ;;
    map_keys map keys.

Definition InValue_of_blob (b : option (list byte)) : InValue finite :=
  match b with
  | Some bytes => IBlob bytes
  | None => INull
  end.

Definition InValue_of_text (t : option string) : InValue finite :=
  match t with
  | Some s => IText s
  | None => INull
  end.

Definition InValue_of_instant (t : option Z) : InValue finite :=
  match t with
  | Some z => IInteger z
  | None => INull
  end.

(** [options?.expireIn ? Date.now() + options.expireIn : null]: a missing
    option and a duration of [0] are both falsy. *)
Definition expiresAt_of (options : option SetOptions) (now : Z) : option Z :=
  match options with
  | Some {| expireIn := Some d |} => if Z.eqb d 0 then None else Some (now + d)
  | _ => None
  end.

Definition set_sql : string :=
  "INSERT INTO " +:+ tableName +:+
    " (key, value_blob, value_text, value_type, version, expires_at)" +:+ LF +:+
  "VALUES (?, ?, ?, ?, ?, ?)" +:+ LF +:+
  "ON CONFLICT(key) DO UPDATE SET" +:+ LF +:+
  "  value_blob = excluded.value_blob," +:+ LF +:+
  "  value_text = excluded.value_text," +:+ LF +:+
  "  value_type = excluded.value_type," +:+ LF +:+
  "  version = excluded.version," +:+ LF +:+
  "  expires_at = excluded.expires_at" +:+ LF.

(** [set]; [fresh] is what [generateVersion()] returns during the call
    (16 random characters with a timestamp component, drawn by an outside
    library) and [now] is what [Date.now()] returns. *)
Definition set (key : string) (value : KVValue finite) (options : option SetOptions)
    (fresh : string) (now : Z) : M unit :=
  let enc := encodeValue value in
  let version := fresh in
  let expiresAt := expiresAt_of options now in
  execute set_sql
    [IText key; InValue_of_blob (blob enc); InValue_of_text (text enc); IText (type enc);
     IText version; InValue_of_instant expiresAt] ;;;
  ret tt.

Definition cleanupExpired (now : Z) : M unit :=
  execute ("DELETE FROM " +:+ tableName +:+ " WHERE expires_at IS NOT NULL AND expires_at < ?")
          [IInteger now] ;;;
  ret tt.

Record Fragment : Type := {
  frag_sql : string;
  frag_args : list (InValue finite)
}.

Definition InValue_of_filter (v : FilterValue finite) : InValue finite :=
  match v with
  | FString s => IText s
  | FNumber n => INumber n
  end.

(** [safeOps.includes(operator) ? operator : "="] *)
Definition checked_operator (operator : string) : string :=
  if includes safeOps operator then operator else "=".

(** The [for] loop of [buildWhereSql] over [condition.conditions]; [build]
    is the recursive call. *)
Definition build_each (build : Filter finite -> result Fragment) :=
  fix loop (conds : Datatypes.list (Filter finite)) (parts : Datatypes.list string)
           (args : Datatypes.list (InValue finite)) {struct conds}
      : result (Datatypes.list string * Datatypes.list (InValue finite)) :=
    match conds with
    | [] => Ok (parts, args)
    | cond :: rest =>
        result_bind (build cond) (fun res =>
        loop rest (parts ++ [frag_sql res]) (args ++ frag_args res))
    end.

Fixpoint buildWhereSql (condition : Filter finite) : result Fragment :=
  match condition with
  | LogicResult NOT conditions =>
      match conditions with
      | [] => Throw (Error "NOT operator requires a condition")
      | first :: _ =>
          result_bind (buildWhereSql first) (fun inner =>
          Ok {| frag_sql := "NOT (" +:+ frag_sql inner +:+ ")";
                frag_args := frag_args inner |})
      end
  | LogicResult op conditions =>
      result_bind (build_each buildWhereSql conditions [] []) (fun '(parts, args) =>
      Ok {| frag_sql := "(" +:+ join (" " +:+ LogicOp_text op +:+ " ") parts +:+ ")";
            frag_args := args |})
  | Condition c =>
      let op := checked_operator (operator c) in
      Ok {| frag_sql := "json_extract(value_text, ?) " +:+ op +:+ " ?";
            frag_args := [IText ("$." +:+ field c); InValue_of_filter (value c)] |}
  end.

(** The statement [list] builds: text and arguments.  Building it fails
    when the predicate compiler throws. *)
Definition list_statement (options : ListOptions finite) (now : Z)
    : result (Statement finite) :=
  let sql := "SELECT * FROM " +:+ tableName +:+ " WHERE 1=1" in
  let args := [] in
  (* 1. Filter expired *)
  let sql := sql +:+ " AND (expires_at IS NULL OR expires_at > ?)" in
  let args := args ++ [IInteger now] in
  (* 2. Prefix *)
  let '(sql, args) :=
    match ListOptions.prefix options with
    | Some p =>
        if String.eqb p "" then (sql, args)
        else (sql +:+ " AND key LIKE ?", args ++ [IText (p +:+ "%")])
    | None => (sql, args)
    end in
  (* 3. JSON Filtering *)
  result_bind
    match ListOptions.where_ options with
    | Some (WhereCallback callback) =>
        let and := fun args => LogicResult AND args in
        let or := fun args => LogicResult OR args in
        let not := fun arg => LogicResult NOT [arg] in
        let logicTree := callback {| and_ := and; or_ := or; not_ := not |} in
        result_bind (buildWhereSql logicTree) (fun w =>
        Ok (sql +:+ " AND value_type = 'json' AND (" +:+ frag_sql w +:+ ")",
            args ++ frag_args w))
    | Some (WhereObject c) =>
        let op := checked_operator (operator c) in
        Ok (sql +:+ " AND value_type = 'json' AND json_extract(value_text, ?) " +:+ op +:+ " ?",
            args ++ [IText ("$." +:+ field c); InValue_of_filter (value c)])
    | None => Ok (sql, args)
    end
    (fun '(sql, args) =>
      (* 4. Ordering *)
      let sql := sql +:+ " ORDER BY key " +:+
                 (match ListOptions.reverse options with Some true => "DESC" | _ => "ASC" end) in
      (* 5. Pagination *)
      let '(sql, args) :=
        match ListOptions.limit options with
        | Some n =>
            if Z.eqb n 0 then (sql, args)
            else (sql +:+ " LIMIT ?", args ++ [IInteger n])
        | None => (sql, args)
        end in
      Ok {| sql := sql; args := args |}).

(** [rs.rows.map(...)] with a callback that may throw. *)
Fixpoint map_rows (rows : list Row) : M (list (KVEntry finite)) :=
  match rows with
  | [] => ret []
  | row :: rest =>
      e <- entry_of row ;;
      es <- map_rows rest ;;
      ret (e :: es)
  end.

Definition list (options : ListOptions finite) (now : Z) : M (list (KVEntry finite)) :=
  stmt <- lift (list_statement options now) ;;
  rs <- execute (sql stmt) (args stmt) ;;
  map_rows (rows rs).

End Store.
End CoreKV.

(** [KVTransaction]: the two overrides, which await the clean-up delete so
    that its failure rejects the read. *)
Module KVTransaction.
Section Store.
Context `{Ext : Externals} {Conn : Type}.
Variable run : Statement finite -> Conn -> result ResultSet * Conn.

Import CoreKV.
Local Abbreviation M := (@CoreKV.M Ext Conn).
Local Notation "x <- m ;; k" := (bind m (fun x => k))
  (at level 100, m at next level, right associativity).
Local Notation "m ;;; k" := (bind m (fun _ => k))
  (at level 100, right associativity).

Definition get (key : string) (now : Z) : M (option (KVEntry finite)) :=
  rs <- execute run ("SELECT * FROM " +:+ tableName +:+ " WHERE key = ?") [IText key] ;;
  match rows rs with
  | [] => ret None
  | row :: _ =>
      if expired row now then
        del run key ;;;
        ret None
      else
        e <- entry_of row ;;
        ret (Some e)
  end.

Definition getMany (keys : Datatypes.list string) (now : Z)
    : M (Datatypes.list (option (KVEntry finite))) :=
  if bool_decide (length keys = 0%nat) then ret []
  else
    let placeholders := join "," (List.map (fun _ => "?") keys) in
    rs <- execute run ("SELECT * FROM " +:+ tableName +:+ " WHERE key IN (" +:+ placeholders +:+ ")")
                  (List.map IText keys) ;;
    map <- collect_live (del run) (rows rs) now ∅ ;;
    map_keys map keys.

End Store.
End KVTransaction.

(** ** The set-up of the table

    [LibSQLKV.init] and, in [src/index.ts], [createKV].  Both statements of
    [init] go to the client as plain texts, without arguments; the layout
    of the first is that of the template literal in the source. *)
Module LibSQLKV.
Section Store.
Context `{Ext : Externals} {Conn : Type}.
Variable run : Statement finite -> Conn -> result ResultSet * Conn.

Import CoreKV.
Local Abbreviation M := (@CoreKV.M Ext Conn).
Local Notation "m ;;; k" := (bind m (fun _ => k))
  (at level 100, right associativity).

Definition create_table_sql : string :=
  LF +:+
  "      CREATE TABLE IF NOT EXISTS " +:+ tableName +:+ " (" +:+ LF +:+
  "        key TEXT PRIMARY KEY," +:+ LF +:+
  "        value_blob BLOB," +:+ LF +:+
  "        value_text TEXT," +:+ LF +:+
  "        value_type TEXT CHECK(value_type IN ('json', 'string', 'number', 'binary', 'boolean'))," +:+ LF +:+
  "        version TEXT NOT NULL," +:+ LF +:+
  "        expires_at INTEGER," +:+ LF +:+
  "        created_at INTEGER DEFAULT (unixepoch('now') * 1000)" +:+ LF +:+
  "      )" +:+ LF +:+
  "    ".

Definition create_index_sql : string :=
  "CREATE INDEX IF NOT EXISTS idx_kv_expires ON " +:+ tableName +:+ "(expires_at)".

Definition init : M unit :=
  execute run create_table_sql [] ;;;
  execute run create_index_sql [] ;;;
  ret tt.

(** [createKV]: the store is handed out once [init] has resolved. *)
Definition createKV : M unit :=
  init ;;;
  ret tt.

End Store.
End LibSQLKV.

(** ** The engine behind the executor

    A model of what SQLite does with the statements of the store on the table
    [kv_store].  The engine is outside the repository; it is modelled so that
    the store can be run.  It reads the statement text: [prepare] recognises
    the statements the store can produce and nothing else. *)
Module SQLite.

(** The table, in rowid order.  [key] is the primary key. *)
Definition Table : Type := list Row.

(** A boolean expression over [json_extract(value_text, ?) op ?]; every
    comparison takes two positional arguments. *)
Inductive Expr : Type :=
| Compare (op : string)
| Negation (e : Expr)
| Junction (is_and : bool) (first : Expr) (others : list Expr).

Inductive Plan : Type :=
| SelectByKey
| SelectByKeys (n : nat)
| Upsert
| DeleteByKey
| DeleteExpired
| SelectList (by_prefix : bool) (filter : option Expr) (descending : bool) (limited : bool).

(** *** Reading the text *)

(** [strip p s]: what follows [p] in [s], when [s] starts with [p]. *)
Fixpoint strip (p s : string) : option string :=
  match p with
  | EmptyString => Some s
  | String a p' =>
      match s with
      | String b s' => if Ascii.eqb a b then strip p' s' else None
      | EmptyString => None
      end
  end.

Definition parse_operator (s : string) : option (string * string) :=
  match strip "= ?" s with Some r => Some ("=", r) | None =>
  match strip "> ?" s with Some r => Some (">", r) | None =>
  match strip "< ?" s with Some r => Some ("<", r) | None =>
  match strip "LIKE ?" s with Some r => Some ("LIKE", r) | None =>
  match strip "!= ?" s with Some r => Some ("!=", r) | None => None
  end end end end end.

Fixpoint parse_expr (fuel : nat) (s : string) : option (Expr * string) :=
  match fuel with
  | O => None
  | S fuel =>
      match strip "json_extract(value_text, ?) " s with
      | Some r =>
          match parse_operator r with
          | Some (op, r') => Some (Compare op, r')
          | None => None
          end
      | None =>
      match strip "NOT (" s with
      | Some r =>
          match parse_expr fuel r with
          | Some (e, r') =>
              match strip ")" r' with
              | Some r'' => Some (Negation e, r'')
              | None => None
              end
          | None => None
          end
      | None =>
      match strip "(" s with
      | Some r =>
          match parse_expr fuel r with
          | Some (e, r') =>
              match strip ")" r' with
              | Some r'' => Some (Junction true e [], r'')
              | None =>
              match strip " AND " r' with
              | Some r'' =>
                  match parse_others fuel " AND " r'' with
                  | Some (es, r3) => Some (Junction true e es, r3)
                  | None => None
                  end
              | None =>
              match strip " OR " r' with
              | Some r'' =>
                  match parse_others fuel " OR " r'' with
                  | Some (es, r3) => Some (Junction false e es, r3)
                  | None => None
                  end
              | None => None
              end end end
          | None => None
          end
      | None => None
      end end end
  end
with parse_others (fuel : nat) (sep : string) (s : string) : option (list Expr * string) :=
  match fuel with
  | O => None
  | S fuel =>
      match parse_expr fuel s with
      | Some (e, r) =>
          match strip ")" r with
          | Some r' => Some ([e], r')
          | None =>
              match strip sep r with
              | Some r' =>
                  match parse_others fuel sep r' with
                  | Some (es, r'') => Some (e :: es, r'')
                  | None => None
                  end
              | None => None
              end
          end
      | None => None
      end
  end.

(** The placeholders of [key IN (?,?,...)], up to the closing parenthesis. *)
Fixpoint parse_placeholders (fuel : nat) (s : string) : option nat :=
  match fuel with
  | O => None
  | S fuel =>
      match strip "?)" s with
      | Some EmptyString => Some 1%nat
      | Some _ => None
      | None =>
          match strip "?," s with
          | Some r => S <$> parse_placeholders fuel r
          | None => None
          end
      end
  end.

(** An optional piece of text. *)
Definition optional (p s : string) : bool * string :=
  match strip p s with
  | Some r => (true, r)
  | None => (false, s)
  end.

Definition parse_filter (s : string) : option (option Expr * string) :=
  match strip " AND value_type = 'json' AND " s with
  | Some r =>
      match strip "(" r with
      | Some r' =>
          match parse_expr (String.length r') r' with
          | Some (e, r'') =>
              match strip ")" r'' with
              | Some r3 => Some (Some e, r3)
              | None => None
              end
          | None => None
          end
      | None =>
          match parse_expr 1 r with
          | Some (e, r') => Some (Some e, r')
          | None => None
          end
      end
  | None => Some (None, s)
  end.

Definition parse_list (s : string) : option Plan :=
  match strip "SELECT * FROM kv_store WHERE 1=1 AND (expires_at IS NULL OR expires_at > ?)" s with
  | Some r =>
      let '(by_prefix, r) := optional " AND key LIKE ?" r in
      match parse_filter r with
      | Some (filter, r) =>
          match strip " ORDER BY key " r with
          | Some r =>
              match
                match strip "ASC" r with
                | Some r => Some (false, r)
                | None => match strip "DESC" r with Some r => Some (true, r) | None => None end
                end
              with
              | Some (descending, r) =>
                  let '(limited, r) := optional " LIMIT ?" r in
                  match r with
                  | EmptyString => Some (SelectList by_prefix filter descending limited)
                  | _ => None
                  end
              | None => None
              end
          | None => None
          end
      | None => None
      end
  | None => None
  end.

Definition upsert_text : string :=
  "INSERT INTO kv_store (key, value_blob, value_text, value_type, version, expires_at)" +:+ LF +:+
  "VALUES (?, ?, ?, ?, ?, ?)" +:+ LF +:+
  "ON CONFLICT(key) DO UPDATE SET" +:+ LF +:+
  "  value_blob = excluded.value_blob," +:+ LF +:+
  "  value_text = excluded.value_text," +:+ LF +:+
  "  value_type = excluded.value_type," +:+ LF +:+
  "  version = excluded.version," +:+ LF +:+
  "  expires_at = excluded.expires_at" +:+ LF.

Definition prepare (text : string) : option Plan :=
  if String.eqb text "SELECT * FROM kv_store WHERE key = ?" then Some SelectByKey
  else if String.eqb text "DELETE FROM kv_store WHERE key = ?" then Some DeleteByKey
  else if String.eqb text "DELETE FROM kv_store WHERE expires_at IS NOT NULL AND expires_at < ?"
  then Some DeleteExpired
  else if String.eqb text upsert_text then Some Upsert
  else
    match strip "SELECT * FROM kv_store WHERE key IN (" text with
    | Some r => SelectByKeys <$> parse_placeholders (String.length r) r
    | None => parse_list text
    end.

(** *** Running a plan *)

(** How many positional arguments a statement takes. *)
Fixpoint expr_arity (e : Expr) : nat :=
  match e with
  | Compare _ => 2
  | Negation e => expr_arity e
  | Junction _ first others =>
      expr_arity first + foldr (fun e n => expr_arity e + n)%nat 0%nat others
  end.

Definition arity (plan : Plan) : nat :=
  match plan with
  | SelectByKey => 1
  | SelectByKeys n => n
  | Upsert => 6
  | DeleteByKey => 1
  | DeleteExpired => 1
  | SelectList by_prefix filter _ limited =>
      1 + (if by_prefix then 1 else 0) +
      match filter with Some e => expr_arity e | None => 0 end +
      (if limited then 1 else 0)
  end.

(** SQL's three-valued connectives; [None] is NULL. *)
Definition and3 (a b : option bool) : option bool :=
  match a, b with
  | Some false, _ => Some false
  | _, Some false => Some false
  | Some true, Some true => Some true
  | _, _ => None
  end.

Definition or3 (a b : option bool) : option bool :=
  match a, b with
  | Some true, _ => Some true
  | _, Some true => Some true
  | Some false, Some false => Some false
  | _, _ => None
  end.

Definition not3 (a : option bool) : option bool := negb <$> a.

(** ASCII letters compare without regard to case in [LIKE]. *)
Definition fold_case (a : ascii) : ascii :=
  let n := nat_of_ascii a in
  if (65 <=? n)%nat && (n <=? 90)%nat then ascii_of_nat (n + 32) else a.

(** [s LIKE pattern] with SQLite's defaults: [%] stands for any run of
    characters, [_] for any one character, there is no escape character,
    and ASCII letters match in either case. *)
Fixpoint like (pattern s : string) : bool :=
  match pattern with
  | EmptyString =>
      match s with
      | EmptyString => true
      | _ => false
      end
  | String p pattern' =>
      if Ascii.eqb p "%" then
        (fix any (s : string) : bool :=
           like pattern' s ||
           match s with
           | EmptyString => false
           | String _ s' => any s'
           end) s
      else
        match s with
        | EmptyString => false
        | String c s' =>
            (Ascii.eqb p "_" || Ascii.eqb (fold_case p) (fold_case c)) && like pattern' s'
        end
  end.

(** [expires_at IS NULL OR expires_at > now] *)
Definition unexpired (now : Z) (row : Row) : bool :=
  match expires_at row with
  | None => true
  | Some e => Z.ltb now e
  end.

(** [expires_at IS NOT NULL AND expires_at < now] *)
Definition overdue (now : Z) (row : Row) : bool :=
  match expires_at row with
  | None => false
  | Some e => Z.ltb e now
  end.

Definition has_key (k : string) (row : Row) : bool := String.eqb (key row) k.

(** [ORDER BY key]: the column has the BINARY collation. *)
Fixpoint insert_by_key (row : Row) (sorted : list Row) : list Row :=
  match sorted with
  | [] => [row]
  | x :: xs =>
      if String.leb (key row) (key x) then row :: sorted
      else x :: insert_by_key row xs
  end.

Definition order_by_key (descending : bool) (rs : list Row) : list Row :=
  let ascending := foldr insert_by_key [] rs in
  if descending then rev ascending else ascending.

(** [LIMIT n]: a negative [n] is no limit. *)
Definition limit_to (n : Z) (rs : list Row) : list Row :=
  if Z.ltb n 0 then rs else take (Z.to_nat n) rs.

(** [INSERT ... ON CONFLICT(key) DO UPDATE SET ...] with every column the
    model keeps among those overwritten. *)
Definition upsert (row : Row) (t : Table) : Table :=
  if existsb (has_key (key row)) t
  then List.map (fun r => if has_key (key row) r then row else r) t
  else t ++ [row].

Definition value_types : list string := ["json"; "string"; "number"; "binary"; "boolean"].

Section Evaluation.
Context `{Ext : Externals}.

(** The value of an expression on a row, and the arguments left over.
    A parameter without an argument is NULL. *)
Fixpoint eval_expr (e : Expr) (args : list (InValue finite)) (row : Row)
    : option bool * list (InValue finite) :=
  match e with
  | Compare op =>
      let path := nth 0 args INull in
      let v := nth 1 args INull in
      (match value_text row with
       | Val s => json_compare op s path v
       | _ => None
       end, drop 2 args)
  | Negation e =>
      let '(b, rest) := eval_expr e args row in
      (not3 b, rest)
  | Junction is_and first others =>
      let '(b, rest) := eval_expr first args row in
      (fix go (es : list Expr) (acc : option bool) (args : list (InValue finite)) :=
         match es with
         | [] => (acc, args)
         | e :: es' =>
             let '(b', rest') := eval_expr e args row in
             go es' ((if is_and then and3 else or3) acc b') rest'
         end) others b rest
  end.

(** [value_type = 'json' AND (expr)] holds. *)
Definition passes (filter : option Expr) (args : list (InValue finite)) (row : Row) : bool :=
  match filter with
  | None => true
  | Some e =>
      match value_type row with
      | Val t => String.eqb t "json" && bool_decide (fst (eval_expr e args row) = Some true)
      | _ => false
      end
  end.

Definition unsupported {A} (t : Table) : result A * Table :=
  (Throw (LibsqlError "binding outside the model"), t).

Definition select (keep : Row -> bool) (t : Table) : result ResultSet * Table :=
  (Ok {| rows := List.filter keep t |}, t).

Definition delete (drop : Row -> bool) (t : Table) : result ResultSet * Table :=
  (Ok {| rows := [] |}, List.filter (fun r => negb (drop r)) t).

Fixpoint texts (args : list (InValue finite)) : option (list string) :=
  match args with
  | [] => Some []
  | IText s :: rest => cons s <$> texts rest
  | _ => None
  end.

Definition run_plan (plan : Plan) (args : list (InValue finite)) (t : Table)
    : result ResultSet * Table :=
  match plan, args with
  | SelectByKey, [IText k] => select (has_key k) t
  | SelectByKeys _, _ =>
      match texts args with
      | Some ks => select (fun r => existsb (String.eqb (key r)) ks) t
      | None => unsupported t
      end
  | DeleteByKey, [IText k] => delete (has_key k) t
  | DeleteExpired, [IInteger now] => delete (overdue now) t
  | Upsert, [IText k; b; tx; ty; IText ver; e] =>
      match
        match b with IBlob x => Some (Val x) | INull => Some SqlNull | _ => None end,
        match tx with IText x => Some (Val x) | INull => Some SqlNull | _ => None end,
        match ty with IText x => Some (Val x) | INull => Some SqlNull | _ => None end,
        match e with IInteger x => Some (Some x) | INull => Some None | _ => None end
      with
      | Some cb, Some ctx, Some cty, Some ce =>
          if match cty with Val x => includes value_types x | _ => true end
          then (Ok {| rows := [] |},
                upsert {| key := k; value_blob := cb; value_text := ctx; value_type := cty;
                          version := ver; expires_at := ce |} t)
          else (Throw (LibsqlError "CHECK constraint failed"), t)
      | _, _, _, _ => unsupported t
      end
  | SelectList by_prefix filter descending limited, IInteger now :: rest =>
      match
        if by_prefix then
          match rest with
          | IText pattern :: rest' => Some (like pattern, rest')
          | _ => None
          end
        else Some (fun _ => true, rest)
      with
      | Some (matches, rest) =>
          let n := match filter with Some e => expr_arity e | None => 0%nat end in
          let chosen :=
            order_by_key descending
              (List.filter (fun r => unexpired now r && matches (key r) &&
                                     passes filter (take n rest) r) t) in
          if limited then
            match drop n rest with
            | [IInteger l] => (Ok {| rows := limit_to l chosen |}, t)
            | _ => unsupported t
            end
          else (Ok {| rows := chosen |}, t)
      | None => unsupported t
      end
  | _, _ => unsupported t
  end.

(** The executor of a connection to the table. *)
Definition run (stmt : Statement finite) (t : Table) : result ResultSet * Table :=
  match prepare (sql stmt) with
  | None => (Throw (LibsqlError "SQL_PARSE_ERROR"), t)
  | Some plan =>
      if bool_decide (length (args stmt) = arity plan)
      then run_plan plan (args stmt) t
      else (Throw (LibsqlError "wrong number of arguments"), t)
  end.

End Evaluation.

End SQLite.

(** ** A runtime to compute with

    An instance of [Externals] in which the finite numbers are the integers,
    printed and read in decimal, and JSON texts are written and read without
    white space.  It is what the closed examples below run on. *)
Module Integers.

Definition decimal (z : Z) : string := NilZero.string_of_int (Z.to_int z).

Definition Number_of_string (s : string) : number Z :=
  if String.eqb s "" then Finite 0
  else if String.eqb s "Infinity" then Infinity
  else if String.eqb s "-Infinity" then NegInfinity
  else
    match NilZero.int_of_string s with
    | Some d => Finite (Z.of_int d)
    | None => NaN
    end.

Definition double_quote : ascii := ascii_of_nat 34.

Definition backslash : ascii := ascii_of_nat 92.

Definition quote_char (a : ascii) : string :=
  if Ascii.eqb a double_quote then String backslash (String double_quote EmptyString)
  else if Ascii.eqb a backslash then String backslash (String backslash EmptyString)
  else if Ascii.eqb a (ascii_of_nat 10) then String backslash (String "n" EmptyString)
  else String a EmptyString.

Fixpoint quote_chars (s : string) : string :=
  match s with
  | EmptyString => EmptyString
  | String a s' => quote_char a +:+ quote_chars s'
  end.

Definition quote (s : string) : string :=
  String double_quote (quote_chars s +:+ String double_quote EmptyString).

Fixpoint stringify (j : JSONValue Z) : string :=
  match j with
  | JString s => quote s
  | JNumber (Finite z) => decimal z
  | JNumber _ => "null"
  | JBoolean true => "true"
  | JBoolean false => "false"
  | JNull => "null"
  | JObject members =>
      "{" +:+ join "," (List.map (fun m => let '(k, v) := m in quote k +:+ ":" +:+ stringify v)
                                 members) +:+ "}"
  | JArray items => "[" +:+ join "," (List.map stringify items) +:+ "]"
  end.

(** The characters of a string literal up to its closing quote. *)
Fixpoint read_string (s : string) : option (string * string) :=
  match s with
  | EmptyString => None
  | String a s' =>
      if Ascii.eqb a double_quote then Some (EmptyString, s')
      else if Ascii.eqb a backslash then
        match s' with
        | String b s'' =>
            let c := if Ascii.eqb b "n" then ascii_of_nat 10 else b in
            match read_string s'' with
            | Some (t, r) => Some (String c t, r)
            | None => None
            end
        | EmptyString => None
        end
      else
        match read_string s' with
        | Some (t, r) => Some (String a t, r)
        | None => None
        end
  end.

Definition is_digit (a : ascii) : bool :=
  let n := nat_of_ascii a in (48 <=? n)%nat && (n <=? 57)%nat.

(** The longest run of digits at the head of a string. *)
Fixpoint read_digits (s : string) : string * string :=
  match s with
  | String a s' =>
      if is_digit a then let '(d, r) := read_digits s' in (String a d, r)
      else (EmptyString, s)
  | EmptyString => (EmptyString, EmptyString)
  end.

Definition read_number (s : string) : option (JSONValue Z * string) :=
  let '(sign, body) :=
    match s with
    | String a s' => if Ascii.eqb a "-" then ("-", s') else ("", s)
    | EmptyString => ("", s)
    end in
  let '(digits, r) := read_digits body in
  if String.eqb digits "" then None
  else
    match NilZero.int_of_string (sign +:+ digits) with
    | Some d => Some (JNumber (Finite (Z.of_int d)), r)
    | None => None
    end.

Fixpoint read_value (fuel : nat) (s : string) : option (JSONValue Z * string) :=
  match fuel with
  | O => None
  | S fuel =>
      match SQLite.strip "null" s with Some r => Some (JNull, r) | None =>
      match SQLite.strip "true" s with Some r => Some (JBoolean true, r) | None =>
      match SQLite.strip "false" s with Some r => Some (JBoolean false, r) | None =>
      match SQLite.strip (String double_quote EmptyString) s with
      | Some r =>
          match read_string r with
          | Some (t, r') => Some (JString t, r')
          | None => None
          end
      | None =>
      match SQLite.strip "[" s with
      | Some r =>
          match SQLite.strip "]" r with
          | Some r' => Some (JArray [], r')
          | None =>
              match read_items fuel r with
              | Some (items, r') => Some (JArray items, r')
              | None => None
              end
          end
      | None =>
      match SQLite.strip "{" s with
      | Some r =>
          match SQLite.strip "}" r with
          | Some r' => Some (JObject [], r')
          | None =>
              match read_members fuel r with
              | Some (members, r') => Some (JObject members, r')
              | None => None
              end
          end
      | None => read_number s
      end end end end end end
  end
with read_items (fuel : nat) (s : string) : option (list (JSONValue Z) * string) :=
  match fuel with
  | O => None
  | S fuel =>
      match read_value fuel s with
      | Some (v, r) =>
          match SQLite.strip "]" r with
          | Some r' => Some ([v], r')
          | None =>
              match SQLite.strip "," r with
              | Some r' =>
                  match read_items fuel r' with
                  | Some (vs, r'') => Some (v :: vs, r'')
                  | None => None
                  end
              | None => None
              end
          end
      | None => None
      end
  end
with read_members (fuel : nat) (s : string)
    : option (list (string * JSONValue Z) * string) :=
  match fuel with
  | O => None
  | S fuel =>
      match SQLite.strip (String double_quote EmptyString) s with
      | Some r =>
          match read_string r with
          | Some (k, r1) =>
              match SQLite.strip ":" r1 with
              | Some r2 =>
                  match read_value fuel r2 with
                  | Some (v, r3) =>
                      match SQLite.strip "}" r3 with
                      | Some r4 => Some ([(k, v)], r4)
                      | None =>
                          match SQLite.strip "," r3 with
                          | Some r4 =>
                              match read_members fuel r4 with
                              | Some (ms, r5) => Some ((k, v) :: ms, r5)
                              | None => None
                              end
                          | None => None
                          end
                      end
                  | None => None
                  end
              | None => None
              end
          | None => None
          end
      | None => None
      end
  end.

Definition parse (s : string) : option (JSONValue Z) :=
  match read_value (S (String.length s)) s with
  | Some (v, EmptyString) => Some v
  | _ => None
  end.

(** [json_extract(text, '$.name')]: the member [name] of a JSON object. *)
Definition extract (text : string) (path : InValue Z) : option (JSONValue Z) :=
  match path with
  | IText p =>
      match SQLite.strip "$." p, parse text with
      | Some name, Some (JObject members) =>
          snd <$> List.find (fun m => String.eqb (fst m) name) members
      | _, _ => None
      end
  | _ => None
  end.

(** Comparison of an extracted member with a bound value: numbers with
    numbers, texts with texts; anything else is NULL here. *)
Definition compare (op text : string) (path v : InValue Z) : option bool :=
  match extract text path, v with
  | Some (JNumber (Finite a)), INumber (Finite b) =>
      if String.eqb op "=" then Some (Z.eqb a b)
      else if String.eqb op ">" then Some (Z.ltb b a)
      else if String.eqb op "<" then Some (Z.ltb a b)
      else if String.eqb op "!=" then Some (negb (Z.eqb a b))
      else None
  | Some (JString a), IText b =>
      if String.eqb op "=" then Some (String.eqb a b)
      else if String.eqb op ">" then Some (String.ltb b a)
      else if String.eqb op "<" then Some (String.ltb a b)
      else if String.eqb op "!=" then Some (negb (String.eqb a b))
      else if String.eqb op "LIKE" then Some (SQLite.like b a)
      else None
  | _, _ => None
  end.

#[export] Instance runtime : Externals := {|
  finite := Z;
  finite_zero := 0;
  String_finite := decimal;
  Number_string := Number_of_string;
  JSON_stringify := stringify;
  JSON_parse := parse;
  json_compare := compare
|}.

(** A session on a table of the engine. *)
Definition session (t : SQLite.Table) : CoreKV.Session :=
  {| CoreKV.conn := t; CoreKV.issued := [] |}.

End Integers.

(** ** Values and stores of the test-suite, on the runtime above *)
Module Examples.
Import Integers.

(** A connection to the engine. *)
Definition engine : Statement Z -> SQLite.Table -> result ResultSet * SQLite.Table :=
  SQLite.run (Ext:=runtime).

(** An executor that answers every statement with the same rows. *)
Definition canned (rs : list Row) : Statement Z -> unit -> result ResultSet * unit :=
  fun _ c => (Ok {| rows := rs |}, c).

Definition nowhere : CoreKV.Session (Ext:=runtime) :=
  {| CoreKV.conn := tt; CoreKV.issued := [] |}.

Definition string_value (s : string) : KVValue Z := Json (JString s).

Definition number_value (z : Z) : KVValue Z := Json (JNumber (Finite z)).

Definition object_value (members : list (string * JSONValue Z)) : KVValue Z :=
  Json (JObject members).

(** [{ foo: "bar", baz: 123 }] *)
Definition test_json : KVValue Z :=
  object_value [("foo", JString "bar"); ("baz", JNumber (Finite 123))].

(** [kv.set("expired", "value", { expireIn: 1000 })] at the instant 5000 on
    an empty table. *)
Definition expiring : CoreKV.Session :=
  snd (CoreKV.set engine "expired" (string_value "value") (Some {| expireIn := Some 1000 |})
                  "0001" 5000 (session [])).

(** [kv.set("kept", "value", { expireIn: 0 })] at the instant 5000 on an
    empty table. *)
Definition kept : CoreKV.Session :=
  snd (CoreKV.set engine "kept" (string_value "value") (Some {| expireIn := Some 0 |})
                  "0001" 5000 (session [])).

(** The three users of the filter test. *)
Definition users : CoreKV.Session :=
  let s := session [] in
  let s := snd (CoreKV.set engine "user:1"
                  (object_value [("name", JString "Alice"); ("age", JNumber (Finite 30))])
                  None "0001" 1 s) in
  let s := snd (CoreKV.set engine "user:2"
                  (object_value [("name", JString "Bob"); ("age", JNumber (Finite 25))])
                  None "0002" 2 s) in
  snd (CoreKV.set engine "user:3"
         (object_value [("name", JString "Charlie"); ("age", JNumber (Finite 35))])
         None "0003" 3 s).

(** [kv.getMany(["user:1", "missing", "user:1"])] *)
Definition wanted : list string := ["user:1"; "missing"; "user:1"].

(** The four records of the nested-filter test. *)
Definition grid : CoreKV.Session :=
  let put k a b ver s :=
    snd (CoreKV.set engine k
           (object_value [("a", JNumber (Finite a)); ("b", JNumber (Finite b))])
           None ver 1 s) in
  put "n:4" 2 2 "0004" (put "n:3" 2 1 "0003" (put "n:2" 1 2 "0002"
    (put "n:1" 1 1 "0001" (session [])))).

Definition equals (name : string) (n : Z) : Filter Z :=
  Condition {| field := name; operator := "="; value := FNumber (Finite n) |}.

(** [where: ({ and, or }) => or(and(a = 1, b = 2), and(a = 2, b = 1))] *)
Definition crossed : ListOptions Z :=
  {| ListOptions.prefix := None; ListOptions.limit := None; ListOptions.cursor := None;
     ListOptions.where_ :=
       Some (WhereCallback (fun c =>
               or_ c [and_ c [equals "a" 1; equals "b" 2];
                      and_ c [equals "a" 2; equals "b" 1]]));
     ListOptions.reverse := None |}.

(** [where: ({ and, not }) => and(a = 1, not(b = 1))], newest key first,
    at most five rows. *)
Definition negated : ListOptions Z :=
  {| ListOptions.prefix := Some "n:"; ListOptions.limit := Some 5; ListOptions.cursor := None;
     ListOptions.where_ :=
       Some (WhereCallback (fun c => and_ c [equals "a" 1; not_ c (equals "b" 1)]));
     ListOptions.reverse := Some true |}.

(** [where: { field: "a", operator: "; DROP TABLE kv_store; --", value: 2 }] *)
Definition hostile : ListOptions Z :=
  {| ListOptions.prefix := None; ListOptions.limit := Some 2; ListOptions.cursor := None;
     ListOptions.where_ :=
       Some (WhereObject {| field := "a"; operator := "; DROP TABLE kv_store; --";
                            value := FNumber (Finite 2) |});
     ListOptions.reverse := Some true |}.

(** A table with the one key [abc]. *)
Definition alphabet : CoreKV.Session :=
  snd (CoreKV.set engine "abc" (number_value 1) None "0001" 1 (session [])).

(** A row object with none of the three value fields. *)
Definition bare_row : Row :=
  {| key := "k"; value_blob := Absent; value_text := Absent; value_type := Absent;
     version := "0001"; expires_at := None |}.

(** A row with a tag the codec does not know. *)
Definition odd_row : Row :=
  {| key := "k"; value_blob := SqlNull; value_text := Val "x"; value_type := Val "foo";
     version := "0001"; expires_at := None |}.

(** A row of type [string] without a text. *)
Definition empty_row : Row :=
  {| key := "k"; value_blob := SqlNull; value_text := SqlNull; value_type := Val "string";
     version := "0001"; expires_at := None |}.

Definition age_over (n : Z) : ListOptions Z :=
  {| ListOptions.prefix := None; ListOptions.limit := None; ListOptions.cursor := None;
     ListOptions.where_ :=
       Some (WhereObject {| field := "age"; operator := ">"; value := FNumber (Finite n) |});
     ListOptions.reverse := None |}.

Definition keys_of (r : result (list (KVEntry Z))) : option (list string) :=
  match r with
  | Ok entries => Some (List.map KVEntry.key entries)
  | Throw _ => None
  end.

(** The users, and [kv.set("session:1", "token", { expireIn: 1000 })] at
    the instant 5000. *)
Definition lobby : CoreKV.Session :=
  snd (CoreKV.set engine "session:1" (string_value "token")
                  (Some {| expireIn := Some 1000 |}) "0004" 5000 users).

(** [kv.getMany(["session:1", "user:1", "missing", "session:1"])] and what
    the engine answers to its query on [lobby]. *)
Definition called : list string := ["session:1"; "user:1"; "missing"; "session:1"].

Definition answered : ResultSet :=
  {| rows := List.filter (fun r => existsb (String.eqb (key r)) called) (CoreKV.conn lobby) |}.


End Examples.

(** ** Vocabulary of the properties *)

Section Vocabulary.
Context `{Ext : Externals}.

(** The row [set] asks the engine to store. *)
Definition row_of (k : string) (enc : Encoded) (ver : string) (exp : option Z) : Row :=
  {| key := k;
     value_blob := column_of_option (blob enc);
     value_text := column_of_option (text enc);
     value_type := Val (type enc);
     version := ver;
     expires_at := exp |}.

(** The runtime reads back the text it wrote for [v].  ECMAScript promises
    this of [Number(String(x))] for every number [x] up to the sign of
    zero, and of [JSON.parse(JSON.stringify(j))] for every JSON value [j]
    of finite numbers.  Strings, booleans and byte arrays do not pass
    through either pair. *)
Definition text_faithful (v : KVValue finite) : Prop :=
  match v with
  | Binary _ => True
  | Json (JString _) => True
  | Json (JBoolean _) => True
  | Json (JNumber n) => Number_string (String_number n) = n
  | Json j => JSON_parse (JSON_stringify j) = Some j
  end.

(** What a stored value decodes to: itself, except that a byte array comes
    back as a fresh view of the bytes that were stored. *)
Definition decoded_form (v : KVValue finite) : KVValue finite :=
  match v with
  | Binary arr => Binary (Uint8Array_of (toArrayBuffer arr))
  | Json j => Json j
  end.

(** The entry a read builds from a row that decodes to [v]. *)
Definition entry (row : Row) (v : JSValue finite) : KVEntry finite :=
  {| KVEntry.key := key row; KVEntry.value := v; KVEntry.version := version row |}.

(** What [decodeValue] makes of [row.value_text] when no tag applies. *)
Definition text_as_value (c : column string) : JSValue finite :=
  match c with
  | Val s => Defined (Json (JString s))
  | SqlNull => Defined (Json JNull)
  | Absent => Undefined
  end.

(** The texts of the statements a call hands to the executor. *)
Definition handed {Conn A} (m : @CoreKV.M Ext Conn A) (s : CoreKV.Session) : list string :=
  List.map sql (drop (length (CoreKV.issued s)) (CoreKV.issued (snd (m s)))).

(** The texts the predicate compiler can produce: the operator position of
    a comparison holds one of the five allow-listed operators. *)
Inductive fragment_text : string -> Prop :=
| fragment_comparison op :
    In op safeOps ->
    fragment_text ("json_extract(value_text, ?) " +:+ op +:+ " ?")
| fragment_negation inner :
    fragment_text inner ->
    fragment_text ("NOT (" +:+ inner +:+ ")")
| fragment_junction op parts :
    Forall fragment_text parts ->
    fragment_text ("(" +:+ join (" " +:+ LogicOp_text op +:+ " ") parts +:+ ")").

(** Whether the predicate compiler gets through a filter: the only thing
    it refuses is a [NOT] without a condition.  Operators play no part. *)
Fixpoint compiles (f : Filter finite) : bool :=
  match f with
  | Condition _ => true
  | LogicResult NOT conditions =>
      match conditions with
      | [] => false
      | first :: _ => compiles first
      end
  | LogicResult _ conditions => forallb compiles conditions
  end.

(** The shape of a filter: its tree and the operator each comparison is
    compiled with; field names and comparison values are left out. *)
Inductive FilterShape : Type :=
| ShapeCondition (op : string)
| ShapeLogic (op : LogicOp) (conditions : list FilterShape).

Fixpoint filter_shape (f : Filter finite) : FilterShape :=
  match f with
  | Condition c => ShapeCondition (CoreKV.checked_operator (operator c))
  | LogicResult op conditions => ShapeLogic op (List.map filter_shape conditions)
  end.

Inductive WhereShape : Type :=
| ShapeNone
| ShapeObject (op : string)
| ShapeCallback (tree : FilterShape).

(** The shape of the options of [list]: which options are in effect, the
    direction, and the shape of the filter. *)
Record Shape : Type := {
  with_prefix : bool;
  with_limit : bool;
  descending : bool;
  where_shape : WhereShape
}.

Definition the_combinators : Combinators finite :=
  {| and_ := fun args => LogicResult AND args;
     or_ := fun args => LogicResult OR args;
     not_ := fun arg => LogicResult NOT [arg] |}.

Definition shape_of (options : ListOptions finite) : Shape :=
  {| with_prefix :=
       match ListOptions.prefix options with
       | Some p => negb (String.eqb p "")
       | None => false
       end;
     with_limit :=
       match ListOptions.limit options with
       | Some n => negb (Z.eqb n 0)
       | None => false
       end;
     descending :=
       match ListOptions.reverse options with
       | Some true => true
       | _ => false
       end;
     where_shape :=
       match ListOptions.where_ options with
       | None => ShapeNone
       | Some (WhereObject c) => ShapeObject (CoreKV.checked_operator (operator c))
       | Some (WhereCallback callback) =>
           ShapeCallback (filter_shape (callback the_combinators))
       end |}.

(** The texts of a list of shapes, when each has one. *)
Definition each_text (text : FilterShape -> option string) :=
  fix each (shs : list FilterShape) : option (list string) :=
    match shs with
    | [] => Some []
    | sh :: rest =>
        match text sh, each rest with
        | Some t, Some ts => Some (t :: ts)
        | _, _ => None
        end
    end.

(** The text the predicate compiler produces for a filter of a given
    shape; there is none when a [NOT] has no condition. *)
Fixpoint shape_text (sh : FilterShape) : option string :=
  match sh with
  | ShapeCondition op => Some ("json_extract(value_text, ?) " +:+ op +:+ " ?")
  | ShapeLogic NOT conditions =>
      match conditions with
      | [] => None
      | first :: _ =>
          match shape_text first with
          | Some inner => Some ("NOT (" +:+ inner +:+ ")")
          | None => None
          end
      end
  | ShapeLogic op conditions =>
      match each_text shape_text conditions with
      | Some parts => Some ("(" +:+ join (" " +:+ LogicOp_text op +:+ " ") parts +:+ ")")
      | None => None
      end
  end.

(** The text of a compiled fragment, when there is one. *)
Definition fragment_of (r : result CoreKV.Fragment) : option string :=
  match r with
  | Ok frag => Some (CoreKV.frag_sql frag)
  | Throw _ => None
  end.

Definition where_text (sh : WhereShape) : option string :=
  match sh with
  | ShapeNone => Some ""
  | ShapeObject op =>
      Some (" AND value_type = 'json' AND json_extract(value_text, ?) " +:+ op +:+ " ?")
  | ShapeCallback tree =>
      match shape_text tree with
      | Some t => Some (" AND value_type = 'json' AND (" +:+ t +:+ ")")
      | None => None
      end
  end.

(** The text of the statement of [list] for options of a given shape. *)
Definition list_text (sh : Shape) : option string :=
  match where_text (where_shape sh) with
  | Some w =>
      Some ("SELECT * FROM kv_store WHERE 1=1 AND (expires_at IS NULL OR expires_at > ?)" +:+
            (if with_prefix sh then " AND key LIKE ?" else "") +:+
            w +:+
            " ORDER BY key " +:+ (if descending sh then "DESC" else "ASC") +:+
            (if with_limit sh then " LIMIT ?" else ""))
  | None => None
  end.

(** The operators a shape compiles with. *)
Fixpoint shape_operators (sh : FilterShape) : list string :=
  match sh with
  | ShapeCondition op => [op]
  | ShapeLogic _ conditions => flat_map shape_operators conditions
  end.

(** What the properties below need to know of one compilation: it
    succeeds exactly on the filters that [compiles] accepts, with a text of
    the grammar [fragment_text] that is the text of the filter's shape, and
    it fails in one way only. *)
Definition compiled_as_expected (f : Filter finite) : Prop :=
  match CoreKV.buildWhereSql f with
  | Ok frag =>
      compiles f = true /\
      fragment_text (CoreKV.frag_sql frag) /\
      shape_text (filter_shape f) = Some (CoreKV.frag_sql frag)
  | Throw e =>
      compiles f = false /\
      e = Error "NOT operator requires a condition" /\
      shape_text (filter_shape f) = None
  end.

(** The allow-list by name: the five operators, written out. *)
Definition allow_listed (op : string) : Prop :=
  op = "=" \/ op = ">" \/ op = "<" \/ op = "LIKE" \/ op = "!=".

(** The grammar of [fragment_text] with the five operators written out. *)
Inductive named_fragment : string -> Prop :=
| named_comparison op :
    allow_listed op ->
    named_fragment ("json_extract(value_text, ?) " +:+ op +:+ " ?")
| named_negation inner :
    named_fragment inner ->
    named_fragment ("NOT (" +:+ inner +:+ ")")
| named_junction op parts :
    Forall named_fragment parts ->
    named_fragment ("(" +:+ join (" " +:+ LogicOp_text op +:+ " ") parts +:+ ")").

(** The check of the older revision of [list] that is kept beside the
    tests: [const safeOps = ["=", ">", "<", "LIKE"]], without [!=]. *)
Definition safeOps_older : list string := ["="; ">"; "<"; "LIKE"].

Definition checked_operator_older (operator : string) : string :=
  if includes safeOps_older operator then operator else "=".


(** The [Map] that [getMany] fills from the rows it fetched: the rows that
    have not expired, the later of two rows with one key winning. *)
Fixpoint live_rows (rs : list Row) (now : Z) (map : gmap string Row) : gmap string Row :=
  match rs with
  | [] => map
  | row :: rest =>
      if CoreKV.expired row now then live_rows rest now map
      else live_rows rest now (<[key row := row]> map)
  end.

(** The slot [getMany] computes for one key from that [Map]. *)
Definition slot_for (map : gmap string Row) (k : string) : result (option (KVEntry finite)) :=
  match map !! k with
  | None => Ok None
  | Some row =>
      match decodeValue row with
      | Ok v => Ok (Some (entry row v))
      | Throw e => Throw e
      end
  end.

(** The engine's reading of the text of a filter shape: a junction of one
    condition is read as a conjunction, whatever its connective. *)
Definition each_plan (plan : FilterShape -> option SQLite.Expr) :=
  fix each (shs : list FilterShape) : option (list SQLite.Expr) :=
    match shs with
    | [] => Some []
    | sh :: rest =>
        match plan sh, each rest with
        | Some e, Some es => Some (e :: es)
        | _, _ => None
        end
    end.

Fixpoint plan_expr (sh : FilterShape) : option SQLite.Expr :=
  match sh with
  | ShapeCondition op => Some (SQLite.Compare op)
  | ShapeLogic NOT conditions =>
      match conditions with
      | [] => None
      | first :: _ =>
          match plan_expr first with
          | Some e => Some (SQLite.Negation e)
          | None => None
          end
      end
  | ShapeLogic op conditions =>
      match each_plan plan_expr conditions with
      | Some (e :: es) =>
          Some (SQLite.Junction
                  (match es, op with
                   | [], _ => true
                   | _, AND => true
                   | _, _ => false
                   end) e es)
      | _ => None
      end
  end.

(** The fuel that reading the text of a shape takes. *)
Definition each_weight (weight : FilterShape -> nat) :=
  fix each (shs : list FilterShape) : nat :=
    match shs with
    | [] => 0%nat
    | sh :: rest => S (Nat.max (weight sh) (each rest))
    end.

Fixpoint weight (sh : FilterShape) : nat :=
  match sh with
  | ShapeCondition _ => 1%nat
  | ShapeLogic NOT conditions =>
      match conditions with
      | [] => 1%nat
      | first :: _ => S (weight first)
      end
  | ShapeLogic _ conditions =>
      match conditions with
      | [] => 1%nat
      | first :: rest => S (Nat.max (weight first) (each_weight weight rest))
      end
  end.

(** What it means for the engine to read the text of a shape: whatever
    follows the text is left over, and the expression is the planned one. *)
Definition reads (sh : FilterShape) : Prop :=
  Forall (fun op => In op safeOps) (shape_operators sh) ->
  forall t e, shape_text sh = Some t -> plan_expr sh = Some e ->
  forall fuel rest, (weight sh <= fuel)%nat ->
    SQLite.parse_expr fuel (t +:+ rest) = Some (e, rest).

(** The engine's reading of the statement of [list]. *)
Definition plan_of (sh : Shape) : option SQLite.Plan :=
  match where_shape sh with
  | ShapeNone =>
      Some (SQLite.SelectList (with_prefix sh) None (descending sh) (with_limit sh))
  | ShapeObject op =>
      Some (SQLite.SelectList (with_prefix sh) (Some (SQLite.Compare op))
                              (descending sh) (with_limit sh))
  | ShapeCallback tree =>
      match plan_expr tree with
      | Some e => Some (SQLite.SelectList (with_prefix sh) (Some e) (descending sh)
                                          (with_limit sh))
      | None => None
      end
  end.

Definition shape_safe (sh : WhereShape) : Prop :=
  match sh with
  | ShapeNone => True
  | ShapeObject op => In op safeOps
  | ShapeCallback tree => Forall (fun op => In op safeOps) (shape_operators tree)
  end.

(** The table holds a row under [k], and every row it holds under [k]
    satisfies [P]. *)
Definition stored_under (k : string) (t : SQLite.Table) (P : Row -> Prop) : Prop :=
  (exists row, row ∈ t /\ key row = k) /\
  (forall row, row ∈ t -> key row = k -> P row).

(** Options of [list] with a prefix and nothing else. *)
Definition only_prefix (p : string) : ListOptions finite :=
  {| ListOptions.prefix := Some p; ListOptions.limit := None; ListOptions.cursor := None;
     ListOptions.where_ := None; ListOptions.reverse := None |}.

(** The text of a statement, when there is one. *)
Definition text_of (r : result (Statement finite)) : option string :=
  match r with
  | Ok stmt => Some (sql stmt)
  | Throw _ => None
  end.

End Vocabulary.

(** ** Vocabulary of the further properties *)

Section Bindings.
Context `{Ext : Externals}.

(** The number of positional parameters [?] in a text. *)
Fixpoint placeholders (s : string) : nat :=
  match s with
  | EmptyString => 0%nat
  | String a s' => ((if Ascii.eqb a "?" then 1 else 0) + placeholders s')%nat
  end.

(** A statement with as many arguments as its text has parameters. *)
Definition well_bound (stmt : Statement finite) : Prop :=
  placeholders (sql stmt) = length (args stmt).

(** The statements a call hands to the executor, oldest first. *)
Definition issued_by {Conn A} (m : @CoreKV.M Ext Conn A) (s : CoreKV.Session)
    : list (Statement finite) :=
  drop (length (CoreKV.issued s)) (CoreKV.issued (snd (m s))).

(** Every statement a call hands to the executor satisfies [P], and the
    call takes nothing back from the record. *)
Definition hands_only {Conn A} (P : Statement finite -> Prop) (m : @CoreKV.M Ext Conn A)
    : Prop :=
  forall s, exists extra,
    CoreKV.issued (snd (m s)) = CoreKV.issued s ++ extra /\ Forall P extra.

(** A call keeps a property of the state behind the executor. *)
Definition keeps {Conn A} (I : Conn -> Prop) (m : @CoreKV.M Ext Conn A) : Prop :=
  forall s, I (CoreKV.conn s) -> I (CoreKV.conn (snd (m s))).

(** All the values of a list of outcomes, or the first of its errors. *)
Fixpoint all_ok {A} (rs : list (result A)) : result (list A) :=
  match rs with
  | [] => Ok []
  | r :: rest =>
      result_bind r (fun a =>
      result_bind (all_ok rest) (fun others =>
      Ok (a :: others)))
  end.

(** The statement of [del] and of the look-up of [get]. *)
Definition delete_by_key (k : string) : Statement finite :=
  {| sql := "DELETE FROM kv_store WHERE key = ?"; args := [IText k] |}.

Definition select_by_key (k : string) : Statement finite :=
  {| sql := "SELECT * FROM kv_store WHERE key = ?"; args := [IText k] |}.

(** The look-up of [getMany]. *)
Definition select_by_keys (keys : list string) : Statement finite :=
  {| sql := "SELECT * FROM kv_store WHERE key IN (" +:+
            join "," (replicate (length keys) "?") +:+ ")";
     args := List.map IText keys |}.

(** The session after one more statement, answered with [c]. *)
Definition after_statement {Conn} (s : CoreKV.Session (Conn:=Conn)) (stmt : Statement finite)
    (c : Conn) : CoreKV.Session (Conn:=Conn) :=
  {| CoreKV.conn := c; CoreKV.issued := CoreKV.issued s ++ [stmt] |}.

(** No two rows of the table have the same key. *)
Definition unique_keys (t : SQLite.Table) : Prop := NoDup (List.map key t).

(** The row a look-up by key finds first. *)
Definition row_under (k : string) (t : SQLite.Table) : option Row :=
  List.find (SQLite.has_key k) t.

(** The entry [list] makes of a row. *)
Definition read_entry (row : Row) : result (KVEntry finite) :=
  match decodeValue row with
  | Ok v => Ok (entry row v)
  | Throw e => Throw e
  end.

(** What [get] makes of the row it found. *)
Definition read_row (found : option Row) (now : Z) : result (option (KVEntry finite)) :=
  match found with
  | None => Ok None
  | Some row =>
      if CoreKV.expired row now then Ok None
      else match decodeValue row with
           | Ok v => Ok (Some (entry row v))
           | Throw e => Throw e
           end
  end.

End Bindings.

(** *** What [list] asks of the engine *)

Section Selection.
Context `{Ext : Externals}.

(** Every [AND], [OR] and [NOT] the compiler visits has a condition to
    work on. *)
Fixpoint populated (sh : FilterShape) : bool :=
  match sh with
  | ShapeCondition _ => true
  | ShapeLogic NOT conditions =>
      match conditions with
      | [] => false
      | first :: _ => populated first
      end
  | ShapeLogic _ conditions =>
      match conditions with
      | [] => false
      | _ => forallb populated conditions
      end
  end.

Definition populated_where (sh : WhereShape) : bool :=
  match sh with
  | ShapeCallback tree => populated tree
  | _ => true
  end.

(** The pattern, the limit and the filter arguments in effect. *)
Definition pattern_of (options : ListOptions finite) : option string :=
  match ListOptions.prefix options with
  | Some p => if String.eqb p "" then None else Some (p +:+ "%")
  | None => None
  end.

Definition limit_of (options : ListOptions finite) : option Z :=
  match ListOptions.limit options with
  | Some n => if Z.eqb n 0 then None else Some n
  | None => None
  end.

Definition where_args (options : ListOptions finite) : list (InValue finite) :=
  match ListOptions.where_ options with
  | None => []
  | Some (WhereObject c) => [IText ("$." +:+ field c); CoreKV.InValue_of_filter (value c)]
  | Some (WhereCallback callback) =>
      match CoreKV.buildWhereSql (callback the_combinators) with
      | Ok frag => CoreKV.frag_args frag
      | Throw _ => []
      end
  end.

(** The engine's reading of the filter. *)
Definition filter_of (options : ListOptions finite) : option SQLite.Expr :=
  match where_shape (shape_of options) with
  | ShapeNone => None
  | ShapeObject op => Some (SQLite.Compare op)
  | ShapeCallback tree => plan_expr tree
  end.

(** The rows that are not left out by expiry, prefix or filter. *)
Definition candidates (options : ListOptions finite) (now : Z) (t : SQLite.Table) : list Row :=
  List.filter
    (fun r => SQLite.unexpired now r &&
              match pattern_of options with
              | Some pattern => SQLite.like pattern (key r)
              | None => true
              end &&
              SQLite.passes (filter_of options) (where_args options) r)
    t.

(** The rows the engine answers the statement of [list] with. *)
Definition selected (options : ListOptions finite) (now : Z) (t : SQLite.Table) : list Row :=
  let chosen := SQLite.order_by_key (descending (shape_of options)) (candidates options now t) in
  match limit_of options with
  | Some l => SQLite.limit_to l chosen
  | None => chosen
  end.

(** The options without their limit. *)
Definition unlimited (options : ListOptions finite) : ListOptions finite :=
  {| ListOptions.prefix := ListOptions.prefix options;
     ListOptions.limit := None;
     ListOptions.cursor := ListOptions.cursor options;
     ListOptions.where_ := ListOptions.where_ options;
     ListOptions.reverse := ListOptions.reverse options |}.

(** The order of the keys of a result. *)
Definition in_order (descending : bool) (k k' : string) : Prop :=
  if descending then String.leb k' k = true else String.leb k k' = true.

End Selection.

(** *** What a filter says of a row *)

Section Meaning.
Context `{Ext : Externals}.

(** The value of one condition on the text of a row, with the operator the
    compiler settles on. *)
Definition condition_holds (row : Row) (c : WhereCondition finite) : option bool :=
  match value_text row with
  | Val text =>
      json_compare (CoreKV.checked_operator (operator c)) text
                   (IText ("$." +:+ field c)) (CoreKV.InValue_of_filter (value c))
  | _ => None
  end.

(** The conditions of a junction after the first, from left to right. *)
Definition each_holds (holds : Filter finite -> option bool) (is_and : bool) :=
  fix each (acc : option bool) (conditions : list (Filter finite)) : option bool :=
    match conditions with
    | [] => acc
    | f :: rest => each ((if is_and then SQLite.and3 else SQLite.or3) acc (holds f)) rest
    end.

(** The value of a filter tree on a row, in SQL's three-valued logic.  A
    [NOT] speaks of its first condition only. *)
Fixpoint holds (row : Row) (f : Filter finite) : option bool :=
  match f with
  | Condition c => condition_holds row c
  | LogicResult NOT conditions =>
      match conditions with
      | [] => None
      | first :: _ => SQLite.not3 (holds row first)
      end
  | LogicResult AND conditions =>
      match conditions with
      | [] => None
      | first :: rest => each_holds (holds row) true (holds row first) rest
      end
  | LogicResult OR conditions =>
      match conditions with
      | [] => None
      | first :: rest => each_holds (holds row) false (holds row first) rest
      end
  end.

(** The engine's evaluation of the conditions of a junction after the
    first: the loop inside [SQLite.eval_expr]. *)
Definition eval_others (is_and : bool) (row : Row) :=
  fix go (es : list SQLite.Expr) (acc : option bool) (args : list (InValue finite))
      : option bool * list (InValue finite) :=
    match es with
    | [] => (acc, args)
    | e :: es' =>
        let '(b', rest') := SQLite.eval_expr e args row in
        go es' ((if is_and then SQLite.and3 else SQLite.or3) acc b') rest'
    end.

(** The value of the [where] option on a row. *)
Definition where_holds (w : Where finite) (row : Row) : option bool :=
  match w with
  | WhereObject c => condition_holds row c
  | WhereCallback callback => holds row (callback the_combinators)
  end.

End Meaning.

(** *** Reading the table definition *)

(** What follows the first occurrence of [needle] in [s]. *)
Fixpoint text_after (needle s : string) : option string :=
  match SQLite.strip needle s with
  | Some r => Some r
  | None =>
      match s with
      | String _ s' => text_after needle s'
      | EmptyString => None
      end
  end.

(** The text up to the next single quote, and what follows that quote. *)
Fixpoint up_to_quote (s : string) : option (string * string) :=
  match s with
  | EmptyString => None
  | String a s' =>
      if Ascii.eqb a "'" then Some (EmptyString, s')
      else
        match up_to_quote s' with
        | Some (t, r) => Some (String a t, r)
        | None => None
        end
  end.

(** The items of a list ['a', 'b', ...)] of quoted texts, up to the
    closing parenthesis. *)
Fixpoint quoted_items (fuel : nat) (s : string) : option (list string) :=
  match fuel with
  | O => None
  | S fuel =>
      match SQLite.strip "'" s with
      | Some r =>
          match up_to_quote r with
          | Some (item, r') =>
              match SQLite.strip ")" r' with
              | Some _ => Some [item]
              | None =>
                  match SQLite.strip ", " r' with
                  | Some r'' => cons item <$> quoted_items fuel r''
                  | None => None
                  end
              end
          | None => None
          end
      | None => None
      end
  end.

(** The values the [CHECK] constraint of a table definition admits for
    [value_type]. *)
Definition check_tags (ddl : string) : option (list string) :=
  match text_after "CHECK(value_type IN (" ddl with
  | Some r => quoted_items (String.length r) r
  | None => None
  end.

(** ** Stores, options and values of the worked cases *)
Module Cases.
Import Integers Examples.

(** A window of two bytes into a buffer of four. *)
Definition window : Uint8Array :=
  {| buffer := [x0a; x0b; x0c; x0d]; byteOffset := 1; byteLength := 2 |}.

(** What the test-suite reads: the users older than 28, everyone under the
    prefix [user:], and the nested filter with and without its limit. *)
Definition listed (options : ListOptions Z) (now : Z) (s : CoreKV.Session)
    : list (KVEntry Z) :=
  match fst (CoreKV.list engine options now s) with
  | Ok entries => entries
  | Throw _ => []
  end.

Definition adults : list (KVEntry Z) := listed (age_over 28) 10 users.

Definition everyone : list (KVEntry Z) := listed (only_prefix "user:") 10 users.

(** The row of the first user. *)
Definition alice : Row :=
  row_of "user:1"
    (encodeValue (object_value [("name", JString "Alice"); ("age", JNumber (Finite 30))]))
    "0001" None.

(** [where: ({ and }) => and()] *)
Definition vacuous : Combinators Z -> Filter Z := fun c => and_ c [].

(** The tree of the nested filter, what it compiles to and what the
    engine reads from that. *)
Definition crossing : Filter Z :=
  LogicResult OR [LogicResult AND [equals "a" 1; equals "b" 2];
                  LogicResult AND [equals "a" 2; equals "b" 1]].

Definition crossing_fragment : CoreKV.Fragment :=
  match CoreKV.buildWhereSql crossing with
  | Ok frag => frag
  | Throw _ => {| CoreKV.frag_sql := ""; CoreKV.frag_args := [] |}
  end.

Definition crossing_expr : SQLite.Expr :=
  match plan_expr (filter_shape crossing) with
  | Some e => e
  | None => SQLite.Compare "="
  end.

(** The record [{ a: 1, b: 2 }] of the nested-filter test. *)
Definition second_record : Row :=
  row_of "n:2" (encodeValue (object_value [("a", JNumber (Finite 1)); ("b", JNumber (Finite 2))]))
         "0002" None.

Definition crossed_where : Where Z :=
  WhereCallback (fun c => or_ c [and_ c [equals "a" 1; equals "b" 2];
                                 and_ c [equals "a" 2; equals "b" 1]]).

Definition crossed_entries : list (KVEntry Z) := listed crossed 10 grid.

(** An executor that finds one expired row under every key and refuses
    every delete. *)
Definition stale : Row :=
  {| key := "k"; value_blob := SqlNull; value_text := Val "v"; value_type := Val "string";
     version := "0001"; expires_at := Some 5 |}.

Definition read_only : Statement Z -> unit -> result ResultSet * unit :=
  fun stmt c =>
    if String.eqb (sql stmt) "DELETE FROM kv_store WHERE key = ?"
    then (Throw (LibsqlError "attempt to write a readonly database"), c)
    else (Ok {| rows := [stale] |}, c).

End Cases.

(** * Properties *)

(** ** The value codec *)

Section CodecProperties.
Context `{Ext : Externals}.

Lemma toArrayBuffer_elements (arr : Uint8Array) :
  toArrayBuffer arr = elements_of arr.
Proof.
  unfold toArrayBuffer, elements_of, slice.
  destruct (bool_decide (byteLength arr = length (buffer arr))) eqn:Hlen;
    destruct (bool_decide (byteOffset arr = 0%nat)) eqn:Hoff; simpl.
  - apply bool_decide_eq_true in Hlen, Hoff. rewrite Hlen, Hoff.
    simpl. now rewrite firstn_all.
  - f_equal. lia.
  - f_equal. lia.
  - f_equal. lia.
Qed.

Lemma elements_of_whole (b : list byte) : elements_of (Uint8Array_of b) = b.
Proof. unfold elements_of, Uint8Array_of. simpl. apply firstn_all. Qed.

Lemma encoded_type_known (v : KVValue finite) :
  includes SQLite.value_types (type (encodeValue v)) = true.
Proof. destruct v as [[ | | | | | ] | ]; reflexivity. Qed.

Lemma decode_row_of (v : KVValue finite) (k ver : string) (exp : option Z) :
  text_faithful v ->
  decodeValue (row_of k (encodeValue v) ver exp) = Ok (Defined (decoded_form v)).
Proof.
  intros Hv. destruct v as [j | arr]; [ | reflexivity ].
  destruct j as [s | n | b | | members | items]; unfold decodeValue; simpl;
    simpl in Hv; rewrite ?Hv; try reflexivity.
  now destruct b.
Qed.

(** C2.  For every value [v] whose text the runtime reads back, decoding
    the row that carries the blob, text and type of [encodeValue v] gives
    [v] again: the same JSON value, or a byte array with the same
    elements.  Key, version and expiry of the row play no part. *)
Theorem decode_encode (v : KVValue finite) (k ver : string) (exp : option Z) :
  text_faithful v ->
  exists w, decodeValue (row_of k (encodeValue v) ver exp) = Ok (Defined w) /\ same_value v w.
Proof.
  intros Hv. exists (decoded_form v). split.
  - now apply decode_row_of.
  - destruct v as [j | arr]; simpl.
    + reflexivity.
    + unfold elements_of at 2. simpl.
      rewrite firstn_all. apply eq_sym, toArrayBuffer_elements.
Qed.

End CodecProperties.

Section DecodeErrors.
Context `{Ext : Externals} {Conn : Type}.
Variable run : Statement finite -> Conn -> result ResultSet * Conn.

Lemma map_rows_throws (before after : list Row) (row : Row) (e : exn) (s : CoreKV.Session) :
  Forall (fun r => exists v, decodeValue r = Ok v) before ->
  decodeValue row = Throw e ->
  fst (CoreKV.map_rows (Conn:=Conn) (before ++ row :: after) s) = Throw e.
Proof.
  intros Hbefore Hrow. induction Hbefore as [ | r before [v Hv] _ IH ]; simpl.
  - unfold CoreKV.bind, CoreKV.entry_of, CoreKV.bind, CoreKV.lift. now rewrite Hrow.
  - unfold CoreKV.bind, CoreKV.entry_of, CoreKV.bind, CoreKV.lift, CoreKV.ret in *.
    rewrite Hv. simpl.
    destruct (CoreKV.map_rows (before ++ row :: after) s) as [[es | e'] s'] eqn:Hm;
      simpl in *; congruence.
Qed.

(** C7, as the code has it.  A row with none of the three fields
    [value_type], [value_blob] and [value_text] makes [decodeValue] throw,
    and a read that meets such a row rejects with that error: [get] when
    it is the row found and not expired, [list] when it is the first row of
    the result that does not decode.  A row whose tag is none of
    [binary], [number], [boolean] and [json] is no error: it decodes to
    its [value_text]. *)
Theorem decode_error_propagates (row : Row) :
  value_type row = Absent -> value_blob row = Absent -> value_text row = Absent ->
  let e := Error "Invalid row format for decoding value." in
  decodeValue row = Throw e /\
  (forall key now s rest c,
      run {| sql := "SELECT * FROM kv_store WHERE key = ?"; args := [IText key] |} (CoreKV.conn s)
        = (Ok {| rows := row :: rest |}, c) ->
      CoreKV.expired row now = false ->
      fst (CoreKV.get run key now s) = Throw e) /\
  (forall options now s stmt before after c,
      CoreKV.list_statement options now = Ok stmt ->
      run stmt (CoreKV.conn s) = (Ok {| rows := before ++ row :: after |}, c) ->
      Forall (fun r => exists v, decodeValue r = Ok v) before ->
      fst (CoreKV.list run options now s) = Throw e) /\
  (forall other : Row,
      has_column (value_type other) || has_column (value_blob other) ||
        has_column (value_text other) = true ->
      type_is other "binary" = false -> type_is other "number" = false ->
      type_is other "boolean" = false -> type_is other "json" = false ->
      decodeValue other = Ok (text_as_value (value_text other))).
Proof.
  intros Hty Hblob Htext e.
  assert (Hdec : decodeValue row = Throw e).
  { unfold decodeValue. now rewrite Hty, Hblob, Htext. }
  split; [ exact Hdec | ]. split; [ | split ].
  - intros key now s rest c Hrun Hlive.
    unfold CoreKV.get, CoreKV.bind, CoreKV.execute. simpl.
    change (String.append "SELECT * FROM " (String.append CoreKV.tableName " WHERE key = ?"))
      with "SELECT * FROM kv_store WHERE key = ?".
    rewrite Hrun. simpl. rewrite Hlive.
    unfold CoreKV.entry_of, CoreKV.bind, CoreKV.lift. now rewrite Hdec.
  - intros options now s stmt before after c Hstmt Hrun Hbefore.
    unfold CoreKV.list, CoreKV.bind, CoreKV.lift, CoreKV.execute. rewrite Hstmt.
    destruct stmt as [text args]. simpl in *. rewrite Hrun. simpl.
    now apply map_rows_throws.
  - intros other Hsome Hbin Hnum Hbool Hjson.
    unfold decodeValue. rewrite Hbin, Hnum, Hbool, Hjson.
    destruct (value_type other), (value_blob other), (value_text other);
      simpl in *; try discriminate; reflexivity.
Qed.

End DecodeErrors.

(** ** The predicate compiler *)

Lemma append_assoc (a b c : string) : (a +:+ b) +:+ c = a +:+ b +:+ c.
Proof.
  induction a as [ | x a IH ]; [ reflexivity | ].
  change (String x ((a +:+ b) +:+ c) = String x (a +:+ b +:+ c)). now rewrite IH.
Qed.

Lemma append_empty (a : string) : a +:+ "" = a.
Proof.
  induction a as [ | x a IH ]; [ reflexivity | ].
  change (String x (a +:+ "") = String x a). now rewrite IH.
Qed.

Section CompilerProperties.
Context `{Ext : Externals}.

(** Induction over a filter and the filters below it. *)
Lemma Filter_induction (P : Filter finite -> Prop) :
  (forall c, P (Condition c)) ->
  (forall op conditions, Forall P conditions -> P (LogicResult op conditions)) ->
  forall f, P f.
Proof.
  intros Hc Hl. fix IH 1. intros [c | op conditions].
  - apply Hc.
  - apply Hl. induction conditions as [ | f rest IHrest ]; constructor.
    + apply IH.
    + exact IHrest.
Qed.

Lemma checked_operator_safe (o : string) : In (CoreKV.checked_operator o) safeOps.
Proof.
  unfold CoreKV.checked_operator, includes.
  destruct (existsb (String.eqb o) safeOps) eqn:H.
  - apply existsb_exists in H. destruct H as (x & Hx & Heq).
    apply String.eqb_eq in Heq. now subst.
  - now left.
Qed.

Lemma checked_operator_keeps (o : string) :
  In o safeOps -> CoreKV.checked_operator o = o.
Proof.
  intros H. unfold CoreKV.checked_operator, includes.
  replace (existsb (String.eqb o) safeOps) with true; [ reflexivity | ].
  symmetry. apply existsb_exists. exists o. split; [ exact H | apply String.eqb_refl ].
Qed.

Lemma checked_operator_replaces (o : string) :
  ~ In o safeOps -> CoreKV.checked_operator o = "=".
Proof.
  intros H. unfold CoreKV.checked_operator, includes.
  destruct (existsb (String.eqb o) safeOps) eqn:E; [ | reflexivity ].
  apply existsb_exists in E. destruct E as (x & Hx & Heq).
  apply String.eqb_eq in Heq. subst. contradiction.
Qed.

Lemma build_each_expected (conditions : list (Filter finite)) :
  Forall compiled_as_expected conditions ->
  forall parts args,
    match CoreKV.build_each CoreKV.buildWhereSql conditions parts args with
    | Ok (parts', _) =>
        forallb compiles conditions = true /\
        exists ts, each_text shape_text (List.map filter_shape conditions) = Some ts /\
                   parts' = parts ++ ts /\ Forall fragment_text ts
    | Throw e =>
        forallb compiles conditions = false /\
        e = Error "NOT operator requires a condition" /\
        each_text shape_text (List.map filter_shape conditions) = None
    end.
Proof.
  induction 1 as [ | f rest Hf _ IH ]; intros parts args; simpl.
  - split; [ reflexivity | ]. exists []. rewrite app_nil_r. repeat split. constructor.
  - unfold compiled_as_expected in Hf.
    destruct (CoreKV.buildWhereSql f) as [frag | e]; simpl.
    + destruct Hf as (Hc & Hfrag & Hshape). rewrite Hc, Hshape. simpl.
      specialize (IH (parts ++ [CoreKV.frag_sql frag]) (args ++ CoreKV.frag_args frag)).
      destruct (CoreKV.build_each CoreKV.buildWhereSql rest _ _) as [[parts' args'] | e].
      * destruct IH as (Hall & ts & Hts & Hparts & Hfrags). split; [ exact Hall | ].
        exists (CoreKV.frag_sql frag :: ts). rewrite Hts. repeat split.
        -- now rewrite Hparts, <- app_assoc.
        -- now constructor.
      * destruct IH as (Hall & He & Hts). rewrite Hts. now repeat split.
    + destruct Hf as (Hc & He & Hshape). rewrite Hc, Hshape. now repeat split.
Qed.

Lemma buildWhereSql_expected (f : Filter finite) : compiled_as_expected f.
Proof.
  induction f as [c | op conditions IH] using Filter_induction; unfold compiled_as_expected.
  - simpl. repeat split. constructor. apply checked_operator_safe.
  - destruct op.
    + simpl. pose proof (build_each_expected conditions IH [] []) as H.
      destruct (CoreKV.build_each CoreKV.buildWhereSql conditions [] []) as [[parts args] | e];
        simpl.
      * destruct H as (Hall & ts & Hts & Hparts & Hfrags). simpl in Hparts. subst parts.
        rewrite Hts. repeat split; [ exact Hall | ].
        now apply (fragment_junction AND).
      * destruct H as (Hall & He & Hts). now rewrite Hts.
    + simpl. pose proof (build_each_expected conditions IH [] []) as H.
      destruct (CoreKV.build_each CoreKV.buildWhereSql conditions [] []) as [[parts args] | e];
        simpl.
      * destruct H as (Hall & ts & Hts & Hparts & Hfrags). simpl in Hparts. subst parts.
        rewrite Hts. repeat split; [ exact Hall | ].
        now apply (fragment_junction OR).
      * destruct H as (Hall & He & Hts). now rewrite Hts.
    + destruct conditions as [ | first rest ]; simpl; [ now repeat split | ].
      apply Forall_inv in IH. unfold compiled_as_expected in IH.
      destruct (CoreKV.buildWhereSql first) as [inner | e]; simpl.
      * destruct IH as (Hc & Hfrag & Hshape). rewrite Hshape. repeat split; [ exact Hc | ].
        now constructor.
      * destruct IH as (Hc & He & Hshape). now rewrite Hshape.
Qed.

End CompilerProperties.


(** ** The statements of the store *)

Section StatementText.
Context `{Ext : Externals}.

(** The text of the statement of [list] is a function of the shape of the
    options. *)
Lemma list_statement_text (options : ListOptions finite) (now : Z) :
  text_of (CoreKV.list_statement options now) = list_text (shape_of options).
Proof.
  destruct options as [p l c w r].
  unfold CoreKV.list_statement, shape_of, list_text, where_text. simpl.
  destruct w as [[cond | callback] | ].
  - destruct p as [p | ]; [ destruct (String.eqb p "") | ];
      (destruct l as [n | ]; [ destruct (Z.eqb n 0) | ]);
      destruct r as [[ | ] | ]; simpl;
      rewrite ?append_assoc; reflexivity.
  - pose proof (buildWhereSql_expected (callback the_combinators)) as H.
    unfold compiled_as_expected in H. unfold the_combinators in *.
    destruct p as [p | ]; [ destruct (String.eqb p "") | ];
      (destruct l as [n | ]; [ destruct (Z.eqb n 0) | ]);
      destruct r as [[ | ] | ]; simpl;
      (destruct (CoreKV.buildWhereSql _) as [frag | e]; simpl;
       [ destruct H as (_ & _ & ->) | destruct H as (_ & _ & ->) ]; simpl;
       rewrite ?append_assoc; reflexivity).
  - destruct p as [p | ]; [ destruct (String.eqb p "") | ];
      (destruct l as [n | ]; [ destruct (Z.eqb n 0) | ]);
      destruct r as [[ | ] | ]; simpl;
      rewrite ?append_assoc; reflexivity.
Qed.

End StatementText.


Section OperatorAllowList.
Context `{Ext : Externals}.

Lemma shape_operators_safe (f : Filter finite) :
  Forall (fun op => op ∈ safeOps) (shape_operators (filter_shape f)).
Proof.
  induction f as [c | op conditions IH] using Filter_induction; simpl.
  - constructor; [ | constructor ]. apply list_elem_of_In, checked_operator_safe.
  - induction IH as [ | f rest Hf _ IHrest ]; simpl; [ constructor | ].
    apply Forall_app. split; assumption.
Qed.

Lemma allow_listed_safeOps (op : string) : allow_listed op <-> In op safeOps.
Proof. unfold allow_listed, safeOps. simpl. intuition congruence. Qed.

Lemma checked_operator_named (op : string) :
  (allow_listed op -> CoreKV.checked_operator op = op) /\
  (~ allow_listed op -> CoreKV.checked_operator op = "=").
Proof.
  split; intros H.
  - now apply checked_operator_keeps, allow_listed_safeOps.
  - apply checked_operator_replaces. intros Hin. now apply H, allow_listed_safeOps.
Qed.

Lemma fragment_text_named : forall t, fragment_text t -> named_fragment t.
Proof.
  fix IH 2. intros t [op Hop | inner Hinner | op parts Hparts].
  - constructor. now apply allow_listed_safeOps.
  - constructor. now apply IH.
  - constructor. revert parts Hparts. fix IHs 2.
    intros parts [ | x l Hx Hl ]; constructor; [ now apply IH | now apply IHs ].
Qed.

(** In the older revision of [list] the allow-list has four operators, and
    [!=] is compiled as [=]. *)
Example older_revision_replaces_neq :
  checked_operator_older "!=" = "=" /\ CoreKV.checked_operator "!=" = "!=".
Proof. split; reflexivity. Qed.

(** C5.  A condition whose operator is one of [=], [>], [<], [LIKE], [!=]
    is compiled with that operator, and a condition with any other operator
    is compiled with [=]; so is the object form of [where] in [list].
    Compiling a filter throws on a [NOT] without a condition and on nothing
    else, whatever the operators are; when it succeeds, its text follows
    the grammar [named_fragment], whose operator position holds one of the
    five named operators and nothing else.  The statement of [list] is the
    text of the shape of its options, and every operator of that shape is
    one of the five, for the object form of [where] and for the callback
    form. *)
Theorem operator_allow_list :
  (forall c : WhereCondition finite,
      let compiled_with op :=
        CoreKV.buildWhereSql (Condition c) =
          Ok {| CoreKV.frag_sql := "json_extract(value_text, ?) " +:+ op +:+ " ?";
                CoreKV.frag_args := [IText ("$." +:+ field c);
                                     CoreKV.InValue_of_filter (value c)] |} in
      (allow_listed (operator c) -> compiled_with (operator c)) /\
      (~ allow_listed (operator c) -> compiled_with "=")) /\
  (forall f : Filter finite,
      match CoreKV.buildWhereSql f with
      | Ok frag => compiles f = true /\ named_fragment (CoreKV.frag_sql frag)
      | Throw e => compiles f = false /\ e = Error "NOT operator requires a condition"
      end) /\
  (forall (options : ListOptions finite) (now : Z),
      text_of (CoreKV.list_statement options now) = list_text (shape_of options) /\
      match where_shape (shape_of options) with
      | ShapeNone => True
      | ShapeObject op => allow_listed op
      | ShapeCallback tree => Forall allow_listed (shape_operators tree)
      end /\
      (forall c, ListOptions.where_ options = Some (WhereObject c) ->
         (allow_listed (operator c) ->
          where_shape (shape_of options) = ShapeObject (operator c)) /\
         (~ allow_listed (operator c) ->
          where_shape (shape_of options) = ShapeObject "="))).
Proof.
  split; [ | split ].
  - intros c compiled_with. subst compiled_with.
    destruct (checked_operator_named (operator c)) as (Hkeep & Hreplace).
    split; intros H; simpl; [ now rewrite (Hkeep H) | now rewrite (Hreplace H) ].
  - intros f. pose proof (buildWhereSql_expected f) as H. unfold compiled_as_expected in H.
    destruct (CoreKV.buildWhereSql f) as [frag | e]; [ | tauto ].
    destruct H as (Hc & Ht & _). split; [ exact Hc | now apply fragment_text_named ].
  - intros options now. split; [ apply list_statement_text | ]. split.
    + destruct options as [p l c [[cond | callback] | ] r]; simpl.
      * apply allow_listed_safeOps, checked_operator_safe.
      * eapply Forall_impl; [ apply shape_operators_safe | ].
        intros op Hop. now apply allow_listed_safeOps, list_elem_of_In.
      * exact I.
    + intros c Hc. unfold shape_of. cbn [where_shape]. rewrite Hc.
      destruct (checked_operator_named (operator c)) as (Hkeep & Hreplace).
      split; intros H; [ now rewrite (Hkeep H) | now rewrite (Hreplace H) ].
Qed.

End OperatorAllowList.

Section HandedTexts.
Context `{Ext : Externals} {Conn : Type}.
Variable run : Statement finite -> Conn -> result ResultSet * Conn.

Lemma entry_of_session (row : Row) (s : CoreKV.Session (Conn:=Conn)) :
  snd (CoreKV.entry_of row s) = s.
Proof.
  unfold CoreKV.entry_of, CoreKV.bind, CoreKV.lift, CoreKV.ret.
  now destruct (decodeValue row).
Qed.

Lemma map_keys_session (map : gmap string Row) (keys : list string)
    (s : CoreKV.Session (Conn:=Conn)) :
  snd (CoreKV.map_keys map keys s) = s.
Proof.
  induction keys as [ | k keys IH ]; simpl; [ reflexivity | ].
  unfold CoreKV.bind at 1.
  destruct (map !! k) as [row | ].
  - unfold CoreKV.bind at 1. pose proof (entry_of_session row s) as He.
    destruct (CoreKV.entry_of row s) as [[e | err] s0]; simpl in He; subst s0; simpl;
      [ | reflexivity ].
    unfold CoreKV.bind. destruct (CoreKV.map_keys map keys s) as [[slots | err] s1];
      simpl in *; now subst.
  - unfold CoreKV.ret at 1. unfold CoreKV.bind.
    destruct (CoreKV.map_keys map keys s) as [[slots | err] s1]; simpl in *; now subst.
Qed.

Lemma map_rows_session (rs : list Row) (s : CoreKV.Session (Conn:=Conn)) :
  snd (CoreKV.map_rows rs s) = s.
Proof.
  induction rs as [ | row rs IH ]; simpl; [ reflexivity | ].
  unfold CoreKV.bind at 1. pose proof (entry_of_session row s) as He.
  destruct (CoreKV.entry_of row s) as [[e | err] s0]; simpl in He; subst s0; simpl;
    [ | reflexivity ].
  unfold CoreKV.bind. destruct (CoreKV.map_rows rs s) as [[es | err] s1];
    simpl in *; now subst.
Qed.

(** What [del] leaves in the record, awaited or not. *)
Lemma del_issued (k : string) (s : CoreKV.Session) :
  CoreKV.issued (snd (CoreKV.del run k s)) =
    CoreKV.issued s ++ [{| sql := "DELETE FROM kv_store WHERE key = ?"; args := [IText k] |}].
Proof.
  unfold CoreKV.del, CoreKV.bind, CoreKV.execute. simpl.
  now destruct (run _ (CoreKV.conn s)) as [[rs | e] c].
Qed.

(** The clean-up of [getMany], awaited or not: each call of [clean] hands
    over one delete, and the loop may stop at one that fails. *)
Lemma collect_live_issued (clean : string -> CoreKV.M (Conn:=Conn) unit) (rs : list Row) (now : Z) :
  (forall k s, CoreKV.issued (snd (clean k s)) =
                 CoreKV.issued s ++
                 [{| sql := "DELETE FROM kv_store WHERE key = ?"; args := [IText k] |}]) ->
  forall (map : gmap string Row) (s : CoreKV.Session),
  exists extra,
    CoreKV.issued (snd (CoreKV.collect_live clean rs now map s)) = CoreKV.issued s ++ extra /\
    exists d, List.map sql extra = replicate d "DELETE FROM kv_store WHERE key = ?".
Proof.
  intros Hclean. induction rs as [ | row rs IH ]; intros map s; simpl.
  - exists []. rewrite app_nil_r. split; [ reflexivity | now exists 0%nat ].
  - destruct (CoreKV.expired row now); [ | apply IH ].
    unfold CoreKV.bind at 1. pose proof (Hclean (key row) s) as Hs0.
    destruct (clean (key row) s) as [[u | e] s0]; simpl in Hs0.
    + destruct (IH map s0) as (extra & Hextra & d & Hd).
      exists ({| sql := "DELETE FROM kv_store WHERE key = ?"; args := [IText (key row)] |}
                :: extra).
      split.
      * rewrite Hextra, Hs0, <- app_assoc. reflexivity.
      * exists (S d). simpl. now rewrite Hd.
    + exists [{| sql := "DELETE FROM kv_store WHERE key = ?"; args := [IText (key row)] |}].
      split; [ exact Hs0 | now exists 1%nat ].
Qed.

Lemma placeholders_replicate (keys : list string) :
  List.map (fun _ : string => "?") keys = replicate (length keys) "?".
Proof. induction keys as [ | k keys IH ]; simpl; [ reflexivity | now rewrite IH ]. Qed.

(** What [getMany] hands over, for either way of cleaning up. *)
Lemma getMany_handed_with (clean : string -> CoreKV.M (Conn:=Conn) unit) (keys : list string) (now : Z)
    (s : CoreKV.Session) :
  (forall k s, CoreKV.issued (snd (clean k s)) =
                 CoreKV.issued s ++
                 [{| sql := "DELETE FROM kv_store WHERE key = ?"; args := [IText k] |}]) ->
  exists d,
    handed (CoreKV.bind
              (CoreKV.execute run
                 ("SELECT * FROM " +:+ CoreKV.tableName +:+ " WHERE key IN (" +:+
                    join "," (List.map (fun _ => "?") keys) +:+ ")")
                 (List.map IText keys))
              (fun rs => CoreKV.bind (CoreKV.collect_live clean (rows rs) now ∅)
                           (fun map => CoreKV.map_keys map keys))) s =
      ("SELECT * FROM kv_store WHERE key IN (" +:+
         join "," (replicate (length keys) "?") +:+ ")")
        :: replicate d "DELETE FROM kv_store WHERE key = ?".
Proof.
  intros Hclean. unfold handed. rewrite placeholders_replicate.
  unfold CoreKV.bind at 1. unfold CoreKV.execute at 1. simpl.
  destruct (run _ (CoreKV.conn s)) as [[rs | e] c]; simpl.
  - unfold CoreKV.bind at 1.
    match goal with
    | |- context [CoreKV.collect_live clean ?rs ?now ?m ?s0] =>
        destruct (collect_live_issued clean rs now Hclean m s0) as (extra & Hextra & d & Hd);
        destruct (CoreKV.collect_live clean rs now m s0) as [[m' | e] s']
    end; simpl in Hextra; exists d.
    + rewrite map_keys_session, Hextra.
      rewrite <- app_assoc. rewrite drop_app_length. simpl. now rewrite Hd.
    + simpl. rewrite Hextra.
      rewrite <- app_assoc. rewrite drop_app_length. simpl. now rewrite Hd.
  - exists 0%nat. now rewrite drop_app_length.
Qed.

Lemma ignored_del_issued (k : string) (s : CoreKV.Session) :
  CoreKV.issued (snd (CoreKV.catch_ignore (CoreKV.del run k) s)) =
    CoreKV.issued s ++ [{| sql := "DELETE FROM kv_store WHERE key = ?"; args := [IText k] |}].
Proof. unfold CoreKV.catch_ignore. simpl. apply del_issued. Qed.

(** C10.  The text of every statement the store hands to its executor is
    fixed by the operation and, where it varies at all, by counts and
    shapes: the number of keys of [getMany], and for [list] which options
    are in effect, the direction, and the filter tree with its (checked)
    operators.  Keys, prefixes, values, field names, comparison values,
    instants and limits are in the argument list only; two calls that
    differ in nothing else hand over the same text.  The reads may add
    clean-up deletes, each with the one fixed text of [del].  The same
    holds of the two reads of a transaction. *)
Theorem sql_text_carries_no_data (s : CoreKV.Session) :
  (forall key now, exists d,
      handed (CoreKV.get run key now) s =
        "SELECT * FROM kv_store WHERE key = ?" :: replicate d "DELETE FROM kv_store WHERE key = ?") /\
  (forall keys now, exists d,
      handed (CoreKV.getMany run keys now) s =
        match keys with
        | [] => []
        | _ => ("SELECT * FROM kv_store WHERE key IN (" +:+
                  join "," (replicate (length keys) "?") +:+ ")")
                 :: replicate d "DELETE FROM kv_store WHERE key = ?"
        end) /\
  (forall key value options fresh now,
      handed (CoreKV.set run key value options fresh now) s = [CoreKV.set_sql]) /\
  (forall key, handed (CoreKV.del run key) s = ["DELETE FROM kv_store WHERE key = ?"]) /\
  (forall now,
      handed (CoreKV.cleanupExpired run now) s =
        ["DELETE FROM kv_store WHERE expires_at IS NOT NULL AND expires_at < ?"]) /\
  (forall options now,
      handed (CoreKV.list run options now) s =
        match list_text (shape_of options) with
        | Some text => [text]
        | None => []
        end) /\
  (forall key now, exists d,
      handed (KVTransaction.get run key now) s =
        "SELECT * FROM kv_store WHERE key = ?" :: replicate d "DELETE FROM kv_store WHERE key = ?") /\
  (forall keys now, exists d,
      handed (KVTransaction.getMany run keys now) s =
        match keys with
        | [] => []
        | _ => ("SELECT * FROM kv_store WHERE key IN (" +:+
                  join "," (replicate (length keys) "?") +:+ ")")
                 :: replicate d "DELETE FROM kv_store WHERE key = ?"
        end).
Proof.
  repeat split.
  - intros key now. unfold handed, CoreKV.get, CoreKV.bind, CoreKV.execute. simpl.
    destruct (run _ (CoreKV.conn s)) as [[rs | e] c]; simpl.
    + destruct (rows rs) as [ | row rest ]; simpl.
      * exists 0%nat. now rewrite drop_app_length.
      * destruct (CoreKV.expired row now); simpl.
        -- exists 1%nat. unfold CoreKV.catch_ignore. simpl.
           rewrite del_issued. simpl. rewrite <- app_assoc.
           now rewrite drop_app_length.
        -- exists 0%nat. unfold CoreKV.entry_of, CoreKV.bind, CoreKV.lift, CoreKV.ret.
           destruct (decodeValue row); simpl; now rewrite drop_app_length.
    + exists 0%nat. now rewrite drop_app_length.
  - intros keys now. destruct keys as [ | k keys ].
    + exists 0%nat. unfold handed. simpl. now rewrite drop_all.
    + apply (getMany_handed_with (fun k => CoreKV.catch_ignore (CoreKV.del run k))).
      apply ignored_del_issued.
  - intros key value options fresh now.
    unfold handed, CoreKV.set, CoreKV.bind, CoreKV.execute. simpl.
    destruct (run _ (CoreKV.conn s)) as [[rs | e] c]; simpl; now rewrite drop_app_length.
  - intros key. unfold handed. rewrite del_issued. now rewrite drop_app_length.
  - intros now. unfold handed, CoreKV.cleanupExpired, CoreKV.bind, CoreKV.execute. simpl.
    destruct (run _ (CoreKV.conn s)) as [[rs | e] c]; simpl; now rewrite drop_app_length.
  - intros options now. rewrite <- (list_statement_text options now).
    unfold handed, CoreKV.list, CoreKV.bind, CoreKV.lift.
    destruct (CoreKV.list_statement options now) as [[text args] | e]; simpl.
    + unfold CoreKV.execute. simpl.
      destruct (run _ (CoreKV.conn s)) as [[rs | e] c]; simpl.
      * rewrite map_rows_session. simpl. now rewrite drop_app_length.
      * now rewrite drop_app_length.
    + now rewrite drop_all.
  - intros key now. unfold handed, KVTransaction.get, CoreKV.bind at 1, CoreKV.execute. simpl.
    destruct (run _ (CoreKV.conn s)) as [[rs | e] c]; simpl.
    + destruct (rows rs) as [ | row rest ]; simpl.
      * exists 0%nat. now rewrite drop_app_length.
      * destruct (CoreKV.expired row now); simpl.
        -- exists 1%nat. unfold CoreKV.bind at 1.
           match goal with
           | |- context [CoreKV.del run key ?s0] =>
               pose proof (del_issued key s0) as Hdel;
               destruct (CoreKV.del run key s0) as [[u | e] s1]
           end; simpl in *; rewrite Hdel, <- app_assoc; now rewrite drop_app_length.
        -- exists 0%nat.
           unfold CoreKV.bind, CoreKV.entry_of, CoreKV.bind, CoreKV.lift, CoreKV.ret.
           destruct (decodeValue row); simpl; now rewrite drop_app_length.
    + exists 0%nat. now rewrite drop_app_length.
  - intros keys now. destruct keys as [ | k keys ].
    + exists 0%nat. unfold handed. simpl. now rewrite drop_all.
    + apply (getMany_handed_with (CoreKV.del run)). apply del_issued.
Qed.

End HandedTexts.


(** ** [getMany] *)

Section GetMany.
Context `{Ext : Externals} {Conn : Type}.
Variable run : Statement finite -> Conn -> result ResultSet * Conn.

Lemma collect_live_result (rs : list Row) (now : Z) :
  forall (map : gmap string Row) (s : CoreKV.Session),
    fst (CoreKV.collect_live (fun k => CoreKV.catch_ignore (CoreKV.del run k)) rs now map s)
      = Ok (live_rows rs now map).
Proof.
  induction rs as [ | row rs IH ]; intros map s; simpl; [ reflexivity | ].
  destruct (CoreKV.expired row now); [ | apply IH ].
  unfold CoreKV.bind at 1. unfold CoreKV.catch_ignore at 1. apply IH.
Qed.








End GetMany.


(** ** The store on the engine *)

(** Replace the preparation of a closed text by its outcome. *)
Ltac prepare_text :=
  match goal with
  | |- context [SQLite.prepare ?text] =>
      let plan := eval vm_compute in (SQLite.prepare text) in
      change (SQLite.prepare text) with plan
  end.

Section OnSQLite.
Context `{Ext : Externals}.

Lemma has_key_true (k : string) (row : Row) : SQLite.has_key k row = true <-> key row = k.
Proof. unfold SQLite.has_key. apply String.eqb_eq. Qed.

Lemma has_key_false (k : string) (row : Row) : SQLite.has_key k row = false <-> key row <> k.
Proof. unfold SQLite.has_key. apply String.eqb_neq. Qed.

Lemma filter_no_key (k : string) (t : SQLite.Table) :
  existsb (SQLite.has_key k) t = false -> List.filter (SQLite.has_key k) t = [].
Proof.
  induction t as [ | r t IH ]; simpl; [ reflexivity | ].
  intros H. apply orb_false_iff in H. destruct H as (Hr & Ht). rewrite Hr. now apply IH.
Qed.

(** After an upsert the rows under the key are copies of the new row, the
    first of them included. *)
Lemma filter_upsert (row : Row) (t : SQLite.Table) :
  exists more,
    List.filter (SQLite.has_key (key row)) (SQLite.upsert row t) = row :: more /\
    Forall (eq row) more.
Proof.
  pose proof (proj2 (has_key_true (key row) row) eq_refl) as Hrow.
  unfold SQLite.upsert.
  destruct (existsb (SQLite.has_key (key row)) t) eqn:Hex.
  - induction t as [ | r t IH ]; simpl in *; [ discriminate | ].
    destruct (SQLite.has_key (key row) r) eqn:Hr; simpl.
    + rewrite Hrow.
      destruct (existsb (SQLite.has_key (key row)) t) eqn:Ht.
      * destruct (IH eq_refl) as (more & Hmore & Hall).
        exists (row :: more). rewrite Hmore. split; [ reflexivity | now constructor ].
      * exists []. split; [ | constructor ]. f_equal.
        clear IH Hex Hr. induction t as [ | r' t IH ]; simpl in *; [ reflexivity | ].
        apply orb_false_iff in Ht. destruct Ht as (Hr' & Ht).
        rewrite Hr'. simpl. rewrite Hr'. now apply IH.
    + rewrite Hr. now apply IH.
  - exists []. split; [ | constructor ].
    rewrite List.filter_app, (filter_no_key _ _ Hex). simpl. now rewrite Hrow.
Qed.

Lemma upsert_under_key (row r : Row) (t : SQLite.Table) :
  r ∈ SQLite.upsert row t -> key r = key row -> r = row.
Proof.
  unfold SQLite.upsert. intros Hin Hkey.
  destruct (existsb (SQLite.has_key (key row)) t) eqn:Hex.
  - apply list_elem_of_In, in_map_iff in Hin. destruct Hin as (x & Hx & _).
    destruct (SQLite.has_key (key row) x) eqn:Hk; [ congruence | ].
    subst r. apply has_key_false in Hk. contradiction.
  - apply elem_of_app in Hin. destruct Hin as [Hin | Hin].
    + assert (existsb (SQLite.has_key (key row)) t = true); [ | congruence ].
      apply existsb_exists. exists r. split; [ now apply list_elem_of_In | ].
      now apply has_key_true.
    + now apply list_elem_of_singleton in Hin.
Qed.

Lemma upsert_holds_row (row : Row) (t : SQLite.Table) : row ∈ SQLite.upsert row t.
Proof.
  destruct (filter_upsert row t) as (more & Hmore & _).
  assert (H : In row (List.filter (SQLite.has_key (key row)) (SQLite.upsert row t))).
  { rewrite Hmore. now left. }
  apply filter_In in H. now apply list_elem_of_In.
Qed.

Lemma stored_under_upsert (row : Row) (t : SQLite.Table) :
  stored_under (key row) (SQLite.upsert row t) (eq row).
Proof.
  split.
  - exists row. split; [ apply upsert_holds_row | reflexivity ].
  - intros r Hin Hkey. symmetry. now apply upsert_under_key with t.
Qed.

(** *** What the engine does with the statements of the store *)

Lemma run_upsert (k : string) (v : KVValue finite) (ver : string) (exp : option Z)
    (t : SQLite.Table) :
  SQLite.run {| sql := CoreKV.set_sql;
                args := [IText k; CoreKV.InValue_of_blob (blob (encodeValue v));
                         CoreKV.InValue_of_text (text (encodeValue v));
                         IText (type (encodeValue v)); IText ver;
                         CoreKV.InValue_of_instant exp] |} t
  = (Ok {| rows := [] |}, SQLite.upsert (row_of k (encodeValue v) ver exp) t).
Proof.
  unfold SQLite.run. simpl sql. prepare_text. simpl.
  destruct v as [[ | | | | | ] | ]; destruct exp; reflexivity.
Qed.

Lemma run_select (k : string) (t : SQLite.Table) :
  SQLite.run {| sql := "SELECT * FROM kv_store WHERE key = ?"; args := [IText k] |} t
  = (Ok {| rows := List.filter (SQLite.has_key k) t |}, t).
Proof. reflexivity. Qed.

Lemma run_delete (k : string) (t : SQLite.Table) :
  SQLite.run {| sql := "DELETE FROM kv_store WHERE key = ?"; args := [IText k] |} t
  = (Ok {| rows := [] |}, List.filter (fun r => negb (SQLite.has_key k r)) t).
Proof. reflexivity. Qed.

Lemma run_list_all (now : Z) (t : SQLite.Table) :
  SQLite.run {| sql := "SELECT * FROM kv_store WHERE 1=1 AND (expires_at IS NULL OR expires_at > ?) ORDER BY key ASC";
                args := [IInteger now] |} t
  = (Ok {| rows := SQLite.order_by_key false
                     (List.filter (fun r => SQLite.unexpired now r && true && true) t) |}, t).
Proof. reflexivity. Qed.

Lemma run_list_prefix (now : Z) (pattern : string) (t : SQLite.Table) :
  SQLite.run {| sql := "SELECT * FROM kv_store WHERE 1=1 AND (expires_at IS NULL OR expires_at > ?) AND key LIKE ? ORDER BY key ASC";
                args := [IInteger now; IText pattern] |} t
  = (Ok {| rows := SQLite.order_by_key false
                     (List.filter (fun r => SQLite.unexpired now r &&
                                            SQLite.like pattern (key r) && true) t) |}, t).
Proof. reflexivity. Qed.

(** [set] on the engine: the row is upserted, whatever the value. *)
Lemma set_on_engine (k : string) (v : KVValue finite) (options : option SetOptions)
    (fresh : string) (now : Z) (s : CoreKV.Session) :
  CoreKV.set SQLite.run k v options fresh now s =
    (Ok tt,
     {| CoreKV.conn :=
          SQLite.upsert (row_of k (encodeValue v) fresh (CoreKV.expiresAt_of options now))
                        (CoreKV.conn s);
        CoreKV.issued :=
          CoreKV.issued s ++
          [{| sql := CoreKV.set_sql;
              args := [IText k; CoreKV.InValue_of_blob (blob (encodeValue v));
                       CoreKV.InValue_of_text (text (encodeValue v));
                       IText (type (encodeValue v)); IText fresh;
                       CoreKV.InValue_of_instant (CoreKV.expiresAt_of options now)] |}] |}).
Proof.
  unfold CoreKV.set, CoreKV.bind, CoreKV.execute. simpl. now rewrite run_upsert.
Qed.

(** [get] on the engine right after an upsert under the key. *)
Lemma get_after_upsert (row : Row) (now : Z) (t : SQLite.Table)
    (log : list (Statement finite)) :
  fst (CoreKV.get SQLite.run (key row) now
         {| CoreKV.conn := SQLite.upsert row t; CoreKV.issued := log |}) =
    if CoreKV.expired row now then Ok None
    else match decodeValue row with
         | Ok v => Ok (Some (entry row v))
         | Throw e => Throw e
         end.
Proof.
  unfold CoreKV.get, CoreKV.bind, CoreKV.execute. simpl.
  destruct (filter_upsert row t) as (more & -> & _).
  destruct (CoreKV.expired row now); simpl; [ reflexivity | ].
  unfold CoreKV.entry_of, CoreKV.bind, CoreKV.lift, CoreKV.ret.
  now destruct (decodeValue row).
Qed.

End OnSQLite.


Section StoreOnSQLite.
Context `{Ext : Externals}.

Lemma stored_under_weaken (k : string) (t : SQLite.Table) (P Q : Row -> Prop) :
  stored_under k t P -> (forall row, P row -> Q row) -> stored_under k t Q.
Proof.
  intros (Hex & Hall) HPQ. split; [ exact Hex | ].
  intros row Hin Hk. now apply HPQ, Hall.
Qed.

Lemma stored_after_set (k : string) (v : KVValue finite) (options : option SetOptions)
    (fresh : string) (now : Z) (s : CoreKV.Session) :
  stored_under k (CoreKV.conn (snd (CoreKV.set SQLite.run k v options fresh now s)))
    (eq (row_of k (encodeValue v) fresh (CoreKV.expiresAt_of options now))).
Proof.
  rewrite set_on_engine. simpl.
  apply (stored_under_upsert (row_of k (encodeValue v) fresh (CoreKV.expiresAt_of options now))).
Qed.

(** C8, as the code has it.  After [set] with an [expireIn] other than
    [0], the row stored under the key expires at the instant of the call
    plus [expireIn]; with [expireIn] missing, or [0], it has no expiry. *)
Theorem set_expiry (k : string) (v : KVValue finite) (fresh : string) (now d : Z)
    (s : CoreKV.Session) :
  d <> 0 ->
  let after options := CoreKV.conn (snd (CoreKV.set SQLite.run k v options fresh now s)) in
  stored_under k (after (Some {| expireIn := Some d |}))
               (fun row => expires_at row = Some (now + d)) /\
  stored_under k (after (Some {| expireIn := None |})) (fun row => expires_at row = None) /\
  stored_under k (after None) (fun row => expires_at row = None) /\
  stored_under k (after (Some {| expireIn := Some 0 |})) (fun row => expires_at row = None).
Proof.
  intros Hd after. subst after. simpl.
  repeat split_and; (eapply stored_under_weaken; [ apply stored_after_set | ]);
    intros row <-; simpl; try reflexivity.
  apply Z.eqb_neq in Hd. now rewrite Hd.
Qed.

(** C6, as the code has it.  A non-finite number is encoded like any
    other: as a row of type [number] whose text is what [String] gives,
    [NaN], [Infinity] or [-Infinity].  Nothing fails, and [set] stores the
    row. *)
Theorem encode_non_finite :
  encodeValue (Json (JNumber NaN)) =
    {| blob := None; text := Some "NaN"; type := "number" |} /\
  encodeValue (Json (JNumber Infinity)) =
    {| blob := None; text := Some "Infinity"; type := "number" |} /\
  encodeValue (Json (JNumber NegInfinity)) =
    {| blob := None; text := Some "-Infinity"; type := "number" |} /\
  (forall (n : number finite) k options fresh now (s : CoreKV.Session),
      fst (CoreKV.set SQLite.run k (Json (JNumber n)) options fresh now s) = Ok tt /\
      stored_under k (CoreKV.conn (snd (CoreKV.set SQLite.run k (Json (JNumber n))
                                                   options fresh now s)))
        (fun row => value_type row = Val "number" /\
                    value_text row = Val (String_number n))).
Proof.
  split; [ reflexivity | ]. split; [ reflexivity | ]. split; [ reflexivity | ].
  intros n k options fresh now s. split.
  - now rewrite set_on_engine.
  - eapply stored_under_weaken; [ apply stored_after_set | ].
    intros row <-. split; reflexivity.
Qed.

(** C4.  After [set(k, v1)] and then [set(k, v2)], every row under [k] is
    the row of the second write in full: blob, text and type of [v2], the
    version generated for the second write, the expiry of the second write;
    of the row of the first write nothing is kept.  [get(k)], while that
    row has not expired, returns [v2] under the version generated for the
    second write.  [set] stores what [generateVersion] returns and compares
    it with nothing: the version returned is the one the first write stored
    exactly when the generator returned the same string twice. *)
Theorem upsert_replaces (k : string) (v1 v2 : KVValue finite) (o1 o2 : option SetOptions)
    (fresh1 fresh2 : string) (now1 now2 now : Z) (s : CoreKV.Session) :
  text_faithful v2 ->
  let s1 := snd (CoreKV.set SQLite.run k v1 o1 fresh1 now1 s) in
  let s2 := snd (CoreKV.set SQLite.run k v2 o2 fresh2 now2 s1) in
  let row1 := row_of k (encodeValue v1) fresh1 (CoreKV.expiresAt_of o1 now1) in
  let row2 := row_of k (encodeValue v2) fresh2 (CoreKV.expiresAt_of o2 now2) in
  CoreKV.expired row2 now = false ->
  stored_under k (CoreKV.conn s1) (eq row1) /\
  stored_under k (CoreKV.conn s2) (eq row2) /\
  (exists w,
    fst (CoreKV.get SQLite.run k now s2) =
      Ok (Some {| KVEntry.key := k; KVEntry.value := Defined w; KVEntry.version := fresh2 |}) /\
    same_value v2 w) /\
  (forall stored entry,
     stored ∈ CoreKV.conn s1 -> key stored = k ->
     fst (CoreKV.get SQLite.run k now s2) = Ok (Some entry) ->
     (KVEntry.version entry = version stored <-> fresh2 = fresh1)).
Proof.
  intros Hv2 s1 s2 row1 row2 Hlive.
  assert (Hget : fst (CoreKV.get SQLite.run k now s2) =
                 Ok (Some {| KVEntry.key := k; KVEntry.value := Defined (decoded_form v2);
                             KVEntry.version := fresh2 |})).
  { pose proof (decode_row_of v2 k fresh2 (CoreKV.expiresAt_of o2 now2) Hv2) as Hw.
    subst s2. rewrite set_on_engine. cbn [snd]. fold row2. fold row2 in Hw.
    pose proof (get_after_upsert row2 now (CoreKV.conn s1)) as Hg. simpl in Hg.
    rewrite Hg, Hlive, Hw. reflexivity. }
  assert (Hfirst : stored_under k (CoreKV.conn s1) (eq row1)) by apply stored_after_set.
  split; [ exact Hfirst | ]. split; [ apply stored_after_set | ]. split.
  - exists (decoded_form v2). split; [ exact Hget | ].
    destruct v2 as [j | arr]; simpl; [ reflexivity | ].
    now rewrite elements_of_whole, toArrayBuffer_elements.
  - intros stored e Hin Hk He. rewrite Hget in He. injection He as <-.
    destruct Hfirst as (_ & Hall). rewrite <- (Hall stored Hin Hk). reflexivity.
Qed.

End StoreOnSQLite.


(** ** Expiry and prefixes on the engine *)

Section ReadsOnSQLite.
Context `{Ext : Externals}.

Lemma insert_by_key_elem (x r : Row) (l : list Row) :
  x ∈ SQLite.insert_by_key r l <-> x = r \/ x ∈ l.
Proof.
  induction l as [ | y l IH ]; simpl.
  - rewrite list_elem_of_singleton. split; [ now left | ].
    intros [H | H]; [ exact H | inversion H ].
  - destruct (String.leb (key r) (key y)).
    + now rewrite elem_of_cons.
    + rewrite !elem_of_cons, IH. tauto.
Qed.

Lemma order_by_key_elem (x : Row) (descending : bool) (l : list Row) :
  x ∈ SQLite.order_by_key descending l <-> x ∈ l.
Proof.
  assert (H : x ∈ foldr SQLite.insert_by_key [] l <-> x ∈ l).
  { induction l as [ | y l IH ]; simpl; [ reflexivity | ].
    rewrite insert_by_key_elem, elem_of_cons, IH. reflexivity. }
  unfold SQLite.order_by_key. destruct descending; [ | exact H ].
  rewrite <- H. rewrite !list_elem_of_In. symmetry. apply in_rev.
Qed.

Lemma map_rows_keys {Conn : Type} (rs : list Row) (s : CoreKV.Session (Conn:=Conn))
    (entries : list (KVEntry finite)) :
  fst (CoreKV.map_rows rs s) = Ok entries ->
  List.map KVEntry.key entries = List.map key rs.
Proof.
  revert entries. induction rs as [ | row rs IH ]; intros entries; simpl.
  - intros H. now injection H as <-.
  - unfold CoreKV.bind at 1. unfold CoreKV.entry_of, CoreKV.bind, CoreKV.lift, CoreKV.ret.
    destruct (decodeValue row) as [v | e]; simpl; [ | discriminate ].
    destruct (CoreKV.map_rows rs s) as [[es | e] s'] eqn:Hm; simpl; [ | discriminate ].
    intros H. injection H as <-. simpl. f_equal. now apply IH.
Qed.

Lemma list_all_on_engine (now : Z) (s : CoreKV.Session) :
  CoreKV.list SQLite.run ListOptions.default now s =
    CoreKV.map_rows
      (SQLite.order_by_key false
         (List.filter (fun r => SQLite.unexpired now r && true && true) (CoreKV.conn s)))
      {| CoreKV.conn := CoreKV.conn s;
         CoreKV.issued :=
           CoreKV.issued s ++
           [{| sql := "SELECT * FROM kv_store WHERE 1=1 AND (expires_at IS NULL OR expires_at > ?) ORDER BY key ASC";
               args := [IInteger now] |}] |}.
Proof. reflexivity. Qed.

(** The expiry boundary as the code has it.  A key set with a non-zero [expireIn = d] at
    [setTime] (the deadline [setTime + d] not being the instant [0]) is
    returned by [get] at every instant up to and including the deadline,
    and is absent after it; [list] includes it before the deadline and
    leaves it out from the deadline on.  At the deadline itself the two
    reads disagree: [get] compares with [<] where the statement of [list]
    compares with [>]. *)
Lemma expiry_boundary (k : string) (v : KVValue finite) (d : Z) (fresh : string)
    (setTime now : Z) (s : CoreKV.Session) :
  d <> 0 -> setTime + d <> 0 ->
  let s1 := snd (CoreKV.set SQLite.run k v (Some {| expireIn := Some d |}) fresh setTime s) in
  let row := row_of k (encodeValue v) fresh (Some (setTime + d)) in
  fst (CoreKV.get SQLite.run k now s1) =
    (if Z.leb now (setTime + d)
     then match decodeValue row with
          | Ok x => Ok (Some (entry row x))
          | Throw e => Throw e
          end
     else Ok None) /\
  (exists rs,
      fst (SQLite.run {| sql := "SELECT * FROM kv_store WHERE 1=1 AND (expires_at IS NULL OR expires_at > ?) ORDER BY key ASC";
                         args := [IInteger now] |} (CoreKV.conn s1)) = Ok rs /\
      ((exists r, r ∈ rows rs /\ key r = k) <-> now < setTime + d)) /\
  (forall entries,
      fst (CoreKV.list SQLite.run ListOptions.default now s1) = Ok entries ->
      ((exists e, e ∈ entries /\ KVEntry.key e = k) <-> now < setTime + d)).
Proof.
  intros Hd He s1 row.
  assert (Hs1 : CoreKV.conn s1 = SQLite.upsert row (CoreKV.conn s)).
  { subst s1 row. rewrite set_on_engine. simpl. apply Z.eqb_neq in Hd. now rewrite Hd. }
  assert (Hrows : forall r, r ∈ SQLite.order_by_key false
                            (List.filter (fun r => SQLite.unexpired now r && true && true)
                                         (CoreKV.conn s1)) /\ key r = k
                            <-> r = row /\ now < setTime + d).
  { intros r. rewrite order_by_key_elem, list_elem_of_In, filter_In, <- list_elem_of_In, Hs1.
    split.
    - intros ((Hin & Hlive) & Hk).
      assert (r = row) as -> by now apply upsert_under_key with (CoreKV.conn s).
      split; [ reflexivity | ]. unfold SQLite.unexpired in Hlive. simpl in Hlive.
      rewrite !andb_true_r in Hlive. now apply Z.ltb_lt.
    - intros (-> & Hlt). repeat split.
      + apply upsert_holds_row.
      + unfold SQLite.unexpired. simpl. rewrite !andb_true_r. now apply Z.ltb_lt. }
  split; [ | split ].
  - destruct s1 as [c1 log1]. simpl in Hs1. subst c1.
    pose proof (get_after_upsert row now (CoreKV.conn s) log1) as Hget. simpl in Hget.
    rewrite Hget. unfold CoreKV.expired. simpl.
    apply Z.eqb_neq in He. rewrite He. simpl.
    destruct (Z.ltb_spec (setTime + d) now), (Z.leb_spec now (setTime + d)); try lia;
      reflexivity.
  - eexists. split; [ reflexivity | ]. simpl. split.
    + intros (r & Hr). now apply Hrows in Hr.
    + intros Hlt. exists row. apply Hrows. now split.
  - intros entries Hlist.
    rewrite list_all_on_engine in Hlist. apply map_rows_keys in Hlist.
    split.
    + intros (e & Hin & Hk).
      assert (Hkin : In k (List.map key (SQLite.order_by_key false
               (List.filter (fun r => SQLite.unexpired now r && true && true)
                            (CoreKV.conn s1))))).
      { rewrite <- Hlist. apply in_map_iff. exists e. split; [ exact Hk | ].
        now apply list_elem_of_In. }
      apply in_map_iff in Hkin. destruct Hkin as (r & Hk' & Hr).
      apply list_elem_of_In in Hr. now apply (Hrows r).
    + intros Hlt.
      assert (Hkin : In k (List.map KVEntry.key entries)).
      { rewrite Hlist. apply in_map_iff. exists row. split; [ reflexivity | ].
        apply list_elem_of_In. apply (Hrows row). now split. }
      apply in_map_iff in Hkin. destruct Hkin as (e & Hk & Hin).
      exists e. split; [ now apply list_elem_of_In | exact Hk ].
Qed.

(** C1, as the code has it.  A key set with a non-zero [expireIn = d] at
    [setTime] (the deadline [setTime + d] not being the instant [0]) is
    returned by [get] at every instant before the deadline and is absent at
    every instant after it; [list] at an instant [now] leaves the key out
    exactly when [now >= setTime + d].  What [get] does at the deadline
    itself is not part of the statement. *)
Theorem expiry_window (k : string) (v : KVValue finite) (d : Z) (fresh : string)
    (setTime now : Z) (s : CoreKV.Session) :
  d <> 0 -> setTime + d <> 0 -> text_faithful v ->
  let s1 := snd (CoreKV.set SQLite.run k v (Some {| expireIn := Some d |}) fresh setTime s) in
  let e := {| KVEntry.key := k; KVEntry.value := Defined (decoded_form v);
              KVEntry.version := fresh |} in
  (now < setTime + d -> fst (CoreKV.get SQLite.run k now s1) = Ok (Some e)) /\
  (setTime + d < now -> fst (CoreKV.get SQLite.run k now s1) = Ok None) /\
  (exists rs,
      fst (SQLite.run {| sql := "SELECT * FROM kv_store WHERE 1=1 AND (expires_at IS NULL OR expires_at > ?) ORDER BY key ASC";
                         args := [IInteger now] |} (CoreKV.conn s1)) = Ok rs /\
      (~ (exists r, r ∈ rows rs /\ key r = k) <-> setTime + d <= now)) /\
  (forall entries,
      fst (CoreKV.list SQLite.run ListOptions.default now s1) = Ok entries ->
      (~ (exists e, e ∈ entries /\ KVEntry.key e = k) <-> setTime + d <= now)).
Proof.
  intros Hd He Hv s1 e.
  destruct (expiry_boundary k v d fresh setTime now s Hd He) as (Hget & (rs & Hrs & Hin) & Hlist).
  fold s1 in Hget, Hrs, Hlist.
  rewrite (decode_row_of v k fresh (Some (setTime + d)) Hv) in Hget.
  split; [ | split; [ | split ] ].
  - intros Hlt. rewrite Hget.
    destruct (Z.leb_spec now (setTime + d)); [ reflexivity | lia ].
  - intros Hlt. rewrite Hget.
    destruct (Z.leb_spec now (setTime + d)); [ lia | reflexivity ].
  - exists rs. split; [ exact Hrs | ]. rewrite Hin. lia.
  - intros entries Hentries. rewrite (Hlist entries Hentries). lia.
Qed.

Lemma like_rest (s : string) : SQLite.like "%" s = true.
Proof.
  induction s as [ | c s IH ]; [ reflexivity | ].
  simpl in *. exact IH.
Qed.

(** A pattern that starts with [%] matches whatever its tail matches
    further along. *)
Lemma like_skip (pattern : string) (c : ascii) (s : string) :
  SQLite.like (String "%" pattern) s = true ->
  SQLite.like (String "%" pattern) (String c s) = true.
Proof.
  intros H. simpl in *. rewrite H. apply orb_true_r.
Qed.

Lemma like_here (pattern s : string) :
  SQLite.like pattern s = true -> SQLite.like (String "%" pattern) s = true.
Proof. intros H. destruct s; simpl; now rewrite H. Qed.

(** Every key that starts with [p] matches the pattern [p%]. *)
Lemma like_prefix (p k : string) :
  String.prefix p k = true -> SQLite.like (p +:+ "%") k = true.
Proof.
  revert k. induction p as [ | a p IH ]; intros k H.
  - apply like_rest.
  - destruct k as [ | b k ]; [ discriminate | ]. simpl in H.
    destruct (ascii_dec a b) as [<- | ]; [ | discriminate ].
    specialize (IH k H).
    change (String a p +:+ "%") with (String a (p +:+ "%")).
    destruct (Ascii.eqb a "%") eqn:Ha.
    + apply Ascii.eqb_eq in Ha. subst a. now apply like_skip, like_here.
    + simpl. rewrite Ha, IH, Ascii.eqb_refl. now rewrite orb_true_r.
Qed.

(** Prefixes as the code has them.  [list] with a non-empty prefix [p] returns
    the entries, in key order, of the rows that have not expired and whose
    key matches the [LIKE] pattern [p%].  Every key that starts with [p]
    matches it, but so do others: [%] and [_] in [p] are wildcards and
    ASCII letters match in either case.  The key [abc] matches the prefix
    [a_], of which it is no extension. *)
Lemma prefix_is_like_pattern (p : string) (now : Z) (s : CoreKV.Session) :
  p <> "" ->
  CoreKV.list SQLite.run (only_prefix p) now s =
    CoreKV.map_rows
      (SQLite.order_by_key false
         (List.filter (fun r => SQLite.unexpired now r && SQLite.like (p +:+ "%") (key r))
                      (CoreKV.conn s)))
      {| CoreKV.conn := CoreKV.conn s;
         CoreKV.issued :=
           CoreKV.issued s ++
           [{| sql := "SELECT * FROM kv_store WHERE 1=1 AND (expires_at IS NULL OR expires_at > ?) AND key LIKE ? ORDER BY key ASC";
               args := [IInteger now; IText (p +:+ "%")] |}] |} /\
  (forall k, String.prefix p k = true -> SQLite.like (p +:+ "%") k = true) /\
  SQLite.like ("a_" +:+ "%") "abc" = true /\ String.prefix "a_" "abc" = false.
Proof.
  intros Hp. split; [ | split; [ apply like_prefix | split; reflexivity ] ].
  unfold CoreKV.list, CoreKV.bind, CoreKV.lift, CoreKV.list_statement, only_prefix. simpl.
  destruct (String.eqb p "") eqn:Hempty; [ now apply String.eqb_eq in Hempty | ].
  unfold CoreKV.execute. simpl.
  f_equal. f_equal. apply filter_ext. intros r. now rewrite andb_true_r.
Qed.

End ReadsOnSQLite.



(** ** The engine reads the statements of [list] *)

Section EngineReads.

Lemma FilterShape_induction (P : FilterShape -> Prop) :
  (forall op, P (ShapeCondition op)) ->
  (forall op conditions, Forall P conditions -> P (ShapeLogic op conditions)) ->
  forall sh, P sh.
Proof.
  intros Hc Hl. fix IH 1. intros [op | op conditions].
  - apply Hc.
  - apply Hl. induction conditions as [ | sh rest IHrest ]; constructor.
    + apply IH.
    + exact IHrest.
Qed.

Lemma strip_append (p r : string) : SQLite.strip p (p +:+ r) = Some r.
Proof.
  induction p as [ | a p IH ]; [ reflexivity | ].
  change (String a p +:+ r) with (String a (p +:+ r)). simpl.
  now rewrite Ascii.eqb_refl.
Qed.

(** A comparison with an allow-listed operator is read back. *)
Lemma parse_comparison (op rest : string) (fuel : nat) :
  In op safeOps ->
  SQLite.parse_expr (S fuel) (("json_extract(value_text, ?) " +:+ op +:+ " ?") +:+ rest)
    = Some (SQLite.Compare op, rest).
Proof.
  intros Hop. simpl in Hop.
  destruct Hop as [<- | [<- | [<- | [<- | [<- | []]]]]]; reflexivity.
Qed.

(** The equations of the reader on the three ways a fragment can start. *)
Lemma parse_negation (fuel : nat) (r : string) :
  SQLite.parse_expr (S fuel) ("NOT (" +:+ r) =
    match SQLite.parse_expr fuel r with
    | Some (e, r') =>
        match SQLite.strip ")" r' with
        | Some r'' => Some (SQLite.Negation e, r'')
        | None => None
        end
    | None => None
    end.
Proof. reflexivity. Qed.

Lemma parse_junction (fuel : nat) (r : string) :
  SQLite.parse_expr (S fuel) ("(" +:+ r) =
    match SQLite.parse_expr fuel r with
    | Some (e, r') =>
        match SQLite.strip ")" r' with
        | Some r'' => Some (SQLite.Junction true e [], r'')
        | None =>
            match SQLite.strip " AND " r' with
            | Some r'' =>
                match SQLite.parse_others fuel " AND " r'' with
                | Some (es, r3) => Some (SQLite.Junction true e es, r3)
                | None => None
                end
            | None =>
                match SQLite.strip " OR " r' with
                | Some r'' =>
                    match SQLite.parse_others fuel " OR " r'' with
                    | Some (es, r3) => Some (SQLite.Junction false e es, r3)
                    | None => None
                    end
                | None => None
                end
            end
        end
    | None => None
    end.
Proof. reflexivity. Qed.

Lemma parse_others_step (fuel : nat) (sep s : string) :
  SQLite.parse_others (S fuel) sep s =
    match SQLite.parse_expr fuel s with
    | Some (e, r) =>
        match SQLite.strip ")" r with
        | Some r' => Some ([e], r')
        | None =>
            match SQLite.strip sep r with
            | Some r' =>
                match SQLite.parse_others fuel sep r' with
                | Some (es, r'') => Some (e :: es, r'')
                | None => None
                end
            | None => None
            end
        end
    | None => None
    end.
Proof. reflexivity. Qed.

(** The conditions of a junction after the first, up to the closing
    parenthesis. *)
Lemma parse_others_texts (sep : string) (shs : list FilterShape) :
  (forall r, SQLite.strip ")" (sep +:+ r) = None) ->
  Forall reads shs ->
  Forall (fun sh => Forall (fun op => In op safeOps) (shape_operators sh)) shs ->
  shs <> [] ->
  forall ts es, each_text shape_text shs = Some ts -> each_plan plan_expr shs = Some es ->
  forall fuel rest, (each_weight weight shs <= fuel)%nat ->
    SQLite.parse_others fuel sep (join sep ts +:+ ")" +:+ rest) = Some (es, rest).
Proof.
  intros Hsep Hreads. induction Hreads as [ | sh shs Hsh Hshs IH ]; [ contradiction | ].
  intros Hsafe _ ts es Hts Hes fuel rest Hfuel.
  apply Forall_cons in Hsafe. destruct Hsafe as (Hsafe1 & Hsafe).
  simpl in Hts, Hes.
  destruct (shape_text sh) as [t | ] eqn:Ht; [ | discriminate ].
  destruct (plan_expr sh) as [e | ] eqn:He; [ | discriminate ].
  destruct (each_text shape_text shs) as [ts' | ] eqn:Hts'; [ | discriminate ].
  destruct (each_plan plan_expr shs) as [es' | ] eqn:Hes'; [ | discriminate ].
  injection Hts as <-. injection Hes as <-.
  simpl in Hfuel. destruct fuel as [ | fuel ]; [ lia | ].
  rewrite parse_others_step.
  destruct shs as [ | sh2 shs ].
  - simpl in Hts', Hes'. injection Hts' as <-. injection Hes' as <-.
    change (join sep [t]) with t.
    rewrite (Hsh Hsafe1 t e Ht He fuel (")" +:+ rest)) by lia.
    reflexivity.
  - assert (Hjoin : exists t2 ts2, ts' = t2 :: ts2).
    { simpl in Hts'. destruct (shape_text sh2); [ | discriminate ].
      destruct (each_text shape_text shs); [ | discriminate ].
      injection Hts' as <-. eauto. }
    destruct Hjoin as (t2 & ts2 & ->).
    change (join sep (t :: t2 :: ts2)) with (t +:+ sep +:+ join sep (t2 :: ts2)).
    rewrite !append_assoc.
    rewrite (Hsh Hsafe1 t e Ht He fuel) by lia.
    rewrite Hsep, strip_append.
    rewrite (IH Hsafe ltac:(discriminate) (t2 :: ts2) es' eq_refl eq_refl fuel rest) by lia.
    reflexivity.
Qed.

(** A junction, read from its opening parenthesis. *)
Lemma parse_junction_texts (op : LogicOp) (first : FilterShape) (others : list FilterShape) :
  op <> NOT ->
  reads first -> Forall reads others ->
  Forall (fun op => In op safeOps) (shape_operators first) ->
  Forall (fun sh => Forall (fun op => In op safeOps) (shape_operators sh)) others ->
  forall t1 ts e1 es,
    shape_text first = Some t1 -> each_text shape_text others = Some ts ->
    plan_expr first = Some e1 -> each_plan plan_expr others = Some es ->
    forall fuel rest,
      (Nat.max (weight first) (each_weight weight others) <= fuel)%nat ->
      SQLite.parse_expr (S fuel)
        (("(" +:+ join (" " +:+ LogicOp_text op +:+ " ") (t1 :: ts) +:+ ")") +:+ rest) =
        Some (SQLite.Junction (match es, op with
                               | [], _ => true
                               | _, AND => true
                               | _, _ => false
                               end) e1 es, rest).
Proof.
  intros Hop Hfirst Hothers Hsafe1 Hsafes t1 ts e1 es Ht1 Hts He1 Hes fuel rest Hfuel.
  rewrite append_assoc.
  change ("(" +:+ (join (" " +:+ LogicOp_text op +:+ " ") (t1 :: ts) +:+ ")") +:+ rest)
    with ("(" +:+ ((join (" " +:+ LogicOp_text op +:+ " ") (t1 :: ts) +:+ ")") +:+ rest)).
  rewrite parse_junction.
  destruct others as [ | second others ].
  - simpl in Hts, Hes. injection Hts as <-. injection Hes as <-.
    change (join (" " +:+ LogicOp_text op +:+ " ") [t1]) with t1.
    rewrite append_assoc.
    rewrite (Hfirst Hsafe1 t1 e1 Ht1 He1 fuel) by lia.
    reflexivity.
  - assert (Hjoin : exists t2 ts2, ts = t2 :: ts2).
    { simpl in Hts. destruct (shape_text second); [ | discriminate ].
      destruct (each_text shape_text others); [ | discriminate ].
      injection Hts as <-. eauto. }
    destruct Hjoin as (t2 & ts2 & ->).
    assert (Hes2 : exists e2 es2, es = e2 :: es2).
    { simpl in Hes. destruct (plan_expr second); [ | discriminate ].
      destruct (each_plan plan_expr others); [ | discriminate ].
      injection Hes as <-. eauto. }
    destruct Hes2 as (e2 & es2 & ->).
    destruct op; [ | | contradiction ].
    + change (join (" " +:+ LogicOp_text AND +:+ " ") (t1 :: t2 :: ts2))
        with (t1 +:+ " AND " +:+ join " AND " (t2 :: ts2)).
      rewrite !append_assoc.
      rewrite (Hfirst Hsafe1 t1 e1 Ht1 He1 fuel) by lia.
      change (SQLite.strip ")" (" AND " +:+ join " AND " (t2 :: ts2) +:+ ")" +:+ rest))
        with (@None string).
      rewrite strip_append.
      rewrite (parse_others_texts " AND " (second :: others) ltac:(reflexivity) Hothers Hsafes
                 ltac:(discriminate) (t2 :: ts2) (e2 :: es2) Hts Hes fuel rest) by lia.
      reflexivity.
    + change (join (" " +:+ LogicOp_text OR +:+ " ") (t1 :: t2 :: ts2))
        with (t1 +:+ " OR " +:+ join " OR " (t2 :: ts2)).
      rewrite !append_assoc.
      rewrite (Hfirst Hsafe1 t1 e1 Ht1 He1 fuel) by lia.
      change (SQLite.strip ")" (" OR " +:+ join " OR " (t2 :: ts2) +:+ ")" +:+ rest))
        with (@None string).
      change (SQLite.strip " AND " (" OR " +:+ join " OR " (t2 :: ts2) +:+ ")" +:+ rest))
        with (@None string).
      rewrite strip_append.
      rewrite (parse_others_texts " OR " (second :: others) ltac:(reflexivity) Hothers Hsafes
                 ltac:(discriminate) (t2 :: ts2) (e2 :: es2) Hts Hes fuel rest) by lia.
      reflexivity.
Qed.

(** The equations of the two translations of a junction of shapes. *)
Lemma shape_text_junction (op : LogicOp) (conditions : list FilterShape) :
  op <> NOT ->
  shape_text (ShapeLogic op conditions) =
    match each_text shape_text conditions with
    | Some parts => Some ("(" +:+ join (" " +:+ LogicOp_text op +:+ " ") parts +:+ ")")
    | None => None
    end.
Proof. destruct op; [ reflexivity | reflexivity | contradiction ]. Qed.

Lemma plan_expr_junction (op : LogicOp) (conditions : list FilterShape) :
  op <> NOT ->
  plan_expr (ShapeLogic op conditions) =
    match each_plan plan_expr conditions with
    | Some (e :: es) =>
        Some (SQLite.Junction (match es, op with
                               | [], _ => true
                               | _, AND => true
                               | _, _ => false
                               end) e es)
    | _ => None
    end.
Proof. destruct op; [ reflexivity | reflexivity | contradiction ]. Qed.

Lemma reads_every_shape (sh : FilterShape) : reads sh.
Proof.
  induction sh as [op | op conditions IH] using FilterShape_induction; unfold reads.
  - intros Hsafe t e Ht He fuel rest Hfuel. simpl in Ht, He, Hsafe, Hfuel.
    injection Ht as <-. injection He as <-.
    destruct fuel as [ | fuel ]; [ lia | ].
    apply parse_comparison. now apply Forall_inv in Hsafe.
  - intros Hsafe t e Ht He fuel rest Hfuel.
    assert (Hsafes : Forall (fun sh => Forall (fun op => In op safeOps) (shape_operators sh))
                            conditions).
    { simpl in Hsafe. clear -Hsafe. induction conditions as [ | sh shs IHs ]; constructor.
      - simpl in Hsafe. now apply Forall_app in Hsafe.
      - apply IHs. simpl in Hsafe. now apply Forall_app in Hsafe. }
    assert (Hcases : op = NOT \/ op <> NOT) by (destruct op; auto; left; reflexivity).
    destruct Hcases as [-> | Hop].
    + simpl in Ht, He, Hfuel.
      destruct conditions as [ | first others ]; [ discriminate | ].
      apply Forall_inv in IH. apply Forall_inv in Hsafes.
      destruct (shape_text first) as [t1 | ] eqn:Ht1; [ | discriminate ].
      destruct (plan_expr first) as [e1 | ] eqn:He1; [ | discriminate ].
      injection Ht as <-. injection He as <-.
      destruct fuel as [ | fuel ]; [ lia | ].
      rewrite !append_assoc. rewrite parse_negation.
      rewrite (IH Hsafes t1 e1 Ht1 He1 fuel) by lia.
      reflexivity.
    + rewrite shape_text_junction in Ht by exact Hop.
      rewrite plan_expr_junction in He by exact Hop.
      destruct conditions as [ | first others ]; [ discriminate | ].
      apply Forall_cons in IH. destruct IH as (IH1 & IHs).
      apply Forall_cons in Hsafes. destruct Hsafes as (Hsafe1 & Hsafes).
      assert (Hw : exists fuel', fuel = S fuel' /\
                     (Nat.max (weight first) (each_weight weight others) <= fuel')%nat).
      { destruct op; [ | | contradiction ]; simpl in Hfuel;
          (destruct fuel as [ | fuel' ]; [ lia | exists fuel'; split; [ reflexivity | lia ] ]). }
      destruct Hw as (fuel' & -> & Hfuel').
      simpl in Ht, He.
      destruct (shape_text first) as [t1 | ] eqn:Ht1; [ | discriminate ].
      destruct (plan_expr first) as [e1 | ] eqn:He1; [ | discriminate ].
      destruct (each_text shape_text others) as [ts | ] eqn:Hts; [ | discriminate ].
      destruct (each_plan plan_expr others) as [es | ] eqn:Hes; [ | discriminate ].
      injection Ht as <-. injection He as <-.
      exact (parse_junction_texts op first others Hop IH1 IHs Hsafe1 Hsafes
               t1 ts e1 es Ht1 Hts He1 Hes fuel' rest Hfuel').
Qed.

End EngineReads.

(** ** The properties at work *)

Section Worked.
Import Integers Examples.

(** The deadline itself.  The key was set at 5000 with [expireIn = 1000]:
    at 6000, which is [setTime + d], [get] still returns the entry and
    [list] leaves it out.  One millisecond before, both have it; one after,
    neither. *)
Example get_and_list_disagree_at_deadline :
  let entry := {| KVEntry.key := "expired";
                  KVEntry.value := Defined (string_value "value");
                  KVEntry.version := "0001" |} in
  fst (CoreKV.get engine "expired" 6000 expiring) = Ok (Some entry) /\
  fst (CoreKV.list engine ListOptions.default 6000 expiring) = Ok [] /\
  fst (CoreKV.get engine "expired" 5999 expiring) = Ok (Some entry) /\
  fst (CoreKV.list engine ListOptions.default 5999 expiring) = Ok [entry] /\
  fst (CoreKV.get engine "expired" 6001 expiring) = Ok None /\
  fst (CoreKV.list engine ListOptions.default 6001 expiring) = Ok [].
Proof. vm_compute. repeat split. Qed.

(** A key set with [expireIn = 0] at 5000 is not absent at 5000, nor a week
    later, from [get] or from [list]; and a key set with [expireIn = 1000]
    at 5000 is not absent from [get] at 6000. *)
Lemma expiry_counterexample :
  let entry := {| KVEntry.key := "kept";
                  KVEntry.value := Defined (string_value "value");
                  KVEntry.version := "0001" |} in
  5000 >= 5000 + 0 /\
  fst (CoreKV.get engine "kept" 5000 kept) = Ok (Some entry) /\
  fst (CoreKV.get engine "kept" 604805000 kept) = Ok (Some entry) /\
  fst (CoreKV.list engine ListOptions.default 5000 kept) = Ok [entry] /\
  6000 >= 5000 + 1000 /\
  fst (CoreKV.get engine "expired" 6000 expiring) <> Ok None.
Proof. vm_compute. repeat split; discriminate. Qed.

Lemma expiry_window_witness :
  1000 <> 0 /\ 5000 + 1000 <> 0 /\ text_faithful (string_value "value") /\
  let s1 := snd (CoreKV.set engine "expired" (string_value "value")
                            (Some {| expireIn := Some 1000 |}) "0001" 5000 (session [])) in
  let e := {| KVEntry.key := "expired";
              KVEntry.value := Defined (decoded_form (string_value "value"));
              KVEntry.version := "0001" |} in
  (5999 < 5000 + 1000 -> fst (CoreKV.get engine "expired" 5999 s1) = Ok (Some e)) /\
  (5000 + 1000 < 5999 -> fst (CoreKV.get engine "expired" 5999 s1) = Ok None) /\
  (exists rs,
      fst (engine {| sql := "SELECT * FROM kv_store WHERE 1=1 AND (expires_at IS NULL OR expires_at > ?) ORDER BY key ASC";
                     args := [IInteger 5999] |} (CoreKV.conn s1)) = Ok rs /\
      (~ (exists r, r ∈ rows rs /\ key r = "expired") <-> 5000 + 1000 <= 5999)) /\
  (forall entries,
      fst (CoreKV.list engine ListOptions.default 5999 s1) = Ok entries ->
      (~ (exists e, e ∈ entries /\ KVEntry.key e = "expired") <-> 5000 + 1000 <= 5999)).
Proof.
  assert (H1 : 1000 <> 0) by lia.
  assert (H2 : 5000 + 1000 <> 0) by lia.
  assert (H3 : text_faithful (string_value "value")) by exact I.
  split; [ exact H1 | ]. split; [ exact H2 | ]. split; [ exact H3 | ].
  exact (expiry_window "expired" (string_value "value") 1000 "0001" 5000 5999 (session [])
           H1 H2 H3).
Defined.

(** C9.  The prefix is handed to [LIKE] as a pattern, so its characters
    are not all taken literally: with the one key [abc] in the table,
    [list] with the prefix [a_] returns the entry of [abc], which does not
    start with [a_]. *)
Theorem prefix_matches_unrelated_key :
  String.prefix "a_" "abc" = false /\
  keys_of (fst (CoreKV.list engine (only_prefix "a_") 10 alphabet)) = Some ["abc"].
Proof. vm_compute. split; reflexivity. Qed.

Lemma decode_encode_witness :
  text_faithful test_json /\
  exists w, decodeValue (row_of "test-json" (encodeValue test_json) "0001" None)
              = Ok (Defined w) /\ same_value test_json w.
Proof.
  assert (H : text_faithful test_json) by (vm_compute; reflexivity).
  split; [ exact H | ].
  exact (decode_encode test_json "test-json" "0001" None H).
Defined.



(** The call of the witness, evaluated: the expired session gets [null] in
    both of its slots, the user an entry, the missing key [null]. *)
Example getMany_with_an_expired_row :
  match fst (CoreKV.getMany engine called 6001 lobby) with
  | Ok slots => List.map (option_map KVEntry.key) slots = [None; Some "user:1"; None; None]
  | Throw _ => False
  end /\
  List.map key (rows answered) = ["user:1"; "session:1"].
Proof. vm_compute. split; reflexivity. Qed.

(** Two writes for which the generator returns the same string: the
    entry [get] returns after the second write carries the version that the
    first write stored. *)
Lemma upsert_same_version_counterexample :
  let s1 := snd (CoreKV.set engine "k" test_json (Some {| expireIn := Some 50 |})
                            "0001" 100 (session [])) in
  let s2 := snd (CoreKV.set engine "k" (number_value 2) None "0001" 200 s1) in
  List.map version (CoreKV.conn s1) = ["0001"] /\
  fst (CoreKV.get engine "k" 300 s2) =
    Ok (Some {| KVEntry.key := "k"; KVEntry.value := Defined (number_value 2);
                KVEntry.version := "0001" |}).
Proof. vm_compute. split; reflexivity. Qed.

Lemma upsert_replaces_witness :
  text_faithful (number_value 2) /\
  CoreKV.expired (row_of "k" (encodeValue (number_value 2)) "0002"
                         (CoreKV.expiresAt_of None 200)) 300 = false /\
  let s1 := snd (CoreKV.set engine "k" test_json (Some {| expireIn := Some 50 |})
                            "0001" 100 (session [])) in
  let s2 := snd (CoreKV.set engine "k" (number_value 2) None "0002" 200 s1) in
  let row1 := row_of "k" (encodeValue test_json) "0001"
                     (CoreKV.expiresAt_of (Some {| expireIn := Some 50 |}) 100) in
  let row2 := row_of "k" (encodeValue (number_value 2)) "0002" (CoreKV.expiresAt_of None 200) in
  stored_under "k" (CoreKV.conn s1) (eq row1) /\
  stored_under "k" (CoreKV.conn s2) (eq row2) /\
  (exists w,
    fst (CoreKV.get engine "k" 300 s2) =
      Ok (Some {| KVEntry.key := "k"; KVEntry.value := Defined w;
                  KVEntry.version := "0002" |}) /\
    same_value (number_value 2) w) /\
  (forall stored entry,
     stored ∈ CoreKV.conn s1 -> key stored = "k" ->
     fst (CoreKV.get engine "k" 300 s2) = Ok (Some entry) ->
     (KVEntry.version entry = version stored <-> "0002" = "0001")).
Proof.
  assert (H2 : text_faithful (number_value 2)) by (vm_compute; reflexivity).
  assert (H3 : CoreKV.expired (row_of "k" (encodeValue (number_value 2)) "0002"
                                      (CoreKV.expiresAt_of None 200)) 300 = false)
    by reflexivity.
  split; [ exact H2 | ]. split; [ exact H3 | ].
  exact (upsert_replaces "k" test_json (number_value 2) (Some {| expireIn := Some 50 |}) None
           "0001" "0002" 100 200 300 (session []) H2 H3).
Defined.

Lemma decode_error_propagates_witness :
  value_type bare_row = Absent /\ value_blob bare_row = Absent /\
  value_text bare_row = Absent /\
  decodeValue bare_row = Throw (Error "Invalid row format for decoding value.") /\
  fst (CoreKV.get (canned [bare_row]) "k" 0 nowhere)
    = Throw (Error "Invalid row format for decoding value.") /\
  fst (CoreKV.list (canned [bare_row]) ListOptions.default 0 nowhere)
    = Throw (Error "Invalid row format for decoding value.").
Proof.
  destruct (decode_error_propagates (Ext:=runtime) (canned [bare_row]) bare_row
              eq_refl eq_refl eq_refl)
    as (Hdecode & Hget & Hlist & _).
  split; [ reflexivity | ]. split; [ reflexivity | ]. split; [ reflexivity | ].
  split; [ exact Hdecode | ]. split.
  - exact (Hget "k" 0 nowhere [] tt eq_refl eq_refl).
  - exact (Hlist ListOptions.default 0 nowhere _ [] [] tt eq_refl eq_refl (List.Forall_nil _)).
Defined.

Lemma set_expiry_witness :
  1000 <> 0 /\
  let after options :=
    CoreKV.conn (snd (CoreKV.set engine "expired" (string_value "value") options
                                 "0001" 5000 (session []))) in
  stored_under "expired" (after (Some {| expireIn := Some 1000 |}))
               (fun row => expires_at row = Some (5000 + 1000)) /\
  stored_under "expired" (after (Some {| expireIn := None |}))
               (fun row => expires_at row = None) /\
  stored_under "expired" (after None) (fun row => expires_at row = None) /\
  stored_under "expired" (after (Some {| expireIn := Some 0 |}))
               (fun row => expires_at row = None).
Proof.
  assert (H : 1000 <> 0) by lia.
  split; [ exact H | ].
  exact (set_expiry "expired" (string_value "value") "0001" 5000 1000 (session []) H).
Defined.

(** [set] with the number [NaN] succeeds and stores the text [NaN]. *)
Lemma encode_non_finite_counterexample :
  fst (CoreKV.set engine "k" (Json (JNumber NaN)) None "0001" 1000 (session [])) = Ok tt /\
  CoreKV.conn (snd (CoreKV.set engine "k" (Json (JNumber NaN)) None "0001" 1000 (session [])))
    = [{| key := "k"; value_blob := SqlNull; value_text := Val "NaN";
          value_type := Val "number"; version := "0001"; expires_at := None |}].
Proof. vm_compute. split; reflexivity. Qed.

(** A row with an unknown tag, and a row of type [string] without a text,
    decode without an error, and [get] returns what they decode to. *)
Lemma decode_unknown_tag_counterexample :
  includes SQLite.value_types "foo" = false /\
  decodeValue odd_row = Ok (Defined (string_value "x")) /\
  fst (CoreKV.get (canned [odd_row]) "k" 0 nowhere)
    = Ok (Some {| KVEntry.key := "k"; KVEntry.value := Defined (string_value "x");
                  KVEntry.version := "0001" |}) /\
  decodeValue empty_row = Ok (Defined (Json JNull)) /\
  fst (CoreKV.get (canned [empty_row]) "k" 0 nowhere)
    = Ok (Some {| KVEntry.key := "k"; KVEntry.value := Defined (Json JNull);
                  KVEntry.version := "0001" |}).
Proof. vm_compute. repeat split. Qed.

(** [set] with [expireIn: 0] at the instant 1000 stores no expiry, not the
    instant [1000 + 0]. *)
Lemma set_expiry_zero_counterexample :
  let stored := CoreKV.conn (snd (CoreKV.set engine "k" (string_value "v")
                                    (Some {| expireIn := Some 0 |}) "0001" 1000 (session []))) in
  List.map expires_at stored = [None] /\
  List.map expires_at stored <> [Some (1000 + 0)].
Proof. vm_compute. split; [ reflexivity | discriminate ]. Qed.

(** *** The runtime of the examples reads back what it writes *)

Lemma to_int_proper (z : Z) : Z.to_int z <> Decimal.Pos Decimal.Nil /\
                              Z.to_int z <> Decimal.Neg Decimal.Nil.
Proof.
  split; intros H; pose proof (DecimalZ.of_to z) as Hz; rewrite H in Hz;
    vm_compute in Hz; subst z; vm_compute in H; discriminate.
Qed.

Lemma decimal_read_back (z : Z) :
  Number_of_string (decimal z) = Finite z.
Proof.
  destruct (to_int_proper z) as (Hpos & Hneg).
  pose proof (NilZero.isi (Z.to_int z) Hpos Hneg) as H. fold (decimal z) in H.
  unfold Number_of_string.
  destruct (String.eqb (decimal z) "") eqn:E1.
  { apply String.eqb_eq in E1. rewrite E1 in H. discriminate. }
  destruct (String.eqb (decimal z) "Infinity") eqn:E2.
  { apply String.eqb_eq in E2. rewrite E2 in H. discriminate. }
  destruct (String.eqb (decimal z) "-Infinity") eqn:E3.
  { apply String.eqb_eq in E3. rewrite E3 in H. discriminate. }
  rewrite H. now rewrite DecimalZ.of_to.
Qed.

(** Every number of the runtime of the examples, finite or not, is a value
    whose text is read back. *)
Lemma numbers_faithful (n : number Z) : text_faithful (Json (JNumber n)).
Proof.
  destruct n as [ | | | z ]; try reflexivity.
  simpl. apply decimal_read_back.
Qed.

(** *** The examples of the test-suite *)

Example filter_by_age :
  keys_of (fst (CoreKV.list engine (age_over 28) 10 users)) = Some ["user:1"; "user:3"].
Proof. vm_compute. reflexivity. Qed.

Example getMany_of_three :
  fst (CoreKV.getMany engine wanted 10 users) =
    Ok [Some {| KVEntry.key := "user:1";
                KVEntry.value :=
                  Defined (object_value [("name", JString "Alice");
                                         ("age", JNumber (Finite 30))]);
                KVEntry.version := "0001" |};
        None;
        Some {| KVEntry.key := "user:1";
                KVEntry.value :=
                  Defined (object_value [("name", JString "Alice");
                                         ("age", JNumber (Finite 30))]);
                KVEntry.version := "0001" |}].
Proof. vm_compute. reflexivity. Qed.

Example filter_crossed :
  text_of (CoreKV.list_statement crossed 10) =
    Some "SELECT * FROM kv_store WHERE 1=1 AND (expires_at IS NULL OR expires_at > ?) AND value_type = 'json' AND (((json_extract(value_text, ?) = ? AND json_extract(value_text, ?) = ?) OR (json_extract(value_text, ?) = ? AND json_extract(value_text, ?) = ?))) ORDER BY key ASC" /\
  keys_of (fst (CoreKV.list engine crossed 10 grid)) = Some ["n:2"; "n:3"].
Proof. vm_compute. split; reflexivity. Qed.

Example filter_negated :
  text_of (CoreKV.list_statement negated 10) =
    Some "SELECT * FROM kv_store WHERE 1=1 AND (expires_at IS NULL OR expires_at > ?) AND key LIKE ? AND value_type = 'json' AND ((json_extract(value_text, ?) = ? AND NOT (json_extract(value_text, ?) = ?))) ORDER BY key DESC LIMIT ?" /\
  keys_of (fst (CoreKV.list engine negated 10 grid)) = Some ["n:2"].
Proof. vm_compute. split; reflexivity. Qed.

Example filter_hostile :
  CoreKV.list_statement hostile 10 =
    Ok {| sql := "SELECT * FROM kv_store WHERE 1=1 AND (expires_at IS NULL OR expires_at > ?) AND value_type = 'json' AND json_extract(value_text, ?) = ? ORDER BY key DESC LIMIT ?";
          args := [IInteger 10; IText "$.a"; INumber (Finite 2); IInteger 2] |} /\
  keys_of (fst (CoreKV.list engine hostile 10 grid)) = Some ["n:4"; "n:3"].
Proof. vm_compute. split; reflexivity. Qed.

Example not_without_condition :
  CoreKV.buildWhereSql (Ext:=runtime) (LogicResult NOT []) =
    Throw (Error "NOT operator requires a condition").
Proof. reflexivity. Qed.

End Worked.


(** * Further properties *)

(** ** Parameters and arguments *)

Section Placeholders.
Context `{Ext : Externals}.

Lemma placeholders_app (a b : string) :
  placeholders (a +:+ b) = (placeholders a + placeholders b)%nat.
Proof.
  induction a as [ | x a IH ]; [ reflexivity | ].
  change (String x a +:+ b) with (String x (a +:+ b)). simpl. rewrite IH. lia.
Qed.

Lemma placeholders_join (sep : string) (parts : list string) :
  placeholders sep = 0%nat ->
  placeholders (join sep parts) = list_sum (List.map placeholders parts).
Proof.
  intros Hsep. induction parts as [ | p parts IH ]; [ reflexivity | ].
  destruct parts as [ | q parts ].
  - simpl. lia.
  - change (join sep (p :: q :: parts)) with (p +:+ sep +:+ join sep (q :: parts)).
    rewrite !placeholders_app, IH, Hsep. reflexivity.
Qed.

Lemma placeholders_operator (o : string) :
  placeholders (CoreKV.checked_operator o) = 0%nat.
Proof.
  pose proof (checked_operator_safe o) as H. simpl in H.
  destruct H as [<- | [<- | [<- | [<- | [<- | []]]]]]; reflexivity.
Qed.

(** What one compilation is expected to give. *)
Lemma build_each_bound (conditions : list (Filter finite)) :
  Forall (fun f => forall frag, CoreKV.buildWhereSql f = Ok frag ->
                     placeholders (CoreKV.frag_sql frag) = length (CoreKV.frag_args frag))
         conditions ->
  forall parts args parts' args',
    list_sum (List.map placeholders parts) = length args ->
    CoreKV.build_each CoreKV.buildWhereSql conditions parts args = Ok (parts', args') ->
    list_sum (List.map placeholders parts') = length args'.
Proof.
  induction 1 as [ | f rest Hf _ IH ]; intros parts args parts' args' Hsum Hrun; simpl in Hrun.
  - now injection Hrun as <- <-.
  - destruct (CoreKV.buildWhereSql f) as [frag | e]; simpl in Hrun; [ | discriminate ].
    apply IH in Hrun; [ exact Hrun | ].
    rewrite List.map_app, list_sum_app, length_app, Hsum. simpl.
    rewrite (Hf frag eq_refl). lia.
Qed.

Lemma buildWhereSql_bound (f : Filter finite) (frag : CoreKV.Fragment) :
  CoreKV.buildWhereSql f = Ok frag ->
  placeholders (CoreKV.frag_sql frag) = length (CoreKV.frag_args frag).
Proof.
  revert frag. induction f as [c | op conditions IH] using Filter_induction; intros frag H.
  - simpl in H. injection H as <-. simpl.
    rewrite !placeholders_app, placeholders_operator. reflexivity.
  - assert (Hjunction : forall sep,
              placeholders sep = 0%nat ->
              forall parts args,
                CoreKV.build_each CoreKV.buildWhereSql conditions [] [] = Ok (parts, args) ->
                placeholders ("(" +:+ join sep parts +:+ ")") = length args).
    { intros sep Hsep parts args Hrun.
      rewrite !placeholders_app, (placeholders_join sep parts Hsep).
      rewrite (build_each_bound conditions IH [] [] parts args eq_refl Hrun).
      simpl. lia. }
    destruct op; simpl in H.
    + destruct (CoreKV.build_each CoreKV.buildWhereSql conditions [] []) as [[parts args] | e]
        eqn:Hrun; simpl in H; [ | discriminate ].
      injection H as <-. simpl. now apply (Hjunction " AND ").
    + destruct (CoreKV.build_each CoreKV.buildWhereSql conditions [] []) as [[parts args] | e]
        eqn:Hrun; simpl in H; [ | discriminate ].
      injection H as <-. simpl. now apply (Hjunction " OR ").
    + destruct conditions as [ | first rest ]; [ discriminate | ].
      apply Forall_inv in IH.
      destruct (CoreKV.buildWhereSql first) as [inner | e] eqn:Hinner; simpl in H;
        [ | discriminate ].
      injection H as <-. simpl. rewrite !placeholders_app, (IH inner eq_refl). simpl. lia.
Qed.

(** X1.  Whatever the filter, the text the predicate compiler produces has
    exactly as many parameters [?] as the compiler returns arguments: two
    for every condition it visits, field names and comparison values being
    arguments and the checked operator holding no [?].  The conditions of a
    [NOT] after the first are not visited and add to neither side. *)
Theorem compiled_parameters_match_arguments (f : Filter finite) :
  match CoreKV.buildWhereSql f with
  | Ok frag => placeholders (CoreKV.frag_sql frag) = length (CoreKV.frag_args frag)
  | Throw _ => True
  end /\
  (forall c : WhereCondition finite,
      fragment_of (CoreKV.buildWhereSql (Condition c)) =
        Some ("json_extract(value_text, ?) " +:+ CoreKV.checked_operator (operator c) +:+ " ?") /\
      placeholders (CoreKV.checked_operator (operator c)) = 0%nat) /\
  (forall first rest,
      CoreKV.buildWhereSql (LogicResult NOT (first :: rest)) =
      CoreKV.buildWhereSql (LogicResult NOT [first])).
Proof.
  split; [ | split ].
  - destruct (CoreKV.buildWhereSql f) as [frag | e] eqn:H; [ | exact I ].
    now apply (buildWhereSql_bound f).
  - intros c. split; [ reflexivity | apply placeholders_operator ].
  - intros first rest. reflexivity.
Qed.

End Placeholders.
Section Handing.
Context `{Ext : Externals} {Conn : Type}.
Variable run : Statement finite -> Conn -> result ResultSet * Conn.
Variable P : Statement finite -> Prop.

Lemma hands_only_ret {A} (a : A) : hands_only P (CoreKV.ret (Conn:=Conn) a).
Proof. intros s. exists []. now rewrite app_nil_r. Qed.

Lemma hands_only_lift {A} (r : result A) : hands_only P (CoreKV.lift (Conn:=Conn) r).
Proof. intros s. exists []. now rewrite app_nil_r. Qed.

Lemma hands_only_bind {A B} (m : CoreKV.M (Conn:=Conn) A) (k : A -> CoreKV.M (Conn:=Conn) B) :
  hands_only P m -> (forall a, hands_only P (k a)) -> hands_only P (CoreKV.bind m k).
Proof.
  intros Hm Hk s. unfold CoreKV.bind.
  destruct (Hm s) as (extra & Hextra & HP).
  destruct (m s) as [[a | e] s1]; simpl in Hextra.
  - destruct (Hk a s1) as (extra' & Hextra' & HP').
    exists (extra ++ extra'). split.
    + now rewrite Hextra', Hextra, app_assoc.
    + now apply Forall_app.
  - now exists extra.
Qed.

Lemma hands_only_bind_lift {A B} (r : result A) (k : A -> CoreKV.M (Conn:=Conn) B) :
  (forall a, r = Ok a -> hands_only P (k a)) -> hands_only P (CoreKV.bind (CoreKV.lift r) k).
Proof.
  intros Hk s. unfold CoreKV.bind, CoreKV.lift. destruct r as [a | e].
  - exact (Hk a eq_refl s).
  - exists []. now rewrite app_nil_r.
Qed.

Lemma hands_only_execute (text : string) (arguments : list (InValue finite)) :
  P {| sql := text; args := arguments |} ->
  hands_only P (CoreKV.execute run text arguments).
Proof.
  intros HP s. unfold CoreKV.execute.
  destruct (run _ (CoreKV.conn s)) as [r c]. simpl.
  eexists. split; [ reflexivity | ]. now constructor.
Qed.

Lemma hands_only_catch_ignore (m : CoreKV.M (Conn:=Conn) unit) :
  hands_only P m -> hands_only P (CoreKV.catch_ignore m).
Proof. intros Hm s. exact (Hm s). Qed.

Lemma hands_only_issued_by {A} (m : CoreKV.M (Conn:=Conn) A) (s : CoreKV.Session) :
  hands_only P m -> Forall P (issued_by m s).
Proof.
  intros Hm. destruct (Hm s) as (extra & Hextra & HP).
  unfold issued_by. now rewrite Hextra, drop_app_length.
Qed.

Lemma hands_only_entry_of (row : Row) : hands_only P (CoreKV.entry_of (Conn:=Conn) row).
Proof.
  apply hands_only_bind; [ apply hands_only_lift | intros v; apply hands_only_ret ].
Qed.

Lemma hands_only_map_rows (rs : list Row) : hands_only P (CoreKV.map_rows (Conn:=Conn) rs).
Proof.
  induction rs as [ | row rs IH ]; simpl; [ apply hands_only_ret | ].
  apply hands_only_bind; [ apply hands_only_entry_of | intros e ].
  apply hands_only_bind; [ exact IH | intros es; apply hands_only_ret ].
Qed.

Lemma hands_only_map_keys (map : gmap string Row) (keys : list string) :
  hands_only P (CoreKV.map_keys (Conn:=Conn) map keys).
Proof.
  induction keys as [ | k keys IH ]; simpl; [ apply hands_only_ret | ].
  apply hands_only_bind.
  - destruct (map !! k) as [row | ]; [ | apply hands_only_ret ].
    apply hands_only_bind; [ apply hands_only_entry_of | intros e; apply hands_only_ret ].
  - intros slot. apply hands_only_bind; [ exact IH | intros slots; apply hands_only_ret ].
Qed.

Lemma hands_only_collect_live (clean : string -> CoreKV.M (Conn:=Conn) unit) (rs : list Row)
    (now : Z) :
  (forall k, hands_only P (clean k)) ->
  forall map, hands_only P (CoreKV.collect_live clean rs now map).
Proof.
  intros Hclean. induction rs as [ | row rs IH ]; intros map; simpl.
  - apply hands_only_ret.
  - destruct (CoreKV.expired row now); [ | apply IH ].
    apply hands_only_bind; [ apply Hclean | intros _; apply IH ].
Qed.

End Handing.

Section WellBound.
Context `{Ext : Externals} {Conn : Type}.
Variable run : Statement finite -> Conn -> result ResultSet * Conn.

Lemma placeholders_marks (n : nat) :
  placeholders (join "," (replicate n "?")) = n.
Proof.
  rewrite placeholders_join by reflexivity.
  induction n as [ | n IH ]; [ reflexivity | ]. simpl. now rewrite IH.
Qed.

Lemma list_statement_bound (options : ListOptions finite) (now : Z) (stmt : Statement finite) :
  CoreKV.list_statement options now = Ok stmt -> well_bound stmt.
Proof.
  destruct options as [p l c w r]. unfold CoreKV.list_statement, well_bound. simpl.
  intros H.
  destruct w as [[cond | callback] | ]; simpl in H;
    [ | destruct (CoreKV.buildWhereSql _) as [frag | e] eqn:Hfrag; simpl in H;
        [ apply buildWhereSql_bound in Hfrag | destruct p as [p | ]; [ destruct (String.eqb p "") | ]; discriminate ] | ];
    (destruct p as [p | ]; [ destruct (String.eqb p "") | ]);
    (destruct l as [n | ]; [ destruct (Z.eqb n 0) | ]);
    simpl in H; injection H as <-; simpl sql; simpl args;
    rewrite !placeholders_app, ?length_app, ?placeholders_operator, ?Hfrag;
    destruct r as [[ | ] | ]; simpl; rewrite ?length_app; simpl; lia.
Qed.

End WellBound.

Section EveryStatement.
Context `{Ext : Externals} {Conn : Type}.
Variable run : Statement finite -> Conn -> result ResultSet * Conn.

Lemma hands_only_del (P : Statement finite -> Prop) (k : string) :
  P (delete_by_key k) -> hands_only P (CoreKV.del run k).
Proof.
  intros HP. apply hands_only_bind; [ | intros _; apply hands_only_ret ].
  now apply hands_only_execute.
Qed.

(** X2.  Every statement that any operation of the store hands to its
    executor has exactly as many arguments as its text has parameters [?]:
    the look-up and the clean-up deletes of [get] and [getMany] (of the
    store and of a transaction), the upsert of [set] with its six columns,
    [del], [cleanupExpired], the statement of [list] for every combination
    of options, and the two statements of [init], which have neither. *)
Theorem statements_are_well_bound (s : CoreKV.Session) :
  (forall key now, Forall well_bound (issued_by (CoreKV.get run key now) s)) /\
  (forall keys now, Forall well_bound (issued_by (CoreKV.getMany run keys now) s)) /\
  (forall key value options fresh now,
      Forall well_bound (issued_by (CoreKV.set run key value options fresh now) s)) /\
  (forall key, Forall well_bound (issued_by (CoreKV.del run key) s)) /\
  (forall now, Forall well_bound (issued_by (CoreKV.cleanupExpired run now) s)) /\
  (forall options now, Forall well_bound (issued_by (CoreKV.list run options now) s)) /\
  (forall key now, Forall well_bound (issued_by (KVTransaction.get run key now) s)) /\
  (forall keys now, Forall well_bound (issued_by (KVTransaction.getMany run keys now) s)) /\
  Forall well_bound (issued_by (LibSQLKV.init run) s).
Proof.
  assert (Hdel : forall k, hands_only well_bound (CoreKV.del run k)).
  { intros k. now apply hands_only_del. }
  assert (Hmany : forall (clean : string -> CoreKV.M unit) keys now,
             (forall k, hands_only well_bound (clean k)) ->
             hands_only well_bound
               (CoreKV.bind
                  (CoreKV.execute run
                     ("SELECT * FROM " +:+ CoreKV.tableName +:+ " WHERE key IN (" +:+
                        join "," (List.map (fun _ => "?") keys) +:+ ")")
                     (List.map IText keys))
                  (fun rs => CoreKV.bind (CoreKV.collect_live clean (rows rs) now ∅)
                               (fun map => CoreKV.map_keys map keys)))).
  { intros clean keys now Hclean. apply hands_only_bind.
    - apply hands_only_execute. unfold well_bound. simpl.
      rewrite placeholders_replicate, !placeholders_app, placeholders_marks.
      rewrite length_map. simpl. lia.
    - intros rs. apply hands_only_bind; [ now apply hands_only_collect_live | ].
      intros map. apply hands_only_map_keys. }
  repeat split_and.
  - intros key now. apply hands_only_issued_by.
    apply hands_only_bind; [ now apply hands_only_execute | intros rs ].
    destruct (rows rs) as [ | row rest ]; [ apply hands_only_ret | ].
    destruct (CoreKV.expired row now).
    + apply hands_only_bind; [ | intros _; apply hands_only_ret ].
      apply hands_only_catch_ignore, Hdel.
    + apply hands_only_bind; [ apply hands_only_entry_of | intros e; apply hands_only_ret ].
  - intros keys now. apply hands_only_issued_by. unfold CoreKV.getMany.
    destruct (bool_decide (length keys = 0%nat)); [ apply hands_only_ret | ].
    apply Hmany. intros k. apply hands_only_catch_ignore, Hdel.
  - intros key value options fresh now. apply hands_only_issued_by.
    apply hands_only_bind; [ | intros _; apply hands_only_ret ].
    now apply hands_only_execute.
  - intros key. apply hands_only_issued_by, Hdel.
  - intros now. apply hands_only_issued_by.
    apply hands_only_bind; [ | intros _; apply hands_only_ret ].
    now apply hands_only_execute.
  - intros options now. apply hands_only_issued_by. unfold CoreKV.list.
    apply hands_only_bind_lift. intros [text arguments] Hstmt.
    apply hands_only_bind; [ | intros rs; apply hands_only_map_rows ].
    apply hands_only_execute. now apply (list_statement_bound options now).
  - intros key now. apply hands_only_issued_by.
    apply hands_only_bind; [ now apply hands_only_execute | intros rs ].
    destruct (rows rs) as [ | row rest ]; [ apply hands_only_ret | ].
    destruct (CoreKV.expired row now).
    + apply hands_only_bind; [ apply Hdel | intros _; apply hands_only_ret ].
    + apply hands_only_bind; [ apply hands_only_entry_of | intros e; apply hands_only_ret ].
  - intros keys now. apply hands_only_issued_by. unfold KVTransaction.getMany.
    destruct (bool_decide (length keys = 0%nat)); [ apply hands_only_ret | ].
    apply Hmany. exact Hdel.
  - apply hands_only_issued_by.
    apply hands_only_bind; [ now apply hands_only_execute | intros _ ].
    apply hands_only_bind; [ now apply hands_only_execute | intros _; apply hands_only_ret ].
Qed.

End EveryStatement.
(** ** Outcomes of single statements *)

Section Outcomes.
Context `{Ext : Externals} {Conn : Type}.
Variable run : Statement finite -> Conn -> result ResultSet * Conn.

Lemma execute_outcome (text : string) (arguments : list (InValue finite)) (s : CoreKV.Session)
    (r : result ResultSet) (c : Conn) :
  run {| sql := text; args := arguments |} (CoreKV.conn s) = (r, c) ->
  CoreKV.execute run text arguments s =
    (r, after_statement s {| sql := text; args := arguments |} c).
Proof. intros H. unfold CoreKV.execute. now rewrite H. Qed.

Lemma del_outcome (k : string) (s : CoreKV.Session) (r : result ResultSet) (c : Conn) :
  run (delete_by_key k) (CoreKV.conn s) = (r, c) ->
  CoreKV.del run k s =
    (match r with Ok _ => Ok tt | Throw e => Throw e end, after_statement s (delete_by_key k) c).
Proof.
  intros H. unfold CoreKV.del, CoreKV.bind.
  rewrite (execute_outcome ("DELETE FROM " +:+ CoreKV.tableName +:+ " WHERE key = ?")
             [IText k] s _ _ H).
  now destruct r.
Qed.

End Outcomes.

(** Replace the next statement by its outcome [H]. *)
Ltac executed H :=
  match goal with
  | |- context [CoreKV.execute ?run ?text ?arguments ?s] =>
      rewrite (execute_outcome run text arguments s _ _ H)
  end.

Ltac deleted H :=
  match goal with
  | |- context [CoreKV.del ?run ?k ?s] => rewrite (del_outcome run k s _ _ H)
  end.

(** ** Errors of the executor *)

Section ExecutorErrors.
Context `{Ext : Externals} {Conn : Type}.
Variable run : Statement finite -> Conn -> result ResultSet * Conn.

Lemma select_by_keys_text (keys : list string) :
  "SELECT * FROM " +:+ CoreKV.tableName +:+ " WHERE key IN (" +:+
    join "," (List.map (fun _ : string => "?") keys) +:+ ")" =
  sql (select_by_keys keys).
Proof. simpl. now rewrite placeholders_replicate. Qed.

(** X3.  An error of the executor on the first statement of an operation
    is the outcome of the operation, unchanged, and nothing further is
    handed over: no operation swallows it, replaces it or tries again.
    For [init] this means that the index is not attempted once the table
    statement has failed. *)
Theorem executor_errors_propagate (s : CoreKV.Session) (e : exn) (c : Conn) :
  (forall key now,
      run (select_by_key key) (CoreKV.conn s) = (Throw e, c) ->
      CoreKV.get run key now s = (Throw e, after_statement s (select_by_key key) c) /\
      KVTransaction.get run key now s = (Throw e, after_statement s (select_by_key key) c)) /\
  (forall keys now,
      keys <> [] ->
      run (select_by_keys keys) (CoreKV.conn s) = (Throw e, c) ->
      CoreKV.getMany run keys now s = (Throw e, after_statement s (select_by_keys keys) c) /\
      KVTransaction.getMany run keys now s
        = (Throw e, after_statement s (select_by_keys keys) c)) /\
  (forall key value options fresh now,
      let stmt := {| sql := CoreKV.set_sql;
                     args := [IText key; CoreKV.InValue_of_blob (blob (encodeValue value));
                              CoreKV.InValue_of_text (text (encodeValue value));
                              IText (type (encodeValue value)); IText fresh;
                              CoreKV.InValue_of_instant (CoreKV.expiresAt_of options now)] |} in
      run stmt (CoreKV.conn s) = (Throw e, c) ->
      CoreKV.set run key value options fresh now s = (Throw e, after_statement s stmt c)) /\
  (forall key,
      run (delete_by_key key) (CoreKV.conn s) = (Throw e, c) ->
      CoreKV.del run key s = (Throw e, after_statement s (delete_by_key key) c)) /\
  (forall now,
      let stmt := {| sql := "DELETE FROM kv_store WHERE expires_at IS NOT NULL AND expires_at < ?";
                     args := [IInteger now] |} in
      run stmt (CoreKV.conn s) = (Throw e, c) ->
      CoreKV.cleanupExpired run now s = (Throw e, after_statement s stmt c)) /\
  (forall options now stmt,
      CoreKV.list_statement options now = Ok stmt ->
      run stmt (CoreKV.conn s) = (Throw e, c) ->
      CoreKV.list run options now s = (Throw e, after_statement s stmt c)) /\
  (run {| sql := LibSQLKV.create_table_sql; args := [] |} (CoreKV.conn s) = (Throw e, c) ->
   LibSQLKV.createKV run s
     = (Throw e, after_statement s {| sql := LibSQLKV.create_table_sql; args := [] |} c)).
Proof.
  repeat split_and.
  - intros key now Hrun. split.
    + unfold CoreKV.get, CoreKV.bind.
      executed Hrun. reflexivity.
    + unfold KVTransaction.get, CoreKV.bind.
      executed Hrun. reflexivity.
  - intros keys now Hkeys Hrun.
    assert (Hlen : bool_decide (length keys = 0%nat) = false)
      by (destruct keys; [ contradiction | reflexivity ]).
    unfold CoreKV.getMany, KVTransaction.getMany. rewrite Hlen, select_by_keys_text.
    unfold CoreKV.bind. executed Hrun. now split.
  - intros key value options fresh now stmt Hrun.
    unfold CoreKV.set, CoreKV.bind. executed Hrun. reflexivity.
  - intros key Hrun.
    unfold CoreKV.del, CoreKV.bind. executed Hrun. reflexivity.
  - intros now stmt Hrun.
    unfold CoreKV.cleanupExpired, CoreKV.bind. executed Hrun. reflexivity.
  - intros options now [text arguments] Hstmt Hrun.
    unfold CoreKV.list, CoreKV.bind, CoreKV.lift. rewrite Hstmt. simpl.
    executed Hrun. reflexivity.
  - intros Hrun.
    unfold LibSQLKV.createKV, LibSQLKV.init, CoreKV.bind.
    executed Hrun. reflexivity.
Qed.

End ExecutorErrors.

(** ** The clean-up delete of the reads *)

Section CleanUp.
Context `{Ext : Externals} {Conn : Type}.
Variable run : Statement finite -> Conn -> result ResultSet * Conn.

Lemma map_keys_outcome (map : gmap string Row) (keys : list string) (s : CoreKV.Session) :
  CoreKV.map_keys (Conn:=Conn) map keys s = (all_ok (List.map (slot_for map) keys), s).
Proof.
  induction keys as [ | k keys IH ]; simpl; [ reflexivity | ].
  unfold CoreKV.bind at 1. unfold slot_for at 1.
  destruct (map !! k) as [row | ].
  - unfold CoreKV.bind at 1. unfold CoreKV.entry_of, CoreKV.bind, CoreKV.lift, CoreKV.ret.
    destruct (decodeValue row) as [v | e]; simpl; [ | reflexivity ].
    unfold CoreKV.bind. rewrite IH.
    now destruct (all_ok (List.map (slot_for map) keys)).
  - unfold CoreKV.ret at 1. unfold CoreKV.bind. rewrite IH. simpl.
    now destruct (all_ok (List.map (slot_for map) keys)).
Qed.

(** What [getMany] of the store resolves to, whatever becomes of its
    clean-up. *)
Lemma getMany_outcome (keys : list string) (now : Z) (s : CoreKV.Session) (rs : ResultSet)
    (c1 : Conn) :
  keys <> [] ->
  run (select_by_keys keys) (CoreKV.conn s) = (Ok rs, c1) ->
  fst (CoreKV.getMany run keys now s)
    = all_ok (List.map (slot_for (live_rows (rows rs) now ∅)) keys).
Proof.
  intros Hkeys Hselect.
  assert (Hlen : bool_decide (length keys = 0%nat) = false)
    by (destruct keys; [ contradiction | reflexivity ]).
  unfold CoreKV.getMany. rewrite Hlen, select_by_keys_text.
  unfold CoreKV.bind at 1. executed Hselect.
  unfold CoreKV.bind.
  match goal with
  | |- context [CoreKV.collect_live ?clean ?rows ?now ?m ?s0] =>
      pose proof (collect_live_result run rows now m s0) as Hc;
      destruct (CoreKV.collect_live clean rows now m s0) as [[m' | e'] s']
  end; simpl in Hc; [ | discriminate ].
  injection Hc as ->. now rewrite map_keys_outcome.
Qed.

(** X4.  When the clean-up delete of an expired row fails, [get] of the
    store still resolves to [null], the error being dropped, while [get] of
    a transaction rejects with that error; both have handed over the
    look-up and the delete.  Likewise [getMany] of the store resolves to
    the slots of the rows that have not expired whatever becomes of its
    deletes, while [getMany] of a transaction rejects at the first expired
    row whose delete fails. *)
Theorem clean_up_failure (s : CoreKV.Session) (now : Z) (e : exn) :
  (forall key row rest c1 c2,
      run (select_by_key key) (CoreKV.conn s) = (Ok {| rows := row :: rest |}, c1) ->
      CoreKV.expired row now = true ->
      run (delete_by_key key) c1 = (Throw e, c2) ->
      let s2 := after_statement (after_statement s (select_by_key key) c1)
                                (delete_by_key key) c2 in
      CoreKV.get run key now s = (Ok None, s2) /\
      KVTransaction.get run key now s = (Throw e, s2)) /\
  (forall keys rs c1,
      keys <> [] ->
      run (select_by_keys keys) (CoreKV.conn s) = (Ok rs, c1) ->
      fst (CoreKV.getMany run keys now s)
        = all_ok (List.map (slot_for (live_rows (rows rs) now ∅)) keys) /\
      forall live row rest c2,
        rows rs = live ++ row :: rest ->
        Forall (fun r => CoreKV.expired r now = false) live ->
        CoreKV.expired row now = true ->
        run (delete_by_key (key row)) c1 = (Throw e, c2) ->
        KVTransaction.getMany run keys now s =
          (Throw e, after_statement (after_statement s (select_by_keys keys) c1)
                                    (delete_by_key (key row)) c2)).
Proof.
  split.
  - intros key row rest c1 c2 Hselect Hexpired Hdelete s2. split.
    + unfold CoreKV.get, CoreKV.bind at 1.
      executed Hselect. simpl. rewrite Hexpired.
      unfold CoreKV.bind, CoreKV.catch_ignore.
      deleted Hdelete. reflexivity.
    + unfold KVTransaction.get, CoreKV.bind at 1.
      executed Hselect. simpl. rewrite Hexpired.
      unfold CoreKV.bind.
      deleted Hdelete. reflexivity.
  - intros keys rs c1 Hkeys Hselect.
    assert (Hlen : bool_decide (length keys = 0%nat) = false)
      by (destruct keys; [ contradiction | reflexivity ]).
    split.
    + now apply getMany_outcome with c1.
    + intros live row rest c2 Hrows Hlive Hexpired Hdelete.
      unfold KVTransaction.getMany. rewrite Hlen, select_by_keys_text.
      unfold CoreKV.bind at 1. executed Hselect.
      rewrite Hrows. clear Hrows. unfold CoreKV.bind at 1.
      generalize (∅ : gmap string Row) as map.
      induction Hlive as [ | r live Hr _ IH ]; intros map; simpl.
      * rewrite Hexpired. unfold CoreKV.bind.
        deleted Hdelete. reflexivity.
      * rewrite Hr. apply IH.
Qed.

Lemma collect_live_same (clean clean' : string -> CoreKV.M (Conn:=Conn) unit) (rs : list Row)
    (now : Z) :
  (forall k s, clean k s = clean' k s) ->
  forall map s, CoreKV.collect_live clean rs now map s = CoreKV.collect_live clean' rs now map s.
Proof.
  intros Hclean. induction rs as [ | row rs IH ]; intros map s; simpl; [ reflexivity | ].
  destruct (CoreKV.expired row now); [ | apply IH ].
  unfold CoreKV.bind. rewrite Hclean.
  destruct (clean' (key row) s) as [[u | e] s']; [ apply IH | reflexivity ].
Qed.

(** X5.  On an executor that carries out every delete by key, the reads
    of a transaction are the reads of the store: [get] and [getMany] give
    the same outcome and leave the same session, awaiting the clean-up or
    not. *)
Theorem transaction_reads_agree (s : CoreKV.Session) (now : Z) :
  (forall k c, exists rs c', run (delete_by_key k) c = (Ok rs, c')) ->
  (forall key, KVTransaction.get run key now s = CoreKV.get run key now s) /\
  (forall keys, KVTransaction.getMany run keys now s = CoreKV.getMany run keys now s).
Proof.
  intros Hdelete.
  assert (Hclean : forall k s0, CoreKV.del run k s0 = CoreKV.catch_ignore (CoreKV.del run k) s0).
  { intros k s0. destruct (Hdelete k (CoreKV.conn s0)) as (rs & c' & Hrun).
    unfold CoreKV.catch_ignore. now rewrite (del_outcome run k s0 _ _ Hrun). }
  split.
  - intros key. unfold KVTransaction.get, CoreKV.get, CoreKV.bind.
    destruct (CoreKV.execute run _ _ s) as [[rs | e] s1]; [ | reflexivity ].
    destruct (rows rs) as [ | row rest ]; [ reflexivity | ].
    destruct (CoreKV.expired row now); [ | reflexivity ].
    now rewrite Hclean.
  - intros keys. unfold KVTransaction.getMany, CoreKV.getMany.
    destruct (bool_decide (length keys = 0%nat)); [ reflexivity | ].
    unfold CoreKV.bind.
    destruct (CoreKV.execute run _ _ s) as [[rs | e] s1]; [ | reflexivity ].
    now rewrite (collect_live_same _ _ (rows rs) now Hclean).
Qed.

End CleanUp.
(** ** Options that are not in effect *)

Section FalsyOptions.
Context `{Ext : Externals} {Conn : Type}.
Variable run : Statement finite -> Conn -> result ResultSet * Conn.

Lemma list_of_statement (o o' : ListOptions finite) (now : Z) (s : CoreKV.Session) :
  CoreKV.list_statement o now = CoreKV.list_statement o' now ->
  CoreKV.list run o now s = CoreKV.list run o' now s.
Proof. intros H. unfold CoreKV.list. now rewrite H. Qed.

(** X6.  [list] reads its options by truthiness, and never reads
    [cursor].  Two calls that differ in the cursor only are the same call;
    an empty prefix is no prefix, [reverse: false] is no [reverse], and
    [limit: 0] is no limit at all (every row is asked for, not none): the
    same statement goes to the executor and the same outcome comes back. *)
Theorem list_ignores_falsy_options (p : option string) (l : option Z) (c c' : option string)
    (w : option (Where finite)) (r : option bool) (now : Z) (s : CoreKV.Session) :
  let options p l c r :=
    {| ListOptions.prefix := p; ListOptions.limit := l; ListOptions.cursor := c;
       ListOptions.where_ := w; ListOptions.reverse := r |} in
  CoreKV.list run (options p l c r) now s = CoreKV.list run (options p l c' r) now s /\
  CoreKV.list run (options (Some "") l c r) now s = CoreKV.list run (options None l c r) now s /\
  CoreKV.list run (options p (Some 0) c r) now s = CoreKV.list run (options p None c r) now s /\
  CoreKV.list run (options p l c (Some false)) now s = CoreKV.list run (options p l c None) now s.
Proof.
  intros options. repeat split_and; apply list_of_statement; reflexivity.
Qed.

End FalsyOptions.

(** ** Byte arrays that are views *)

Section Views.
Context `{Ext : Externals}.

(** X7.  A byte array that is a window into a larger buffer is stored as
    the bytes of the window and nothing else: the blob has the length of
    the view, its byte [i] is byte [byteOffset + i] of the buffer, and what
    is read back is an array at offset [0] over a buffer of exactly that
    length. *)
Theorem view_is_stored_alone (arr : Uint8Array) (k ver : string) (exp : option Z) :
  (byteOffset arr + byteLength arr <= length (buffer arr))%nat ->
  let stored := toArrayBuffer arr in
  blob (encodeValue (Binary arr)) = Some stored /\
  length stored = byteLength arr /\
  (forall i, (i < byteLength arr)%nat -> stored !! i = buffer arr !! (byteOffset arr + i)%nat) /\
  decodeValue (row_of k (encodeValue (Binary arr)) ver exp) =
    Ok (Defined (Binary {| buffer := stored; byteOffset := 0; byteLength := byteLength arr |})).
Proof.
  intros Hwindow stored.
  assert (Hlen : length stored = byteLength arr).
  { subst stored. rewrite toArrayBuffer_elements. unfold elements_of.
    rewrite length_take, length_drop. lia. }
  split; [ reflexivity | ]. split; [ exact Hlen | ]. split.
  - intros i Hi. subst stored. rewrite toArrayBuffer_elements. unfold elements_of.
    rewrite lookup_take_lt by exact Hi. apply lookup_drop.
  - unfold decodeValue. simpl. unfold Uint8Array_of. fold stored. now rewrite Hlen.
Qed.

End Views.

(** ** Errors of the codec *)

Section CodecErrors.
Context `{Ext : Externals}.

(** X28.  [decodeValue] throws in two situations and in no other: on a
    row object that has none of the three value fields, with its own
    error; and on a row of type [json] whose text [JSON.parse] refuses,
    with the [SyntaxError] of the parser.  Every other row decodes, a
    payload that is [null] or missing included: a [binary] row without a
    blob gives the empty array, a [number] row with a [null] text the
    number zero, and a [boolean] row is [true] for the text [true] and
    [false] for everything else. *)
Theorem decodeValue_throws_in_two_cases (row : Row) :
  let bare := negb (has_column (value_type row)) && negb (has_column (value_blob row)) &&
              negb (has_column (value_text row)) in
  (forall e, decodeValue row = Throw e <->
     (bare = true /\ e = Error "Invalid row format for decoding value.") \/
     (bare = false /\ value_type row = Val "json" /\
      JSON_parse_column (value_text row) = None /\ e = SyntaxError)) /\
  (value_type row = Val "binary" ->
   decodeValue row = Ok (Defined (Binary (Uint8Array_of_column (value_blob row)))) /\
   (value_blob row = SqlNull -> elements_of (Uint8Array_of_column (value_blob row)) = [])) /\
  (value_type row = Val "number" -> value_text row = SqlNull ->
   decodeValue row = Ok (Defined (Json (JNumber (Finite finite_zero))))) /\
  (value_type row = Val "boolean" ->
   decodeValue row =
     Ok (Defined (Json (JBoolean (match value_text row with
                                  | Val s => String.eqb s "true"
                                  | _ => false
                                  end))))).
Proof.
  intros bare. subst bare. unfold decodeValue.
  split; [ | split; [ | split ] ].
  - intros e.
    destruct (negb (has_column (value_type row)) && negb (has_column (value_blob row)) &&
              negb (has_column (value_text row))) eqn:Hbare.
    + split.
      * intros H. injection H as <-. left. now split.
      * intros [(_ & ->) | (H & _)]; [ reflexivity | discriminate ].
    + unfold type_is. destruct (value_type row) as [ | | ty ] eqn:Hty.
      * destruct (value_text row); split; intros H; try discriminate;
          destruct H as [(H & _) | (_ & H & _)]; discriminate.
      * destruct (value_text row); split; intros H; try discriminate;
          destruct H as [(H & _) | (_ & H & _)]; discriminate.
      * destruct (String.eqb ty "binary") eqn:Hbinary.
        { apply String.eqb_eq in Hbinary. subst ty. split; intros H; try discriminate.
          destruct H as [(H & _) | (_ & H & _)]; discriminate. }
        destruct (String.eqb ty "number") eqn:Hnumber.
        { apply String.eqb_eq in Hnumber. subst ty. split; intros H; try discriminate.
          destruct H as [(H & _) | (_ & H & _)]; discriminate. }
        destruct (String.eqb ty "boolean") eqn:Hboolean.
        { apply String.eqb_eq in Hboolean. subst ty. split; intros H; try discriminate.
          destruct H as [(H & _) | (_ & H & _)]; discriminate. }
        destruct (String.eqb ty "json") eqn:Hjson.
        { apply String.eqb_eq in Hjson. subst ty.
          destruct (JSON_parse_column (value_text row)) as [j | ]; split; intros H;
            try discriminate.
          - destruct H as [(H & _) | (_ & _ & H & _)]; discriminate.
          - injection H as <-. right. now repeat split.
          - destruct H as [(H & _) | (_ & _ & _ & ->)]; [ discriminate | reflexivity ]. }
        apply String.eqb_neq in Hjson.
        destruct (value_text row); split; intros H; try discriminate;
          destruct H as [(H & _) | (_ & H & _)]; try discriminate;
          injection H as ->; contradiction.
  - intros Hty. unfold type_is. rewrite Hty. simpl.
    split; [ reflexivity | ]. intros ->. reflexivity.
  - intros Hty Htext. unfold type_is. rewrite Hty, Htext. reflexivity.
  - intros Hty. unfold type_is. rewrite Hty. simpl.
    now destruct (value_text row).
Qed.

End CodecErrors.

(** ** The type tags *)

Section Tags.
Context `{Ext : Externals}.

(** X8.  The values that the [CHECK] constraint of the table definition
    in [init] admits for [value_type] are exactly the tags [encodeValue]
    produces: every value is encoded under one of them, and each of them
    is the tag of some value.  So the constraint never stands in the way of
    a [set]: on the engine, [set] resolves for every key, value and
    option. *)
Theorem codec_and_schema_agree :
  check_tags LibSQLKV.create_table_sql = Some ["json"; "string"; "number"; "binary"; "boolean"] /\
  (forall tags, check_tags LibSQLKV.create_table_sql = Some tags ->
     tags = SQLite.value_types /\
     (forall v : KVValue finite, In (type (encodeValue v)) tags) /\
     (forall tag, In tag tags -> exists v : KVValue finite, type (encodeValue v) = tag)) /\
  (forall k (v : KVValue finite) options fresh now (s : CoreKV.Session),
      fst (CoreKV.set SQLite.run k v options fresh now s) = Ok tt).
Proof.
  assert (Htags : check_tags LibSQLKV.create_table_sql
                  = Some ["json"; "string"; "number"; "binary"; "boolean"])
    by (vm_compute; reflexivity).
  split; [ exact Htags | ]. split.
  - intros tags H. rewrite Htags in H. injection H as <-.
    split; [ reflexivity | ]. split.
    + intros v. destruct v as [[ | | | | | ] | ]; simpl; tauto.
    + intros tag Hin. simpl in Hin.
      destruct Hin as [<- | [<- | [<- | [<- | [<- | []]]]]].
      * now exists (Json JNull).
      * now exists (Json (JString "")).
      * now exists (Json (JNumber NaN)).
      * now exists (Binary (Uint8Array_of [])).
      * now exists (Json (JBoolean true)).
  - intros k v options fresh now s. now rewrite set_on_engine.
Qed.

End Tags.
(** ** Single keys on the engine *)

Section KeysOnSQLite.
Context `{Ext : Externals}.

Lemma find_filter_head (k : string) (t : SQLite.Table) :
  head (List.filter (SQLite.has_key k) t) = row_under k t.
Proof.
  unfold row_under. induction t as [ | r t IH ]; simpl; [ reflexivity | ].
  destruct (SQLite.has_key k r); [ reflexivity | exact IH ].
Qed.

Lemma row_under_key (k : string) (t : SQLite.Table) (row : Row) :
  row_under k t = Some row -> row ∈ t /\ key row = k.
Proof.
  unfold row_under. intros H. apply find_some in H. destruct H as (Hin & Hk).
  split; [ now apply list_elem_of_In | now apply has_key_true ].
Qed.

Lemma row_under_none (k : string) (t : SQLite.Table) :
  row_under k t = None <-> forall row, row ∈ t -> key row <> k.
Proof.
  unfold row_under. split.
  - intros H row Hin Hk. apply list_elem_of_In in Hin.
    pose proof (find_none _ _ H row Hin) as Hn. apply has_key_false in Hn. contradiction.
  - intros H. destruct (List.find (SQLite.has_key k) t) as [row | ] eqn:Hf; [ | reflexivity ].
    apply find_some in Hf. destruct Hf as (Hin & Hk).
    apply has_key_true in Hk. apply list_elem_of_In in Hin. now destruct (H row Hin).
Qed.

(** [get] on the engine: what it returns and what it leaves behind. *)
Lemma get_on_engine (k : string) (now : Z) (s : CoreKV.Session) :
  CoreKV.get SQLite.run k now s =
    (read_row (row_under k (CoreKV.conn s)) now,
     let s1 := after_statement s (select_by_key k) (CoreKV.conn s) in
     match row_under k (CoreKV.conn s) with
     | Some row =>
         if CoreKV.expired row now
         then after_statement s1 (delete_by_key k)
                (List.filter (fun r => negb (SQLite.has_key k r)) (CoreKV.conn s))
         else s1
     | None => s1
     end).
Proof.
  unfold CoreKV.get, CoreKV.bind at 1.
  executed (run_select k (CoreKV.conn s)).
  rewrite <- find_filter_head. simpl rows.
  destruct (List.filter (SQLite.has_key k) (CoreKV.conn s)) as [ | row rest ]; simpl;
    [ reflexivity | ].
  destruct (CoreKV.expired row now).
  - unfold CoreKV.bind, CoreKV.catch_ignore.
    match goal with
    | |- context [CoreKV.del SQLite.run k ?s0] =>
        rewrite (del_outcome SQLite.run k s0 _ _ (run_delete k (CoreKV.conn s0)))
    end.
    reflexivity.
  - unfold CoreKV.bind, CoreKV.entry_of, CoreKV.bind, CoreKV.lift, CoreKV.ret.
    now destruct (decodeValue row).
Qed.

(** On the engine every delete by key is carried out, so a read that
    awaits its clean-up, as a transaction's does, and one that only starts
    it come to the same. *)
Lemma awaited_reads_on_engine (now : Z) (s : CoreKV.Session) :
  (forall k, KVTransaction.get SQLite.run k now s = CoreKV.get SQLite.run k now s) /\
  (forall keys, KVTransaction.getMany SQLite.run keys now s = CoreKV.getMany SQLite.run keys now s).
Proof.
  assert (Hclean : forall k s0, CoreKV.del SQLite.run k s0
                                = CoreKV.catch_ignore (CoreKV.del SQLite.run k) s0).
  { intros k s0. unfold CoreKV.catch_ignore.
    now rewrite (del_outcome SQLite.run k s0 _ _ (run_delete k (CoreKV.conn s0))). }
  split.
  - intros k. unfold KVTransaction.get, CoreKV.get, CoreKV.bind.
    destruct (CoreKV.execute SQLite.run _ _ s) as [[rs | e] s1]; [ | reflexivity ].
    destruct (rows rs) as [ | row rest ]; [ reflexivity | ].
    destruct (CoreKV.expired row now); [ | reflexivity ].
    now rewrite Hclean.
  - intros keys. unfold KVTransaction.getMany, CoreKV.getMany.
    destruct (bool_decide (length keys = 0%nat)); [ reflexivity | ].
    unfold CoreKV.bind.
    destruct (CoreKV.execute SQLite.run _ _ s) as [[rs | e] s1]; [ | reflexivity ].
    now rewrite (collect_live_same _ _ (rows rs) now Hclean).
Qed.

Lemma and_snoc4 (A B C D E : Prop) : A /\ B /\ C /\ D -> E -> A /\ B /\ C /\ D /\ E.
Proof. tauto. Qed.

Lemma row_under_filter_other (k k' : string) (t : SQLite.Table) :
  k' <> k ->
  row_under k' (List.filter (fun r => negb (SQLite.has_key k r)) t) = row_under k' t.
Proof.
  intros Hk. unfold row_under. induction t as [ | r t IH ]; simpl; [ reflexivity | ].
  destruct (SQLite.has_key k r) eqn:Hr; simpl.
  - apply has_key_true in Hr.
    replace (SQLite.has_key k' r) with false; [ exact IH | ].
    symmetry. apply has_key_false. congruence.
  - now rewrite IH.
Qed.

Lemma row_under_filter_same (k : string) (t : SQLite.Table) :
  row_under k (List.filter (fun r => negb (SQLite.has_key k r)) t) = None.
Proof.
  apply row_under_none. intros row Hin Hk.
  apply list_elem_of_In, filter_In in Hin. destruct Hin as (_ & Hn).
  apply has_key_true in Hk. rewrite Hk in Hn. discriminate.
Qed.

Lemma row_under_upsert_other (row : Row) (k' : string) (t : SQLite.Table) :
  k' <> key row -> row_under k' (SQLite.upsert row t) = row_under k' t.
Proof.
  intros Hk. unfold row_under, SQLite.upsert.
  assert (Hrow : SQLite.has_key k' row = false) by (apply has_key_false; congruence).
  destruct (existsb (SQLite.has_key (key row)) t).
  - induction t as [ | r t IH ]; simpl; [ reflexivity | ].
    destruct (SQLite.has_key (key row) r) eqn:Hr.
    + rewrite Hrow. apply has_key_true in Hr.
      replace (SQLite.has_key k' r) with false; [ exact IH | ].
      symmetry. apply has_key_false. congruence.
    + destruct (SQLite.has_key k' r); [ reflexivity | exact IH ].
  - induction t as [ | r t IH ]; simpl; [ now rewrite Hrow | ].
    destruct (SQLite.has_key k' r); [ reflexivity | exact IH ].
Qed.

Lemma filter_without_key (k : string) (t : SQLite.Table) :
  row_under k t = None -> List.filter (fun r => negb (SQLite.has_key k r)) t = t.
Proof.
  unfold row_under. induction t as [ | r t IH ]; simpl; [ reflexivity | ].
  destruct (SQLite.has_key k r); [ discriminate | ]. simpl. intros H. now rewrite IH.
Qed.

(** X10.  What a [get] on the engine leaves behind, once the delete it
    has started is carried out.  When it returns [null], no row is left
    under the key: there was none, or the row had expired and the read has
    deleted it.  When it returns anything else, an entry or an error of the
    codec, the table is as it was.  Rows under other keys are never
    touched.  The store starts that delete without awaiting it and a
    transaction awaits it; on the engine the two reads return the same and
    leave the same behind, so all of this holds of a transaction's [get]
    as it stands. *)
Theorem get_null_leaves_no_row (k : string) (now : Z) (s : CoreKV.Session) :
  let outcome := fst (CoreKV.get SQLite.run k now s) in
  let left := CoreKV.conn (snd (CoreKV.get SQLite.run k now s)) in
  (outcome = Ok None -> forall row, row ∈ left -> key row <> k) /\
  (outcome <> Ok None -> left = CoreKV.conn s) /\
  (forall k', k' <> k -> row_under k' left = row_under k' (CoreKV.conn s)) /\
  (forall row, row ∈ left -> row ∈ CoreKV.conn s) /\
  KVTransaction.get SQLite.run k now s = CoreKV.get SQLite.run k now s.
Proof.
  intros outcome left. subst outcome left.
  apply and_snoc4; [ | apply awaited_reads_on_engine ].
  rewrite get_on_engine. cbn [fst snd].
  destruct (row_under k (CoreKV.conn s)) as [row | ] eqn:Hrow; cbn [read_row].
  - destruct (CoreKV.expired row now); cbn [CoreKV.conn after_statement].
    + repeat split_and.
      * intros _. apply row_under_none, row_under_filter_same.
      * intros H. now destruct H.
      * intros k' Hk'. now apply row_under_filter_other.
      * intros r Hin. apply list_elem_of_In, filter_In in Hin. now apply list_elem_of_In.
    + repeat split_and; try reflexivity; try tauto.
      intros H. destruct (decodeValue row); discriminate.
  - cbn [CoreKV.conn after_statement]. repeat split_and; try reflexivity; try tauto.
    intros _. now apply row_under_none.
Qed.

(** X11.  [del] on the engine resolves whether there is a row or not;
    after it [get] of the key returns [null] at every instant, and [get] of
    any other key returns what it returned before.  Deleting a key that is
    not there leaves the table as it was. *)
Theorem del_removes_the_key (k : string) (s : CoreKV.Session) :
  let s' := snd (CoreKV.del SQLite.run k s) in
  fst (CoreKV.del SQLite.run k s) = Ok tt /\
  (forall now, fst (CoreKV.get SQLite.run k now s') = Ok None) /\
  (forall k' now, k' <> k ->
     fst (CoreKV.get SQLite.run k' now s') = fst (CoreKV.get SQLite.run k' now s)) /\
  (row_under k (CoreKV.conn s) = None -> CoreKV.conn s' = CoreKV.conn s).
Proof.
  intros s'. subst s'.
  rewrite (del_outcome SQLite.run k s _ _ (run_delete k (CoreKV.conn s))). cbn [fst snd].
  split; [ reflexivity | ]. repeat split_and.
  - intros now. rewrite get_on_engine. cbn [fst CoreKV.conn after_statement].
    now rewrite row_under_filter_same.
  - intros k' now Hk'. rewrite !get_on_engine. cbn [fst CoreKV.conn after_statement].
    now rewrite row_under_filter_other.
  - intros Hnone. cbn [CoreKV.conn after_statement]. now apply filter_without_key.
Qed.

Lemma upsert_length (row : Row) (t : SQLite.Table) :
  length (SQLite.upsert row t) =
    (length t + if existsb (SQLite.has_key (key row)) t then 0 else 1)%nat.
Proof.
  unfold SQLite.upsert. destruct (existsb (SQLite.has_key (key row)) t).
  - rewrite length_map. lia.
  - now rewrite length_app.
Qed.

Lemma existsb_row_under (k : string) (t : SQLite.Table) :
  existsb (SQLite.has_key k) t = match row_under k t with Some _ => true | None => false end.
Proof.
  unfold row_under. induction t as [ | r t IH ]; simpl; [ reflexivity | ].
  now destruct (SQLite.has_key k r).
Qed.

(** X12.  [set] on the engine touches the rows of its own key only:
    [get] of any other key returns what it returned before, at every
    instant.  The table grows by one row when the key is new and keeps its
    size when the key is there already. *)
Theorem set_touches_its_key_only (k : string) (v : KVValue finite) (options : option SetOptions)
    (fresh : string) (now : Z) (s : CoreKV.Session) :
  let s' := snd (CoreKV.set SQLite.run k v options fresh now s) in
  (forall k' now', k' <> k ->
     fst (CoreKV.get SQLite.run k' now' s') = fst (CoreKV.get SQLite.run k' now' s)) /\
  length (CoreKV.conn s') =
    (length (CoreKV.conn s) +
     match row_under k (CoreKV.conn s) with Some _ => 0 | None => 1 end)%nat.
Proof.
  intros s'. subst s'. rewrite set_on_engine. cbn [snd CoreKV.conn]. split.
  - intros k' now' Hk'. rewrite !get_on_engine. cbn [fst CoreKV.conn].
    now rewrite row_under_upsert_other.
  - rewrite upsert_length. cbn [key row_of]. rewrite existsb_row_under.
    now destruct (row_under k (CoreKV.conn s)).
Qed.

End KeysOnSQLite.
(** ** The primary key *)

Section PrimaryKey.
Context `{Ext : Externals}.

(** What a statement can do to the table: nothing, remove rows, or upsert
    one row. *)
Lemma run_plan_table (plan : SQLite.Plan) (arguments : list (InValue finite))
    (t : SQLite.Table) :
  let t' := snd (SQLite.run_plan plan arguments t) in
  t' = t \/ (exists drop, t' = List.filter (fun r => negb (drop r)) t) \/
  (exists row, t' = SQLite.upsert row t).
Proof.
  unfold SQLite.run_plan, SQLite.unsupported, SQLite.select, SQLite.delete.
  repeat match goal with
         | |- context [match ?x with _ => _ end] => destruct x
         end; cbn [snd]; eauto.
Qed.

Lemma run_table (stmt : Statement finite) (t : SQLite.Table) :
  let t' := snd (SQLite.run stmt t) in
  t' = t \/ (exists drop, t' = List.filter (fun r => negb (drop r)) t) \/
  (exists row, t' = SQLite.upsert row t).
Proof.
  unfold SQLite.run. destruct (SQLite.prepare (sql stmt)) as [plan | ]; [ | now left ].
  destruct (bool_decide _); [ apply run_plan_table | now left ].
Qed.


Lemma unique_keys_filter (keep : Row -> bool) (t : SQLite.Table) :
  unique_keys t -> unique_keys (List.filter keep t).
Proof.
  unfold unique_keys. induction t as [ | r t IH ]; simpl; [ constructor | ].
  intros H. apply NoDup_cons in H. destruct H as (Hr & Ht).
  destruct (keep r); [ | now apply IH ].
  simpl. apply NoDup_cons. split; [ | now apply IH ].
  intros Hin. apply Hr. apply list_elem_of_fmap in Hin. destruct Hin as (x & Hx & Hin).
  apply list_elem_of_fmap. exists x. split; [ exact Hx | ].
  apply list_elem_of_In. apply list_elem_of_In, filter_In in Hin. tauto.
Qed.

Lemma upsert_keys (row : Row) (t : SQLite.Table) :
  List.map key (SQLite.upsert row t) =
    if existsb (SQLite.has_key (key row)) t then List.map key t
    else List.map key t ++ [key row].
Proof.
  unfold SQLite.upsert. destruct (existsb (SQLite.has_key (key row)) t).
  - rewrite List.map_map. apply map_ext. intros r.
    destruct (SQLite.has_key (key row) r) eqn:Hr; [ | reflexivity ].
    apply has_key_true in Hr. now symmetry.
  - now rewrite List.map_app.
Qed.

Lemma unique_keys_upsert (row : Row) (t : SQLite.Table) :
  unique_keys t -> unique_keys (SQLite.upsert row t).
Proof.
  unfold unique_keys. intros H. rewrite upsert_keys.
  destruct (existsb (SQLite.has_key (key row)) t) eqn:Hex; [ exact H | ].
  apply NoDup_app. split; [ exact H | ]. split; [ | apply NoDup_singleton ].
  intros k Hk Hin. apply list_elem_of_singleton in Hin. subst k.
  apply list_elem_of_fmap in Hk. destruct Hk as (r & Hr & Hin).
  assert (existsb (SQLite.has_key (key row)) t = true); [ | congruence ].
  apply existsb_exists. exists r. split; [ now apply list_elem_of_In | ].
  now apply has_key_true.
Qed.

Lemma unique_keys_run (stmt : Statement finite) (t : SQLite.Table) :
  unique_keys t -> unique_keys (snd (SQLite.run stmt t)).
Proof.
  intros H. destruct (run_table stmt t) as [-> | [(drop & ->) | (row & ->)]].
  - exact H.
  - now apply unique_keys_filter.
  - now apply unique_keys_upsert.
Qed.

End PrimaryKey.

Section Keeping.
Context `{Ext : Externals} {Conn : Type}.
Variable run : Statement finite -> Conn -> result ResultSet * Conn.
Variable I : Conn -> Prop.
Hypothesis run_keeps : forall stmt c, I c -> I (snd (run stmt c)).

Lemma keeps_ret {A} (a : A) : keeps I (CoreKV.ret (Conn:=Conn) a).
Proof. intros s H. exact H. Qed.

Lemma keeps_lift {A} (r : result A) : keeps I (CoreKV.lift (Conn:=Conn) r).
Proof. intros s H. exact H. Qed.

Lemma keeps_bind {A B} (m : CoreKV.M (Conn:=Conn) A) (k : A -> CoreKV.M (Conn:=Conn) B) :
  keeps I m -> (forall a, keeps I (k a)) -> keeps I (CoreKV.bind m k).
Proof.
  intros Hm Hk s H. unfold CoreKV.bind. specialize (Hm s H).
  destruct (m s) as [[a | e] s1]; simpl in Hm; [ now apply Hk | exact Hm ].
Qed.

Lemma keeps_execute (text : string) (arguments : list (InValue finite)) :
  keeps I (CoreKV.execute run text arguments).
Proof.
  intros s H. unfold CoreKV.execute.
  pose proof (run_keeps {| sql := text; args := arguments |} (CoreKV.conn s) H) as Hrun.
  now destruct (run _ (CoreKV.conn s)) as [r c].
Qed.

Lemma keeps_catch_ignore (m : CoreKV.M (Conn:=Conn) unit) :
  keeps I m -> keeps I (CoreKV.catch_ignore m).
Proof. intros Hm s H. exact (Hm s H). Qed.

Lemma keeps_del (k : string) : keeps I (CoreKV.del run k).
Proof. apply keeps_bind; [ apply keeps_execute | intros _; apply keeps_ret ]. Qed.

Lemma keeps_entry_of (row : Row) : keeps I (CoreKV.entry_of (Conn:=Conn) row).
Proof. apply keeps_bind; [ apply keeps_lift | intros v; apply keeps_ret ]. Qed.

Lemma keeps_map_rows (rs : list Row) : keeps I (CoreKV.map_rows (Conn:=Conn) rs).
Proof.
  induction rs as [ | row rs IH ]; simpl; [ apply keeps_ret | ].
  apply keeps_bind; [ apply keeps_entry_of | intros e ].
  apply keeps_bind; [ exact IH | intros es; apply keeps_ret ].
Qed.

Lemma keeps_map_keys (map : gmap string Row) (keys : list string) :
  keeps I (CoreKV.map_keys (Conn:=Conn) map keys).
Proof.
  induction keys as [ | k keys IH ]; simpl; [ apply keeps_ret | ].
  apply keeps_bind.
  - destruct (map !! k) as [row | ]; [ | apply keeps_ret ].
    apply keeps_bind; [ apply keeps_entry_of | intros e; apply keeps_ret ].
  - intros slot. apply keeps_bind; [ exact IH | intros slots; apply keeps_ret ].
Qed.

Lemma keeps_collect_live (clean : string -> CoreKV.M (Conn:=Conn) unit) (rs : list Row)
    (now : Z) :
  (forall k, keeps I (clean k)) ->
  forall map, keeps I (CoreKV.collect_live clean rs now map).
Proof.
  intros Hclean. induction rs as [ | row rs IH ]; intros map; simpl.
  - apply keeps_ret.
  - destruct (CoreKV.expired row now); [ | apply IH ].
    apply keeps_bind; [ apply Hclean | intros _; apply IH ].
Qed.

(** Every operation keeps what every statement keeps. *)
Lemma operations_keep :
  (forall key now, keeps I (CoreKV.get run key now)) /\
  (forall keys now, keeps I (CoreKV.getMany run keys now)) /\
  (forall key value options fresh now, keeps I (CoreKV.set run key value options fresh now)) /\
  (forall key, keeps I (CoreKV.del run key)) /\
  (forall now, keeps I (CoreKV.cleanupExpired run now)) /\
  (forall options now, keeps I (CoreKV.list run options now)) /\
  (forall key now, keeps I (KVTransaction.get run key now)) /\
  (forall keys now, keeps I (KVTransaction.getMany run keys now)).
Proof.
  repeat split_and.
  - intros key now. apply keeps_bind; [ apply keeps_execute | intros rs ].
    destruct (rows rs) as [ | row rest ]; [ apply keeps_ret | ].
    destruct (CoreKV.expired row now).
    + apply keeps_bind; [ apply keeps_catch_ignore, keeps_del | intros _; apply keeps_ret ].
    + apply keeps_bind; [ apply keeps_entry_of | intros e; apply keeps_ret ].
  - intros keys now. unfold CoreKV.getMany.
    destruct (bool_decide (length keys = 0%nat)); [ apply keeps_ret | ].
    apply keeps_bind; [ apply keeps_execute | intros rs ].
    apply keeps_bind; [ | intros map; apply keeps_map_keys ].
    apply keeps_collect_live. intros k. apply keeps_catch_ignore, keeps_del.
  - intros key value options fresh now.
    apply keeps_bind; [ apply keeps_execute | intros _; apply keeps_ret ].
  - apply keeps_del.
  - intros now. apply keeps_bind; [ apply keeps_execute | intros _; apply keeps_ret ].
  - intros options now. apply keeps_bind; [ apply keeps_lift | intros stmt ].
    apply keeps_bind; [ apply keeps_execute | intros rs; apply keeps_map_rows ].
  - intros key now. apply keeps_bind; [ apply keeps_execute | intros rs ].
    destruct (rows rs) as [ | row rest ]; [ apply keeps_ret | ].
    destruct (CoreKV.expired row now).
    + apply keeps_bind; [ apply keeps_del | intros _; apply keeps_ret ].
    + apply keeps_bind; [ apply keeps_entry_of | intros e; apply keeps_ret ].
  - intros keys now. unfold KVTransaction.getMany.
    destruct (bool_decide (length keys = 0%nat)); [ apply keeps_ret | ].
    apply keeps_bind; [ apply keeps_execute | intros rs ].
    apply keeps_bind; [ | intros map; apply keeps_map_keys ].
    apply keeps_collect_live. intros k. apply keeps_del.
Qed.

End Keeping.

Section UniqueKeys.
Context `{Ext : Externals}.

(** X14.  The key is a primary key, and stays one: if no two rows of
    the table have the same key, then no two rows have the same key after
    any operation of the store, whatever its arguments and whatever its
    outcome.  The empty table is such a table, so every table reached from
    it by operations of the store is. *)
Theorem keys_stay_unique (s : CoreKV.Session) :
  unique_keys (CoreKV.conn s) ->
  let after {A} (m : CoreKV.M A) := unique_keys (CoreKV.conn (snd (m s))) in
  unique_keys [] /\
  (forall key now, after (CoreKV.get SQLite.run key now)) /\
  (forall keys now, after (CoreKV.getMany SQLite.run keys now)) /\
  (forall key value options fresh now,
      after (CoreKV.set SQLite.run key value options fresh now)) /\
  (forall key, after (CoreKV.del SQLite.run key)) /\
  (forall now, after (CoreKV.cleanupExpired SQLite.run now)) /\
  (forall options now, after (CoreKV.list SQLite.run options now)) /\
  (forall key now, after (KVTransaction.get SQLite.run key now)) /\
  (forall keys now, after (KVTransaction.getMany SQLite.run keys now)).
Proof.
  intros Hs after. subst after.
  destruct (operations_keep SQLite.run unique_keys unique_keys_run)
    as (Hget & Hmany & Hset & Hdel & Hclean & Hlist & Htget & Htmany).
  split; [ constructor | ].
  repeat split_and; intros.
  - now apply Hget.
  - now apply Hmany.
  - now apply Hset.
  - now apply Hdel.
  - now apply Hclean.
  - now apply Hlist.
  - now apply Htget.
  - now apply Htmany.
Qed.

End UniqueKeys.
(** ** Several keys on the engine *)

Section ManyOnSQLite.
Context `{Ext : Externals}.

Lemma eqb_append_false (p rest whole : string) :
  SQLite.strip p whole = None -> String.eqb (p +:+ rest) whole = false.
Proof.
  intros Hstrip. apply String.eqb_neq. intros H. rewrite <- H in Hstrip.
  rewrite strip_append in Hstrip. discriminate.
Qed.

Lemma marks_step (n : nat) :
  join "," (replicate (S (S n)) "?") = "?," +:+ join "," (replicate (S n) "?").
Proof. reflexivity. Qed.

Lemma parse_marks (n fuel : nat) :
  (n < fuel)%nat ->
  SQLite.parse_placeholders fuel (join "," (replicate (S n) "?") +:+ ")") = Some (S n).
Proof.
  revert fuel. induction n as [ | n IH ]; intros fuel Hfuel;
    (destruct fuel as [ | fuel ]; [ lia | ]).
  - reflexivity.
  - rewrite marks_step, append_assoc.
    change (SQLite.parse_placeholders (S fuel)
              ("?," +:+ join "," (replicate (S n) "?") +:+ ")"))
      with (S <$> SQLite.parse_placeholders fuel (join "," (replicate (S n) "?") +:+ ")")).
    rewrite IH by lia. reflexivity.
Qed.

Lemma append_length (a b : string) :
  String.length (a +:+ b) = (String.length a + String.length b)%nat.
Proof.
  induction a as [ | x a IH ]; [ reflexivity | ].
  change (String x a +:+ b) with (String x (a +:+ b)). simpl. now rewrite IH.
Qed.

Lemma marks_length (n : nat) : (n <= String.length (join "," (replicate n "?")))%nat.
Proof.
  induction n as [ | n IH ]; [ simpl; lia | ].
  destruct n as [ | n ]; [ simpl; lia | ].
  rewrite marks_step, append_length. simpl String.length at 1. lia.
Qed.

Lemma prepare_select_by_keys (n : nat) :
  SQLite.prepare ("SELECT * FROM kv_store WHERE key IN (" +:+
                    join "," (replicate (S n) "?") +:+ ")")
    = Some (SQLite.SelectByKeys (S n)).
Proof.
  unfold SQLite.prepare.
  rewrite !eqb_append_false by reflexivity.
  rewrite strip_append, parse_marks; [ reflexivity | ].
  rewrite append_length. pose proof (marks_length (S n)). simpl String.length at 2. lia.
Qed.

Lemma texts_of_keys (keys : list string) :
  SQLite.texts (List.map (IText (F:=finite)) keys) = Some keys.
Proof. induction keys as [ | k keys IH ]; simpl; [ reflexivity | now rewrite IH ]. Qed.

(** The look-up of [getMany] on the engine. *)
Lemma run_select_by_keys (keys : list string) (t : SQLite.Table) :
  keys <> [] ->
  SQLite.run (select_by_keys keys) t =
    (Ok {| rows := List.filter (fun r => existsb (String.eqb (key r)) keys) t |}, t).
Proof.
  intros Hkeys. destruct keys as [ | k keys ]; [ contradiction | ].
  unfold SQLite.run, select_by_keys. cbn [sql args length].
  rewrite prepare_select_by_keys. cbn [SQLite.arity].
  rewrite length_map. cbn [length]. rewrite bool_decide_eq_true_2 by reflexivity.
  unfold SQLite.run_plan. now rewrite texts_of_keys.
Qed.

Lemma row_under_filter_keys (k : string) (keys : list string) (t : SQLite.Table) :
  k ∈ keys ->
  row_under k (List.filter (fun r => existsb (String.eqb (key r)) keys) t) = row_under k t.
Proof.
  intros Hk. unfold row_under. induction t as [ | r t IH ]; simpl; [ reflexivity | ].
  destruct (SQLite.has_key k r) eqn:Hr.
  - replace (existsb (String.eqb (key r)) keys) with true.
    + simpl. now rewrite Hr.
    + symmetry. apply existsb_exists. exists k.
      split; [ now apply list_elem_of_In | ].
      apply has_key_true in Hr. rewrite Hr. apply String.eqb_refl.
  - destruct (existsb (String.eqb (key r)) keys); [ | exact IH ].
    simpl. now rewrite Hr.
Qed.

(** The [Map] of [getMany] over rows with distinct keys. *)
Lemma live_rows_unique (rs : list Row) (now : Z) (k : string) :
  unique_keys rs ->
  forall map : gmap string Row,
    live_rows rs now map !! k =
      match row_under k rs with
      | Some row => if CoreKV.expired row now then map !! k else Some row
      | None => map !! k
      end.
Proof.
  unfold unique_keys, row_under.
  induction rs as [ | r rs IH ]; intros Hu map; simpl; [ reflexivity | ].
  apply NoDup_cons in Hu. destruct Hu as (Hr & Hu).
  destruct (SQLite.has_key k r) eqn:Hk.
  - apply has_key_true in Hk. subst k.
    assert (Hnone : List.find (SQLite.has_key (key r)) rs = None).
    { apply row_under_none. intros row Hin Hkey. apply Hr.
      apply list_elem_of_fmap. now exists row. }
    destruct (CoreKV.expired r now); rewrite (IH Hu), Hnone; [ reflexivity | ].
    apply lookup_insert_eq.
  - apply has_key_false in Hk.
    destruct (CoreKV.expired r now); rewrite (IH Hu); [ reflexivity | ].
    destruct (List.find (SQLite.has_key k) rs) as [row | ];
      [ destruct (CoreKV.expired row now) | ];
      try reflexivity; now apply lookup_insert_ne.
Qed.

Lemma getMany_on_engine (keys : list string) (now : Z) (s : CoreKV.Session) :
  keys <> [] ->
  fst (CoreKV.getMany SQLite.run keys now s) =
    all_ok (List.map
              (slot_for (live_rows
                           (List.filter (fun r => existsb (String.eqb (key r)) keys)
                                        (CoreKV.conn s)) now ∅))
              keys).
Proof.
  intros Hkeys.
  exact (getMany_outcome SQLite.run keys now s _ _ Hkeys
           (run_select_by_keys keys (CoreKV.conn s) Hkeys)).
Qed.

(** X15.  On a table without two rows under one key, [getMany] returns
    for each key what [get] returns for it at the same instant: the slots
    are the outcomes of the single reads, in the order of the keys, and
    [getMany] rejects with the first error among them.  Of no keys it
    returns the empty list. *)
Theorem getMany_is_get_of_each (keys : list string) (now : Z) (s : CoreKV.Session) :
  unique_keys (CoreKV.conn s) ->
  fst (CoreKV.getMany SQLite.run keys now s) =
    all_ok (List.map (fun k => fst (CoreKV.get SQLite.run k now s)) keys).
Proof.
  intros Hu. destruct keys as [ | k0 keys0 ]; [ reflexivity | ].
  set (keys := k0 :: keys0).
  rewrite getMany_on_engine by discriminate. f_equal.
  apply map_ext_in. intros k Hk. apply list_elem_of_In in Hk.
  rewrite get_on_engine. cbn [fst]. unfold slot_for.
  rewrite live_rows_unique by now apply unique_keys_filter.
  rewrite (row_under_filter_keys k keys (CoreKV.conn s) Hk), lookup_empty.
  unfold read_row.
  destruct (row_under k (CoreKV.conn s)) as [row | ]; [ | reflexivity ].
  destruct (CoreKV.expired row now); reflexivity.
Qed.

End ManyOnSQLite.
(** ** The engine reads every statement of [list] *)

Section ReadingList.
Context `{Ext : Externals}.

Lemma populated_plans (sh : FilterShape) :
  populated sh = true ->
  exists t e, shape_text sh = Some t /\ plan_expr sh = Some e.
Proof.
  induction sh as [op | op conditions IH] using FilterShape_induction; intros Hp.
  - simpl. eauto.
  - assert (Heach : forallb populated conditions = true ->
                    exists ts es, each_text shape_text conditions = Some ts /\
                                  each_plan plan_expr conditions = Some es /\
                                  length es = length conditions).
    { clear Hp. induction IH as [ | sh shs Hsh _ IHshs ]; intros Hall; simpl.
      - exists [], []. now repeat split.
      - simpl in Hall. apply andb_true_iff in Hall. destruct Hall as (H1 & H2).
        destruct (Hsh H1) as (t & e & -> & ->).
        destruct (IHshs H2) as (ts & es & -> & -> & Hlen).
        exists (t :: ts), (e :: es). repeat split. simpl. now rewrite Hlen. }
    destruct op.
    + destruct conditions as [ | first rest ]; [ discriminate | ].
      destruct (Heach Hp) as (ts & es & Hts & Hes & Hlen).
      rewrite shape_text_junction, plan_expr_junction by discriminate.
      rewrite Hts, Hes. destruct es as [ | e es ]; [ discriminate | ]. eauto.
    + destruct conditions as [ | first rest ]; [ discriminate | ].
      destruct (Heach Hp) as (ts & es & Hts & Hes & Hlen).
      rewrite shape_text_junction, plan_expr_junction by discriminate.
      rewrite Hts, Hes. destruct es as [ | e es ]; [ discriminate | ]. eauto.
    + destruct conditions as [ | first rest ]; [ discriminate | ].
      apply Forall_inv in IH. simpl in Hp.
      destruct (IH Hp) as (t & e & Ht & He). simpl. rewrite Ht, He. eauto.
Qed.

Lemma join_length (sep : string) (shs : list FilterShape) :
  (1 <= String.length sep)%nat ->
  Forall (fun sh => forall t, shape_text sh = Some t -> (weight sh <= String.length t)%nat) shs ->
  forall ts, each_text shape_text shs = Some ts ->
    (each_weight weight shs <= String.length (join sep ts) + 1)%nat.
Proof.
  intros Hsep. induction 1 as [ | sh shs Hsh _ IH ]; intros ts Hts; simpl in *.
  - injection Hts as <-. simpl. lia.
  - destruct (shape_text sh) as [t | ]; [ | discriminate ].
    destruct (each_text shape_text shs) as [ts' | ] eqn:Hts'; [ | discriminate ].
    injection Hts as <-. specialize (Hsh t eq_refl). specialize (IH ts' eq_refl).
    destruct ts' as [ | t2 ts2 ].
    + assert (shs = []) as ->.
      { destruct shs as [ | x xs ]; [ reflexivity | ]. simpl in Hts'.
        destruct (shape_text x); [ | discriminate ].
        destruct (each_text shape_text xs); discriminate. }
      simpl. lia.
    + change (join sep (t :: t2 :: ts2)) with (t +:+ sep +:+ join sep (t2 :: ts2)).
      rewrite !append_length. lia.
Qed.

Lemma weight_length (sh : FilterShape) (t : string) :
  shape_text sh = Some t -> (weight sh <= String.length t)%nat.
Proof.
  revert t. induction sh as [op | op conditions IH] using FilterShape_induction; intros t Ht.
  - simpl in Ht. injection Ht as <-. rewrite append_length. simpl. lia.
  - assert (Hjunction : forall sep first rest ts,
              (1 <= String.length sep)%nat -> conditions = first :: rest ->
              each_text shape_text conditions = Some ts ->
              (S (Nat.max (weight first) (each_weight weight rest))
               <= String.length ("(" +:+ join sep ts +:+ ")"))%nat).
    { intros sep first rest ts Hsep -> Hts.
      apply Forall_cons in IH. destruct IH as (IH1 & IHs).
      simpl in Hts.
      destruct (shape_text first) as [t1 | ] eqn:Ht1; [ | discriminate ].
      destruct (each_text shape_text rest) as [ts' | ] eqn:Hts'; [ | discriminate ].
      injection Hts as <-. specialize (IH1 t1 eq_refl).
      pose proof (join_length sep rest Hsep IHs ts' Hts') as Hrest.
      rewrite !append_length. simpl String.length at 1 3.
      destruct ts' as [ | t2 ts2 ].
      - assert (rest = []) as ->.
        { destruct rest as [ | x xs ]; [ reflexivity | ]. simpl in Hts'.
          destruct (shape_text x); [ | discriminate ].
          destruct (each_text shape_text xs); discriminate. }
        simpl. lia.
      - change (join sep (t1 :: t2 :: ts2)) with (t1 +:+ sep +:+ join sep (t2 :: ts2)).
        rewrite !append_length. lia. }
    destruct op.
    + rewrite shape_text_junction in Ht by discriminate.
      destruct (each_text shape_text conditions) as [ts | ] eqn:Hts; [ | discriminate ].
      injection Ht as <-.
      destruct conditions as [ | first rest ].
      * simpl in Hts. injection Hts as <-. simpl. lia.
      * simpl weight. apply (Hjunction " AND " first rest ts); [ simpl; lia | reflexivity | reflexivity ].
    + rewrite shape_text_junction in Ht by discriminate.
      destruct (each_text shape_text conditions) as [ts | ] eqn:Hts; [ | discriminate ].
      injection Ht as <-.
      destruct conditions as [ | first rest ].
      * simpl in Hts. injection Hts as <-. simpl. lia.
      * simpl weight. apply (Hjunction " OR " first rest ts); [ simpl; lia | reflexivity | reflexivity ].
    + destruct conditions as [ | first rest ]; [ discriminate | ].
      apply Forall_inv in IH. simpl in Ht.
      destruct (shape_text first) as [inner | ] eqn:Hinner; [ | discriminate ].
      injection Ht as <-. specialize (IH inner eq_refl).
      simpl weight. rewrite !append_length. simpl. lia.
Qed.

Lemma prepare_list_prefix (rest : string) :
  SQLite.prepare
    ("SELECT * FROM kv_store WHERE 1=1 AND (expires_at IS NULL OR expires_at > ?)" +:+ rest)
  = SQLite.parse_list
      ("SELECT * FROM kv_store WHERE 1=1 AND (expires_at IS NULL OR expires_at > ?)" +:+ rest).
Proof.
  unfold SQLite.prepare. rewrite !eqb_append_false by reflexivity. reflexivity.
Qed.

Lemma parse_filter_callback (tree : FilterShape) (t : string) (e : SQLite.Expr) (rest : string) :
  Forall (fun op => In op safeOps) (shape_operators tree) ->
  shape_text tree = Some t -> plan_expr tree = Some e ->
  SQLite.parse_filter ((" AND value_type = 'json' AND (" +:+ t +:+ ")") +:+ rest)
    = Some (Some e, rest).
Proof.
  intros Hsafe Ht He. unfold SQLite.parse_filter.
  rewrite !append_assoc.
  change (" AND value_type = 'json' AND (" +:+ t +:+ ")" +:+ rest)
    with (" AND value_type = 'json' AND " +:+ "(" +:+ t +:+ ")" +:+ rest).
  rewrite !strip_append.
  rewrite (reads_every_shape tree Hsafe t e Ht He _ (")" +:+ rest)).
  - now rewrite strip_append.
  - rewrite append_length. pose proof (weight_length tree t Ht). lia.
Qed.

(** The statement of [list] for options of a given shape is read by the
    engine as the plan of that shape. *)
Lemma prepare_list_text (sh : Shape) (text : string) (plan : SQLite.Plan) :
  shape_safe (where_shape sh) ->
  list_text sh = Some text -> plan_of sh = Some plan ->
  SQLite.prepare text = Some plan.
Proof.
  destruct sh as [wp wl d w]. unfold list_text, plan_of. simpl.
  destruct w as [ | op | tree ]; simpl.
  - intros _ H1 H2. injection H1 as <-. injection H2 as <-.
    destruct wp, wl, d; vm_compute; reflexivity.
  - intros Hop H1 H2. injection H1 as <-. injection H2 as <-.
    destruct Hop as [<- | [<- | [<- | [<- | [<- | []]]]]];
      destruct wp, wl, d; vm_compute; reflexivity.
  - intros Hsafe H1 H2.
    destruct (shape_text tree) as [t | ] eqn:Ht; [ | discriminate ].
    destruct (plan_expr tree) as [e | ] eqn:He; [ | discriminate ].
    injection H1 as <-. injection H2 as <-.
    rewrite prepare_list_prefix. unfold SQLite.parse_list. rewrite strip_append.
    destruct wp.
    + unfold SQLite.optional at 1. rewrite strip_append.
      rewrite (parse_filter_callback tree t e _ Hsafe Ht He).
      destruct wl, d; reflexivity.
    + change (SQLite.optional " AND key LIKE ?"
                ("" +:+ (" AND value_type = 'json' AND (" +:+ t +:+ ")") +:+
                 " ORDER BY key " +:+ (if d then "DESC" else "ASC") +:+
                 (if wl then " LIMIT ?" else "")))
        with (false, (" AND value_type = 'json' AND (" +:+ t +:+ ")") +:+
                 " ORDER BY key " +:+ (if d then "DESC" else "ASC") +:+
                 (if wl then " LIMIT ?" else "")).
      cbv iota. rewrite (parse_filter_callback tree t e _ Hsafe Ht He).
      destruct wl, d; reflexivity.
Qed.

End ReadingList.
(** ** [list] on the engine *)

Section ListOnSQLite.
Context `{Ext : Externals}.

Lemma shape_of_safe (options : ListOptions finite) : shape_safe (where_shape (shape_of options)).
Proof.
  destruct options as [p l c [[cond | callback] | ] r]; simpl.
  - apply checked_operator_safe.
  - eapply Forall_impl; [ apply shape_operators_safe | ].
    intros op Hop. simpl in Hop. apply list_elem_of_In in Hop. exact Hop.
  - exact I.
Qed.

Lemma list_statement_args (options : ListOptions finite) (now : Z) (stmt : Statement finite) :
  CoreKV.list_statement options now = Ok stmt ->
  args stmt =
    IInteger now ::
    match pattern_of options with Some pattern => [IText pattern] | None => [] end ++
    where_args options ++
    match limit_of options with Some l => [IInteger l] | None => [] end.
Proof.
  destruct options as [p l c w r].
  unfold CoreKV.list_statement, pattern_of, limit_of, where_args. simpl.
  intros H.
  destruct w as [[cond | callback] | ]; simpl in H;
    [ | unfold the_combinators;
        destruct (CoreKV.buildWhereSql _) as [frag | e] eqn:Hfrag; simpl in H;
        [ | destruct p as [p | ]; [ destruct (String.eqb p "") | ]; discriminate ] | ];
    (destruct p as [p | ]; [ destruct (String.eqb p "") | ]);
    (destruct l as [n | ]; [ destruct (Z.eqb n 0) | ]);
    simpl in H; injection H as <-; simpl; rewrite <- ?app_assoc; simpl;
    rewrite ?app_nil_r; reflexivity.
Qed.

Lemma build_each_arity (conditions : list (Filter finite)) :
  Forall (fun f => forall frag e, CoreKV.buildWhereSql f = Ok frag ->
                     plan_expr (filter_shape f) = Some e ->
                     SQLite.expr_arity e = length (CoreKV.frag_args frag))
         conditions ->
  forall parts arguments parts' arguments' es,
    CoreKV.build_each CoreKV.buildWhereSql conditions parts arguments = Ok (parts', arguments') ->
    each_plan plan_expr (List.map filter_shape conditions) = Some es ->
    length arguments' =
      (length arguments + foldr (fun e n => SQLite.expr_arity e + n) 0 es)%nat.
Proof.
  induction 1 as [ | f rest Hf _ IH ]; intros parts arguments parts' arguments' es Hrun Hes;
    simpl in Hrun, Hes.
  - injection Hrun as <- <-. injection Hes as <-. simpl. lia.
  - destruct (CoreKV.buildWhereSql f) as [frag | err]; simpl in Hrun; [ | discriminate ].
    destruct (plan_expr (filter_shape f)) as [e | ]; [ | discriminate ].
    destruct (each_plan plan_expr (List.map filter_shape rest)) as [es' | ] eqn:Hes';
      [ | discriminate ].
    injection Hes as <-.
    rewrite (IH _ _ _ _ es' Hrun eq_refl), length_app. simpl.
    rewrite (Hf frag e eq_refl eq_refl). lia.
Qed.

Lemma buildWhereSql_arity (f : Filter finite) (frag : CoreKV.Fragment) (e : SQLite.Expr) :
  CoreKV.buildWhereSql f = Ok frag ->
  plan_expr (filter_shape f) = Some e ->
  SQLite.expr_arity e = length (CoreKV.frag_args frag).
Proof.
  revert frag e. induction f as [c | op conditions IH] using Filter_induction;
    intros frag e Hfrag He.
  - simpl in Hfrag, He. injection Hfrag as <-. injection He as <-. reflexivity.
  - assert (Hjunction : forall arguments parts is_and,
              CoreKV.build_each CoreKV.buildWhereSql conditions [] [] = Ok (parts, arguments) ->
              match each_plan plan_expr (List.map filter_shape conditions) with
              | Some (e0 :: es) => Some (SQLite.Junction (is_and es) e0 es)
              | _ => None
              end = Some e ->
              SQLite.expr_arity e = length arguments).
    { intros arguments parts is_and Hrun Hplan.
      destruct (each_plan plan_expr (List.map filter_shape conditions)) as [[ | e0 es] | ]
        eqn:Hes; try discriminate.
      injection Hplan as <-.
      rewrite (build_each_arity conditions IH [] [] parts arguments (e0 :: es) Hrun Hes).
      reflexivity. }
    destruct op.
    + simpl in Hfrag.
      destruct (CoreKV.build_each CoreKV.buildWhereSql conditions [] []) as [[parts arguments] | err]
        eqn:Hrun; simpl in Hfrag; [ | discriminate ].
      injection Hfrag as <-. simpl CoreKV.frag_args.
      change (plan_expr (filter_shape (LogicResult AND conditions)))
        with (plan_expr (ShapeLogic AND (List.map filter_shape conditions))) in He.
      rewrite plan_expr_junction in He by discriminate.
      exact (Hjunction arguments parts
               (fun es => match es with [] => true | _ => true end) eq_refl He).
    + simpl in Hfrag.
      destruct (CoreKV.build_each CoreKV.buildWhereSql conditions [] []) as [[parts arguments] | err]
        eqn:Hrun; simpl in Hfrag; [ | discriminate ].
      injection Hfrag as <-. simpl CoreKV.frag_args.
      change (plan_expr (filter_shape (LogicResult OR conditions)))
        with (plan_expr (ShapeLogic OR (List.map filter_shape conditions))) in He.
      rewrite plan_expr_junction in He by discriminate.
      exact (Hjunction arguments parts
               (fun es => match es with [] => true | _ => false end) eq_refl He).
    + destruct conditions as [ | first rest ]; [ discriminate | ].
      apply Forall_inv in IH. simpl in Hfrag, He.
      destruct (CoreKV.buildWhereSql first) as [inner | err]; simpl in Hfrag; [ | discriminate ].
      destruct (plan_expr (filter_shape first)) as [e1 | ]; [ | discriminate ].
      injection Hfrag as <-. injection He as <-. simpl. now apply IH.
Qed.

Lemma filter_arity (options : ListOptions finite) (now : Z) (stmt : Statement finite)
    (plan : SQLite.Plan) :
  CoreKV.list_statement options now = Ok stmt ->
  plan_of (shape_of options) = Some plan ->
  length (where_args options) =
    match filter_of options with Some e => SQLite.expr_arity e | None => 0%nat end /\
  plan = SQLite.SelectList (with_prefix (shape_of options)) (filter_of options)
                           (descending (shape_of options)) (with_limit (shape_of options)).
Proof.
  intros Hstmt Hplan. unfold plan_of, filter_of, where_args in *.
  destruct options as [p l c [[cond | callback] | ] r]; simpl in *.
  - injection Hplan as <-. now split.
  - destruct (plan_expr (filter_shape (callback the_combinators))) as [e | ] eqn:He;
      [ | discriminate ].
    injection Hplan as <-. split; [ | reflexivity ].
    unfold CoreKV.list_statement in Hstmt. simpl in Hstmt.
    fold the_combinators in Hstmt.
    destruct (CoreKV.buildWhereSql (callback the_combinators)) as [frag | err] eqn:Hfrag.
    + symmetry. now apply (buildWhereSql_arity (callback the_combinators)).
    + destruct p as [p | ]; [ destruct (String.eqb p "") | ]; discriminate.
  - injection Hplan as <-. now split.
Qed.

(** What the engine answers the statement of [list] with. *)
Lemma run_list_statement (options : ListOptions finite) (now : Z) (stmt : Statement finite)
    (plan : SQLite.Plan) (t : SQLite.Table) :
  CoreKV.list_statement options now = Ok stmt ->
  plan_of (shape_of options) = Some plan ->
  SQLite.run stmt t = (Ok {| rows := selected options now t |}, t).
Proof.
  intros Hstmt Hplan.
  pose proof (list_statement_text options now) as Htext. rewrite Hstmt in Htext. simpl in Htext.
  pose proof (prepare_list_text (shape_of options) (sql stmt) plan (shape_of_safe options)
                (eq_sym Htext) Hplan) as Hprepare.
  destruct (filter_arity options now stmt plan Hstmt Hplan) as (Harity & ->).
  pose proof (list_statement_args options now stmt Hstmt) as Hargs.
  unfold SQLite.run. rewrite Hprepare, Hargs.
  unfold selected, candidates.
  assert (Hp : with_prefix (shape_of options) =
               match pattern_of options with Some _ => true | None => false end).
  { unfold pattern_of. destruct options as [[p | ] l c w r]; simpl; [ | reflexivity ].
    now destruct (String.eqb p ""). }
  assert (Hl : with_limit (shape_of options) =
               match limit_of options with Some _ => true | None => false end).
  { unfold limit_of. destruct options as [p [n | ] c w r]; simpl; [ | reflexivity ].
    now destruct (Z.eqb n 0). }
  rewrite Hp, Hl. clear Hp Hl.
  set (wargs := where_args options) in *.
  set (filter := filter_of options) in *.
  set (n := match filter with Some e => SQLite.expr_arity e | None => 0%nat end) in *.
  destruct (pattern_of options) as [pattern | ], (limit_of options) as [l | ];
    cbn [SQLite.arity]; fold n;
    (rewrite bool_decide_eq_true_2
       by (cbn [length app]; rewrite ?length_app; cbn [length]; lia));
    cbn [SQLite.run_plan app]; fold n.
  - rewrite drop_app_length' by (symmetry; exact Harity).
    rewrite take_app_length' by (symmetry; exact Harity). reflexivity.
  - rewrite app_nil_r.
    rewrite firstn_all2 by (rewrite Harity; lia). reflexivity.
  - rewrite drop_app_length' by (symmetry; exact Harity).
    rewrite take_app_length' by (symmetry; exact Harity).
    reflexivity.
  - rewrite app_nil_r.
    rewrite firstn_all2 by (rewrite Harity; lia).
    reflexivity.
Qed.

End ListOnSQLite.
Section ListResults.
Context `{Ext : Externals}.

Lemma map_rows_outcome {Conn : Type} (rs : list Row) (s : CoreKV.Session (Conn:=Conn)) :
  CoreKV.map_rows rs s = (all_ok (List.map read_entry rs), s).
Proof.
  induction rs as [ | row rs IH ]; simpl; [ reflexivity | ].
  unfold CoreKV.bind at 1. unfold CoreKV.entry_of, CoreKV.bind at 1, CoreKV.lift, CoreKV.ret.
  unfold read_entry at 1.
  destruct (decodeValue row) as [v | e]; simpl; [ | reflexivity ].
  unfold CoreKV.bind. rewrite IH.
  now destruct (all_ok (List.map read_entry rs)).
Qed.

Lemma populated_options (options : ListOptions finite) (now : Z) :
  populated_where (where_shape (shape_of options)) = true ->
  exists stmt plan,
    CoreKV.list_statement options now = Ok stmt /\ plan_of (shape_of options) = Some plan.
Proof.
  intros Hp.
  assert (H : exists text plan, list_text (shape_of options) = Some text /\
                                plan_of (shape_of options) = Some plan).
  { unfold list_text, plan_of, where_text.
    destruct (where_shape (shape_of options)) as [ | op | tree ]; simpl in Hp; eauto.
    destruct (populated_plans tree Hp) as (t & e & -> & ->). eauto. }
  destruct H as (text & plan & Htext & Hplan).
  rewrite <- (list_statement_text options now) in Htext.
  destruct (CoreKV.list_statement options now) as [stmt | e]; [ eauto | discriminate ].
Qed.

(** [list] on the engine, for options whose filter the engine can read. *)
Lemma list_on_engine (options : ListOptions finite) (now : Z) (s : CoreKV.Session) :
  populated_where (where_shape (shape_of options)) = true ->
  fst (CoreKV.list SQLite.run options now s)
    = all_ok (List.map read_entry (selected options now (CoreKV.conn s))) /\
  CoreKV.conn (snd (CoreKV.list SQLite.run options now s)) = CoreKV.conn s.
Proof.
  intros Hp. destruct (populated_options options now Hp) as (stmt & plan & Hstmt & Hplan).
  unfold CoreKV.list, CoreKV.bind at 1, CoreKV.lift. rewrite Hstmt.
  unfold CoreKV.bind.
  executed (run_list_statement options now stmt plan (CoreKV.conn s) Hstmt Hplan).
  rewrite map_rows_outcome. now split.
Qed.

Lemma all_ok_entries {A B} (f : A -> result B) (xs : list A) (ys : list B) :
  all_ok (List.map f xs) = Ok ys -> Forall2 (fun x y => f x = Ok y) xs ys.
Proof.
  revert ys. induction xs as [ | x xs IH ]; intros ys H; simpl in H.
  - injection H as <-. constructor.
  - destruct (f x) as [y | e] eqn:Hx; simpl in H; [ | discriminate ].
    destruct (all_ok (List.map f xs)) as [ys' | e]; simpl in H; [ | discriminate ].
    injection H as <-. constructor; [ exact Hx | now apply IH ].
Qed.

Lemma all_ok_take {A B} (f : A -> result B) (xs : list A) (ys : list B) (n : nat) :
  all_ok (List.map f xs) = Ok ys -> all_ok (List.map f (take n xs)) = Ok (take n ys).
Proof.
  revert ys n. induction xs as [ | x xs IH ]; intros ys n H; simpl in H.
  - injection H as <-. now destruct n.
  - destruct (f x) as [y | e] eqn:Hx; simpl in H; [ | discriminate ].
    destruct (all_ok (List.map f xs)) as [ys' | e] eqn:Hxs; simpl in H; [ | discriminate ].
    injection H as <-. destruct n as [ | n ]; [ reflexivity | ].
    simpl. rewrite Hx. simpl. now rewrite (IH ys' n eq_refl).
Qed.

Lemma read_entry_key (row : Row) (e : KVEntry finite) :
  read_entry row = Ok e -> KVEntry.key e = key row.
Proof.
  unfold read_entry. destruct (decodeValue row); [ | discriminate ].
  intros H. now injection H as <-.
Qed.

Lemma listed_keys (rs : list Row) (entries : list (KVEntry finite)) :
  all_ok (List.map read_entry rs) = Ok entries ->
  List.map KVEntry.key entries = List.map key rs.
Proof.
  intros H. apply all_ok_entries in H.
  induction H as [ | row e rs entries He _ IH ]; [ reflexivity | ].
  simpl. now rewrite IH, (read_entry_key row e He).
Qed.

(** *** The rows selected *)

Lemma candidates_elem (options : ListOptions finite) (now : Z) (t : SQLite.Table) (row : Row) :
  row ∈ candidates options now t <->
  row ∈ t /\ SQLite.unexpired now row = true /\
  match pattern_of options with
  | Some pattern => SQLite.like pattern (key row) = true
  | None => True
  end /\
  SQLite.passes (filter_of options) (where_args options) row = true.
Proof.
  unfold candidates. rewrite list_elem_of_In, filter_In, <- list_elem_of_In.
  rewrite !andb_true_iff. destruct (pattern_of options); tauto.
Qed.

Lemma limit_to_elem (l : Z) (rs : list Row) (row : Row) :
  row ∈ SQLite.limit_to l rs -> row ∈ rs.
Proof.
  unfold SQLite.limit_to. destruct (Z.ltb l 0); [ tauto | ].
  intros H. apply elem_of_take in H. destruct H as (i & Hi & _).
  now apply list_elem_of_lookup_2 in Hi.
Qed.

Lemma selected_elem (options : ListOptions finite) (now : Z) (t : SQLite.Table) (row : Row) :
  row ∈ selected options now t -> row ∈ candidates options now t.
Proof.
  unfold selected. intros H.
  destruct (limit_of options) as [l | ]; [ apply limit_to_elem in H | ];
    now apply order_by_key_elem in H.
Qed.

End ListResults.
(** ** What [list] returns *)

Section ListTheorems.
Context `{Ext : Externals}.

Lemma parse_list_plan (text : string) (plan : SQLite.Plan) :
  SQLite.parse_list text = Some plan ->
  exists by_prefix filter descending limited,
    plan = SQLite.SelectList by_prefix filter descending limited.
Proof.
  unfold SQLite.parse_list, SQLite.optional.
  repeat match goal with
         | |- context [match ?x with _ => _ end] => destruct x
         end; intros H; try discriminate; injection H as <-; eauto.
Qed.

Lemma run_select_list_table (by_prefix : bool) (filter : option SQLite.Expr)
    (descending limited : bool) (arguments : list (InValue finite)) (t : SQLite.Table) :
  snd (SQLite.run_plan (SQLite.SelectList by_prefix filter descending limited) arguments t) = t.
Proof.
  unfold SQLite.run_plan, SQLite.unsupported.
  repeat match goal with
         | |- context [match ?x with _ => _ end] => destruct x
         end; reflexivity.
Qed.

Lemma list_text_prefix (sh : Shape) (text : string) :
  list_text sh = Some text ->
  exists rest,
    text = "SELECT * FROM kv_store WHERE 1=1 AND (expires_at IS NULL OR expires_at > ?)" +:+ rest.
Proof.
  unfold list_text. destruct (where_text (where_shape sh)); [ | discriminate ].
  intros H. injection H as <-. eauto.
Qed.

(** X17.  [list] on the engine never changes the table, whatever its
    options and whatever its outcome: unlike [get] and [getMany], it leaves
    the rows that have expired where they are. *)
Theorem list_never_writes (options : ListOptions finite) (now : Z) (s : CoreKV.Session) :
  CoreKV.conn (snd (CoreKV.list SQLite.run options now s)) = CoreKV.conn s /\
  (forall stmt, CoreKV.list_statement options now = Ok stmt ->
     forall t, snd (SQLite.run stmt t) = t).
Proof.
  assert (Hrun : forall stmt, CoreKV.list_statement options now = Ok stmt ->
                   forall t, snd (SQLite.run stmt t) = t).
  { intros stmt Hstmt t.
    pose proof (list_statement_text options now) as Htext. rewrite Hstmt in Htext.
    destruct (list_text_prefix _ _ (eq_sym Htext)) as (rest & Hrest).
    unfold SQLite.run. rewrite Hrest, prepare_list_prefix.
    destruct (SQLite.parse_list _) as [plan | ] eqn:Hplan; [ | reflexivity ].
    destruct (parse_list_plan _ _ Hplan) as (a & b & c & d & ->).
    destruct (bool_decide _); [ apply run_select_list_table | reflexivity ]. }
  split; [ | exact Hrun ].
  unfold CoreKV.list, CoreKV.bind at 1, CoreKV.lift.
  destruct (CoreKV.list_statement options now) as [stmt | e] eqn:Hstmt; [ | reflexivity ].
  unfold CoreKV.bind, CoreKV.execute.
  pose proof (Hrun stmt eq_refl (CoreKV.conn s)) as Ht.
  destruct (SQLite.run _ (CoreKV.conn s)) as [[rs | e] t']; simpl in Ht; subst t'.
  - now rewrite map_rows_outcome.
  - reflexivity.
Qed.


(** *** Order *)

Lemma insert_by_key_sorted (row : Row) (rs : list Row) :
  Sorted (fun a b => in_order false (key a) (key b)) rs ->
  Sorted (fun a b => in_order false (key a) (key b)) (SQLite.insert_by_key row rs).
Proof.
  induction 1 as [ | x rs Hrs IH Hx ]; simpl.
  - repeat constructor.
  - destruct (String.leb (key row) (key x)) eqn:Hle.
    + constructor; [ now constructor | now constructor ].
    + constructor; [ exact IH | ].
      assert (Hxr : in_order false (key x) (key row)).
      { simpl. destruct (String.leb_total (key row) (key x)); congruence. }
      destruct rs as [ | y rs ]; simpl; [ now constructor | ].
      destruct (String.leb (key row) (key y)); constructor; [ exact Hxr | ].
      now apply HdRel_inv in Hx.
Qed.

Lemma sorted_snoc {A} (R : A -> A -> Prop) (l : list A) (x : A) :
  Sorted R l -> (forall y, last l = Some y -> R y x) -> Sorted R (l ++ [x]).
Proof.
  induction 1 as [ | a l Hl IH Ha ]; intros Hlast; simpl.
  - repeat constructor.
  - constructor.
    + apply IH. intros y Hy. apply Hlast. destruct l; [ discriminate | exact Hy ].
    + destruct l as [ | b l ]; simpl.
      * constructor. now apply Hlast.
      * constructor. now apply HdRel_inv in Ha.
Qed.

Lemma sorted_rev {A} (R : A -> A -> Prop) (l : list A) :
  Sorted R l -> Sorted (fun a b => R b a) (rev l).
Proof.
  induction 1 as [ | a l Hl IH Ha ]; simpl; [ constructor | ].
  apply sorted_snoc; [ exact IH | ].
  intros y Hy. destruct l as [ | b l ]; [ discriminate | ].
  simpl in Hy. rewrite last_snoc in Hy.
  injection Hy as <-. now apply HdRel_inv in Ha.
Qed.

Lemma sorted_take {A} (R : A -> A -> Prop) (l : list A) (n : nat) :
  Sorted R l -> Sorted R (take n l).
Proof.
  intros H. revert n. induction H as [ | a l Hl IH Ha ]; intros n.
  - destruct n; constructor.
  - destruct n as [ | n ]; [ constructor | ]. simpl.
    constructor; [ apply IH | ].
    destruct l as [ | b l ]; [ destruct n; constructor | ].
    destruct n as [ | n ]; [ constructor | ]. simpl.
    constructor. now apply HdRel_inv in Ha.
Qed.

Lemma sorted_keys (R : string -> string -> Prop) (rs : list Row) :
  Sorted (fun a b => R (key a) (key b)) rs -> Sorted R (List.map key rs).
Proof.
  induction 1 as [ | a l Hl IH Ha ]; simpl; [ constructor | ].
  constructor; [ exact IH | ].
  destruct l as [ | b l ]; simpl; constructor. now apply HdRel_inv in Ha.
Qed.

Lemma order_by_key_sorted (descending : bool) (rs : list Row) :
  Sorted (fun a b => in_order descending (key a) (key b)) (SQLite.order_by_key descending rs).
Proof.
  assert (H : Sorted (fun a b => in_order false (key a) (key b))
                     (foldr SQLite.insert_by_key [] rs)).
  { induction rs as [ | r rs IH ]; simpl; [ constructor | ].
    now apply insert_by_key_sorted. }
  unfold SQLite.order_by_key. destruct descending; [ | exact H ].
  apply sorted_rev in H. exact H.
Qed.

Lemma insert_by_key_keys (row : Row) (rs : list Row) :
  List.map key (SQLite.insert_by_key row rs) ≡ₚ key row :: List.map key rs.
Proof.
  induction rs as [ | x rs IH ]; simpl; [ reflexivity | ].
  destruct (String.leb (key row) (key x)); simpl; [ reflexivity | ].
  rewrite IH. apply Permutation_swap.
Qed.

Lemma order_by_key_keys (descending : bool) (rs : list Row) :
  List.map key (SQLite.order_by_key descending rs) ≡ₚ List.map key rs.
Proof.
  assert (H : List.map key (foldr SQLite.insert_by_key [] rs) ≡ₚ List.map key rs).
  { induction rs as [ | r rs IH ]; simpl; [ reflexivity | ].
    now rewrite insert_by_key_keys, IH. }
  unfold SQLite.order_by_key. destruct descending; [ | exact H ].
  rewrite map_rev, <- H. symmetry. apply Permutation_rev.
Qed.

Lemma nodup_take {A} (l : list A) (n : nat) : NoDup l -> NoDup (take n l).
Proof.
  intros H. revert n. induction H as [ | x l Hx Hl IH ]; intros n.
  - destruct n; constructor.
  - destruct n as [ | n ]; [ constructor | ]. simpl. constructor; [ | apply IH ].
    intros Hin. apply Hx. apply elem_of_take in Hin. destruct Hin as (i & Hi & _).
    now apply list_elem_of_lookup_2 in Hi.
Qed.

Lemma selected_unique (options : ListOptions finite) (now : Z) (t : SQLite.Table) :
  unique_keys t -> NoDup (List.map key (selected options now t)).
Proof.
  intros Hu.
  assert (Hc : NoDup (List.map key (SQLite.order_by_key (descending (shape_of options))
                                                          (candidates options now t)))).
  { rewrite order_by_key_keys. now apply unique_keys_filter. }
  unfold selected. destruct (limit_of options) as [l | ]; [ | exact Hc ].
  unfold SQLite.limit_to. destruct (Z.ltb l 0); [ exact Hc | ].
  change (List.map key (take (Z.to_nat l) ?x)) with (key <$> take (Z.to_nat l) x).
  rewrite fmap_take. now apply nodup_take.
Qed.

(** X19.  The entries [list] returns are in the order of their keys,
    ascending, or descending with [reverse: true]; on a table without two
    rows under one key no key comes twice. *)
Theorem list_is_in_key_order (options : ListOptions finite) (now : Z) (s : CoreKV.Session)
    (entries : list (KVEntry finite)) :
  populated_where (where_shape (shape_of options)) = true ->
  fst (CoreKV.list SQLite.run options now s) = Ok entries ->
  Sorted (in_order (match ListOptions.reverse options with Some true => true | _ => false end))
         (List.map KVEntry.key entries) /\
  (unique_keys (CoreKV.conn s) -> NoDup (List.map KVEntry.key entries)).
Proof.
  intros Hp Hlist. destruct (list_on_engine options now s Hp) as (Hfst & _).
  rewrite Hfst in Hlist. rewrite (listed_keys _ _ Hlist). split.
  - apply sorted_keys. unfold selected.
    pose proof (order_by_key_sorted (descending (shape_of options))
                  (candidates options now (CoreKV.conn s))) as H.
    change (match ListOptions.reverse options with Some true => true | _ => false end)
      with (descending (shape_of options)).
    destruct (limit_of options) as [l | ]; [ | exact H ].
    unfold SQLite.limit_to. destruct (Z.ltb l 0); [ exact H | now apply sorted_take ].
  - intros Hu. now apply selected_unique.
Qed.

End ListTheorems.
Section MoreListTheorems.
Context `{Ext : Externals}.

Lemma unlimited_candidates (options : ListOptions finite) (now : Z) (t : SQLite.Table) :
  selected (unlimited options) now t =
    SQLite.order_by_key (descending (shape_of options)) (candidates options now t).
Proof. destruct options as [p l c w r]. reflexivity. Qed.

Lemma unlimited_populated (options : ListOptions finite) :
  populated_where (where_shape (shape_of (unlimited options)))
  = populated_where (where_shape (shape_of options)).
Proof. destruct options as [p l c w r]. reflexivity. Qed.

(** X20.  A limit cuts the list and does nothing else: with
    [limit: n], [n] positive, [list] returns the first [n] entries of what
    it returns without the limit, so at most [n]; with [n] zero or
    negative it returns all of them. *)
Theorem limit_cuts_the_list (options : ListOptions finite) (now : Z) (s : CoreKV.Session)
    (n : Z) :
  populated_where (where_shape (shape_of options)) = true ->
  ListOptions.limit options = Some n ->
  (0 < n ->
   forall every, fst (CoreKV.list SQLite.run (unlimited options) now s) = Ok every ->
     fst (CoreKV.list SQLite.run options now s) = Ok (take (Z.to_nat n) every) /\
     (length (take (Z.to_nat n) every) <= Z.to_nat n)%nat) /\
  (n <= 0 ->
   fst (CoreKV.list SQLite.run options now s)
     = fst (CoreKV.list SQLite.run (unlimited options) now s)).
Proof.
  intros Hp Hn.
  destruct (list_on_engine options now s Hp) as (Hlist & _).
  destruct (list_on_engine (unlimited options) now s) as (Hall & _);
    [ now rewrite unlimited_populated | ].
  rewrite Hlist, Hall, unlimited_candidates. unfold selected, limit_of. rewrite Hn.
  split.
  - intros Hpos every Hevery.
    replace (Z.eqb n 0) with false by (symmetry; apply Z.eqb_neq; lia).
    unfold SQLite.limit_to.
    replace (Z.ltb n 0) with false by (symmetry; apply Z.ltb_ge; lia).
    split; [ now apply all_ok_take | ]. rewrite length_take. lia.
  - intros Hneg. destruct (Z.eqb n 0) eqn:Hz; [ reflexivity | ].
    unfold SQLite.limit_to.
    replace (Z.ltb n 0) with true; [ reflexivity | ].
    symmetry. apply Z.ltb_lt. apply Z.eqb_neq in Hz. lia.
Qed.

Lemma filter_of_where (options : ListOptions finite) :
  populated_where (where_shape (shape_of options)) = true ->
  ListOptions.where_ options <> None ->
  exists e, filter_of options = Some e.
Proof.
  intros Hp Hw. unfold filter_of.
  destruct options as [p l c [[cond | callback] | ] r]; simpl in *.
  - eauto.
  - destruct (populated_plans _ Hp) as (t & e & _ & He). eauto.
  - contradiction.
Qed.

(** X21.  A [list] with a filter returns rows of type [json] only: each
    of its entries comes from a row of the table under that key whose
    [value_type] is [json], and its value is what [JSON.parse] makes of the
    text of that row.  [encodeValue] gives that type to [null], objects and
    arrays and to nothing else, so strings, numbers, booleans and byte
    arrays written by [set] are never returned by a filtered [list],
    whatever their text. *)
Theorem filtered_list_returns_json_only (options : ListOptions finite) (now : Z)
    (s : CoreKV.Session) (entries : list (KVEntry finite)) :
  populated_where (where_shape (shape_of options)) = true ->
  ListOptions.where_ options <> None ->
  fst (CoreKV.list SQLite.run options now s) = Ok entries ->
  Forall (fun e => exists row j,
            row ∈ CoreKV.conn s /\ key row = KVEntry.key e /\
            value_type row = Val "json" /\
            JSON_parse_column (value_text row) = Some j /\
            KVEntry.value e = Defined (Json j))
         entries /\
  (forall v : KVValue finite,
      type (encodeValue v) = "json" <->
      match v with
      | Json JNull | Json (JObject _) | Json (JArray _) => True
      | _ => False
      end).
Proof.
  intros Hp Hw Hlist. split.
  - destruct (list_on_engine options now s Hp) as (Hfst & _). rewrite Hfst in Hlist.
    apply all_ok_entries in Hlist.
    destruct (filter_of_where options Hp Hw) as (expr & Hexpr).
    assert (Hrows : Forall (fun row => row ∈ CoreKV.conn s /\ value_type row = Val "json")
                           (selected options now (CoreKV.conn s))).
    { apply Forall_forall. intros row Hrow.
      apply selected_elem, candidates_elem in Hrow.
      destruct Hrow as (Hin & _ & _ & Hpass). split; [ exact Hin | ].
      rewrite Hexpr in Hpass. unfold SQLite.passes in Hpass.
      destruct (value_type row) as [ | | ty ]; try discriminate.
      apply andb_true_iff in Hpass. destruct Hpass as (Hty & _).
      apply String.eqb_eq in Hty. now subst ty. }
    revert Hlist Hrows. generalize (selected options now (CoreKV.conn s)) as chosen.
    intros chosen Hlist.
    induction Hlist as [ | row e rows entries He _ IH ]; intros Hrows; [ constructor | ].
    apply Forall_cons in Hrows. destruct Hrows as ((Hin & Hty) & Hrows).
    constructor; [ | now apply IH ].
    unfold read_entry, decodeValue, type_is in He. rewrite Hty in He. simpl in He.
    destruct (JSON_parse_column (value_text row)) as [j | ] eqn:Hj; [ | discriminate ].
    injection He as <-. exists row, j. now repeat split.
  - intros v. destruct v as [[ | | | | | ] | ]; simpl; split; intros H;
      try exact I; try reflexivity; try discriminate; try contradiction.
Qed.

Lemma filter_implied {A} (keep wanted : A -> bool) (l : list A) :
  (forall x, wanted x = true -> keep x = true) ->
  List.filter wanted (List.filter keep l) = List.filter wanted l.
Proof.
  intros H. induction l as [ | x l IH ]; simpl; [ reflexivity | ].
  destruct (keep x) eqn:Hk; simpl.
  - now rewrite IH.
  - destruct (wanted x) eqn:Hw; [ | exact IH ].
    rewrite (H x Hw) in Hk. discriminate.
Qed.

Lemma row_under_kept (k : string) (keep : Row -> bool) (t : SQLite.Table) :
  unique_keys t ->
  row_under k (List.filter keep t) =
    match row_under k t with
    | Some row => if keep row then Some row else None
    | None => None
    end.
Proof.
  unfold unique_keys, row_under. induction t as [ | r t IH ]; intros Hu; simpl;
    [ reflexivity | ].
  apply NoDup_cons in Hu. destruct Hu as (Hr & Hu).
  destruct (SQLite.has_key k r) eqn:Hk.
  - destruct (keep r) eqn:Hkeep; simpl; [ now rewrite Hk | ].
    apply has_key_true in Hk. subst k.
    apply row_under_none. intros row Hin Hkey. apply Hr.
    apply list_elem_of_In, filter_In in Hin. destruct Hin as (Hin & _).
    apply list_elem_of_fmap. exists row. split; [ now symmetry | now apply list_elem_of_In ].
  - destruct (keep r); simpl; [ rewrite Hk | ]; now apply IH.
Qed.

Lemma run_cleanup (now : Z) (t : SQLite.Table) :
  SQLite.run {| sql := "DELETE FROM kv_store WHERE expires_at IS NOT NULL AND expires_at < ?";
                args := [IInteger now] |} t
  = (Ok {| rows := [] |}, List.filter (fun r => negb (SQLite.overdue now r)) t).
Proof. reflexivity. Qed.

(** X24.  [cleanupExpired] on the engine resolves and removes the rows
    whose deadline lies before the instant of the call, and no others.
    No later [list] can tell: at that instant or after, it returns what it
    would have returned without the clean-up.  Neither can a later [get],
    on a table with one row per key none of which has the instant [0] for
    its deadline (a row that [get] never takes for expired and that the
    clean-up removes). *)
Theorem cleanup_is_invisible (now now' : Z) (s : CoreKV.Session) :
  now <= now' ->
  let s' := snd (CoreKV.cleanupExpired SQLite.run now s) in
  fst (CoreKV.cleanupExpired SQLite.run now s) = Ok tt /\
  (forall row, row ∈ CoreKV.conn s' <->
               row ∈ CoreKV.conn s /\ SQLite.overdue now row = false) /\
  (forall options,
      populated_where (where_shape (shape_of options)) = true ->
      fst (CoreKV.list SQLite.run options now' s') = fst (CoreKV.list SQLite.run options now' s)) /\
  (unique_keys (CoreKV.conn s) ->
   (forall row, row ∈ CoreKV.conn s -> expires_at row <> Some 0) ->
   forall k, fst (CoreKV.get SQLite.run k now' s') = fst (CoreKV.get SQLite.run k now' s)).
Proof.
  intros Hnow s'. subst s'. unfold CoreKV.cleanupExpired, CoreKV.bind.
  executed (run_cleanup now (CoreKV.conn s)). cbn [fst snd CoreKV.ret].
  split; [ reflexivity | ]. cbn [CoreKV.conn after_statement]. repeat split_and.
  - intros row. rewrite list_elem_of_In, filter_In, <- list_elem_of_In, negb_true_iff.
    reflexivity.
  - intros options Hp.
    destruct (list_on_engine options now' s Hp) as (-> & _).
    match goal with
    | |- fst (CoreKV.list SQLite.run options now' ?s1) = _ =>
        destruct (list_on_engine options now' s1 Hp) as (-> & _)
    end.
    cbn [CoreKV.conn after_statement]. unfold selected, candidates.
    rewrite filter_implied; [ reflexivity | ].
    intros row Hrow. apply andb_true_iff in Hrow. destruct Hrow as (Hrow & _).
    apply andb_true_iff in Hrow. destruct Hrow as (Hrow & _).
    unfold SQLite.unexpired in Hrow. unfold SQLite.overdue.
    destruct (expires_at row) as [e | ]; [ | reflexivity ].
    apply Z.ltb_lt in Hrow. apply negb_true_iff, Z.ltb_ge. lia.
  - intros Hu Hzero k. rewrite !get_on_engine. cbn [fst CoreKV.conn after_statement].
    rewrite row_under_kept by exact Hu.
    destruct (row_under k (CoreKV.conn s)) as [row | ] eqn:Hrow; [ | reflexivity ].
    destruct (SQLite.overdue now row) eqn:Hover; [ | reflexivity ].
    cbn [negb read_row].
    apply row_under_key in Hrow. destruct Hrow as (Hin & _).
    specialize (Hzero row Hin). unfold SQLite.overdue in Hover. unfold CoreKV.expired.
    destruct (expires_at row) as [e | ]; [ | discriminate ].
    apply Z.ltb_lt in Hover.
    replace (Z.eqb e 0) with false by (symmetry; apply Z.eqb_neq; congruence).
    replace (Z.ltb e now') with true by (symmetry; apply Z.ltb_lt; lia).
    reflexivity.
Qed.

Lemma row_under_unique (row : Row) (t : SQLite.Table) :
  unique_keys t -> row ∈ t -> row_under (key row) t = Some row.
Proof.
  unfold unique_keys, row_under. induction t as [ | r t IH ]; intros Hu Hin;
    [ inversion Hin | ].
  simpl in *. apply NoDup_cons in Hu. destruct Hu as (Hr & Hu).
  apply elem_of_cons in Hin. destruct Hin as [-> | Hin].
  - now rewrite (proj2 (has_key_true (key r) r) eq_refl).
  - destruct (SQLite.has_key (key row) r) eqn:Hk; [ | now apply IH ].
    apply has_key_true in Hk. destruct Hr. rewrite Hk.
    apply list_elem_of_fmap. now exists row.
Qed.

(** X25.  What [list] shows, [get] returns: on a table with one row per
    key, [get] of the key of any entry that [list] has returned resolves
    to that entry, at the same instant. *)
Theorem listed_entries_can_be_got (options : ListOptions finite) (now : Z)
    (s : CoreKV.Session) (entries : list (KVEntry finite)) :
  populated_where (where_shape (shape_of options)) = true ->
  unique_keys (CoreKV.conn s) ->
  fst (CoreKV.list SQLite.run options now s) = Ok entries ->
  forall e, e ∈ entries -> fst (CoreKV.get SQLite.run (KVEntry.key e) now s) = Ok (Some e).
Proof.
  intros Hp Hu Hlist e He.
  destruct (list_on_engine options now s Hp) as (Hfst & _). rewrite Hfst in Hlist.
  apply all_ok_entries in Hlist.
  apply list_elem_of_lookup_1 in He. destruct He as (i & Hi).
  destruct (Forall2_lookup_r _ _ _ _ _ Hlist Hi) as (row & Hrow & Hread).
  apply list_elem_of_lookup_2, selected_elem, candidates_elem in Hrow.
  destruct Hrow as (Hin & Hlive & _).
  rewrite get_on_engine. cbn [fst].
  rewrite (read_entry_key row e Hread), (row_under_unique row _ Hu Hin).
  unfold read_row.
  replace (CoreKV.expired row now) with false.
  - unfold read_entry in Hread. destruct (decodeValue row); [ | discriminate ].
    now injection Hread as <-.
  - symmetry. unfold SQLite.unexpired in Hlive. unfold CoreKV.expired.
    destruct (expires_at row) as [d | ]; [ | reflexivity ].
    apply Z.ltb_lt in Hlive.
    replace (Z.ltb d now) with false by (symmetry; apply Z.ltb_ge; lia).
    apply andb_false_r.
Qed.

(** X26.  A prefix misses no key.  With a non-empty prefix and no limit
    in effect, every row of the table that has not expired, whose key
    starts with the prefix and which passes the filter, if there is one, is
    among the entries [list] returns. *)
Theorem prefix_misses_no_key (options : ListOptions finite) (p : string) (now : Z)
    (s : CoreKV.Session) (entries : list (KVEntry finite)) (row : Row) :
  populated_where (where_shape (shape_of options)) = true ->
  ListOptions.prefix options = Some p ->
  limit_of options = None ->
  fst (CoreKV.list SQLite.run options now s) = Ok entries ->
  row ∈ CoreKV.conn s ->
  SQLite.unexpired now row = true ->
  String.prefix p (key row) = true ->
  SQLite.passes (filter_of options) (where_args options) row = true ->
  exists e, e ∈ entries /\ read_entry row = Ok e.
Proof.
  intros Hp Hprefix Hlimit Hlist Hin Hlive Hstarts Hpass.
  destruct (list_on_engine options now s Hp) as (Hfst & _). rewrite Hfst in Hlist.
  apply all_ok_entries in Hlist.
  assert (Hsel : row ∈ selected options now (CoreKV.conn s)).
  { unfold selected. rewrite Hlimit. apply order_by_key_elem, candidates_elem.
    repeat split; try assumption.
    unfold pattern_of. rewrite Hprefix.
    destruct (String.eqb p ""); [ exact I | now apply like_prefix ]. }
  apply list_elem_of_lookup_1 in Hsel. destruct Hsel as (i & Hi).
  destruct (Forall2_lookup_l _ _ _ _ _ Hlist Hi) as (e & He & Hread).
  exists e. split; [ now apply list_elem_of_lookup_2 in He | exact Hread ].
Qed.

(** X27.  An [AND] or an [OR] without conditions compiles, to the text
    [()] and no arguments, but the resulting statement is not one the
    engine can read: [list] with such a filter rejects with the error of
    the engine, whatever the other options, and leaves the table alone. *)
Theorem empty_junction_is_refused (op : LogicOp) (callback : Combinators finite -> Filter finite)
    (p : option string) (l : option Z) (c : option string) (r : option bool) (now : Z)
    (s : CoreKV.Session) :
  op <> NOT ->
  callback the_combinators = LogicResult op [] ->
  let options :=
    {| ListOptions.prefix := p; ListOptions.limit := l; ListOptions.cursor := c;
       ListOptions.where_ := Some (WhereCallback callback); ListOptions.reverse := r |} in
  CoreKV.buildWhereSql (callback the_combinators)
    = Ok {| CoreKV.frag_sql := "()"; CoreKV.frag_args := [] |} /\
  (exists stmt, CoreKV.list_statement options now = Ok stmt) /\
  fst (CoreKV.list SQLite.run options now s) = Throw (LibsqlError "SQL_PARSE_ERROR") /\
  CoreKV.conn (snd (CoreKV.list SQLite.run options now s)) = CoreKV.conn s.
Proof.
  intros Hop Hcallback options.
  assert (Hfrag : CoreKV.buildWhereSql (callback the_combinators)
                  = Ok {| CoreKV.frag_sql := "()"; CoreKV.frag_args := [] |}).
  { rewrite Hcallback. destruct op; [ reflexivity | reflexivity | contradiction ]. }
  split; [ exact Hfrag | ].
  assert (Hstmt : exists stmt, CoreKV.list_statement options now = Ok stmt /\
                               SQLite.prepare (sql stmt) = None).
  { subst options. unfold CoreKV.list_statement. simpl.
    fold the_combinators. rewrite Hfrag. simpl.
    destruct p as [p | ]; [ destruct (String.eqb p "") | ];
      (destruct l as [n | ]; [ destruct (Z.eqb n 0) | ]);
      destruct r as [[ | ] | ]; simpl; eexists; (split; [ reflexivity | ]);
      vm_compute; reflexivity. }
  destruct Hstmt as ([text arguments] & Hstmt & Hprepare). simpl in Hprepare.
  split; [ eexists; exact Hstmt | ].
  unfold CoreKV.list, CoreKV.bind, CoreKV.lift. rewrite Hstmt.
  unfold CoreKV.execute, SQLite.run. cbn [sql args]. rewrite Hprepare. now split.
Qed.

End MoreListTheorems.
Section ManyCleanUp.
Context `{Ext : Externals}.

Lemma collect_live_conn (rs : list Row) (now : Z) :
  forall (map : gmap string Row) (s : CoreKV.Session),
    CoreKV.conn (snd (CoreKV.collect_live
                        (fun k => CoreKV.catch_ignore (CoreKV.del SQLite.run k)) rs now map s))
    = foldl (fun t r => if CoreKV.expired r now
                        then List.filter (fun x => negb (SQLite.has_key (key r) x)) t
                        else t)
            (CoreKV.conn s) rs.
Proof.
  induction rs as [ | r rs IH ]; intros map s; simpl; [ reflexivity | ].
  destruct (CoreKV.expired r now); [ | apply IH ].
  unfold CoreKV.bind at 1. unfold CoreKV.catch_ignore at 1.
  rewrite (del_outcome SQLite.run (key r) s _ _ (run_delete (key r) (CoreKV.conn s))).
  cbn [snd]. rewrite IH. reflexivity.
Qed.

Lemma cleaned_elem (rs : list Row) (now : Z) (row : Row) :
  forall t : SQLite.Table,
    row ∈ foldl (fun t r => if CoreKV.expired r now
                            then List.filter (fun x => negb (SQLite.has_key (key r) x)) t
                            else t)
                t rs
    <-> row ∈ t /\ forall x, x ∈ rs -> CoreKV.expired x now = true -> key x <> key row.
Proof.
  induction rs as [ | r rs IH ]; intros t; simpl.
  - split; [ intros H; split; [ exact H | intros x Hx; inversion Hx ] | tauto ].
  - rewrite IH. destruct (CoreKV.expired r now) eqn:Hr.
    + rewrite list_elem_of_In, filter_In, <- list_elem_of_In, negb_true_iff, has_key_false.
      split.
      * intros ((Hin & Hkey) & Hrest). split; [ exact Hin | ].
        intros x Hx Hexp. apply elem_of_cons in Hx. destruct Hx as [-> | Hx].
        -- congruence.
        -- now apply Hrest.
      * intros (Hin & Hall). repeat split.
        -- exact Hin.
        -- intros Heq. apply (Hall r); [ apply list_elem_of_here | exact Hr | now symmetry ].
        -- intros x Hx. apply Hall. now apply list_elem_of_further.
    + split.
      * intros (Hin & Hrest). split; [ exact Hin | ].
        intros x Hx Hexp. apply elem_of_cons in Hx. destruct Hx as [-> | Hx].
        -- congruence.
        -- now apply Hrest.
      * intros (Hin & Hall). split; [ exact Hin | ].
        intros x Hx. apply Hall. now apply list_elem_of_further.
Qed.

Lemma getMany_conn (keys : list string) (now : Z) (s : CoreKV.Session) :
  keys <> [] ->
  CoreKV.conn (snd (CoreKV.getMany SQLite.run keys now s)) =
    foldl (fun t r => if CoreKV.expired r now
                      then List.filter (fun x => negb (SQLite.has_key (key r) x)) t
                      else t)
          (CoreKV.conn s)
          (List.filter (fun r => existsb (String.eqb (key r)) keys) (CoreKV.conn s)).
Proof.
  intros Hkeys.
  assert (Hlen : bool_decide (length keys = 0%nat) = false)
    by (destruct keys; [ contradiction | reflexivity ]).
  unfold CoreKV.getMany. rewrite Hlen, select_by_keys_text.
  unfold CoreKV.bind at 1.
  executed (run_select_by_keys keys (CoreKV.conn s) Hkeys).
  unfold CoreKV.bind.
  match goal with
  | |- context [CoreKV.collect_live ?clean ?rows ?now ?m ?s0] =>
      pose proof (collect_live_conn rows now m s0) as Hc;
      destruct (CoreKV.collect_live clean rows now m s0) as [[m' | e'] s']
  end; cbn [snd] in Hc.
  - now rewrite map_keys_outcome.
  - exact Hc.
Qed.

(** X16.  [getMany] on the engine cleans up what it finds expired: once
    the deletes it has started are carried out, no row is left under a
    requested key that has expired at the instant of the call.  Rows under
    keys that were not asked for stay, and on a table with one row per key
    so does every row that has not expired; nothing is ever added.  The
    store starts those deletes without awaiting them and a transaction
    awaits each; on the engine the two reads return the same and leave the
    same behind, so all of this holds of a transaction's [getMany] as it
    stands. *)
Theorem getMany_cleans_up (keys : list string) (now : Z) (s : CoreKV.Session) :
  let left := CoreKV.conn (snd (CoreKV.getMany SQLite.run keys now s)) in
  (forall row, row ∈ left -> key row ∈ keys -> CoreKV.expired row now = false) /\
  (forall row, row ∈ left -> row ∈ CoreKV.conn s) /\
  (forall row, row ∈ CoreKV.conn s -> key row ∉ keys -> row ∈ left) /\
  (unique_keys (CoreKV.conn s) ->
   forall row, row ∈ CoreKV.conn s -> CoreKV.expired row now = false -> row ∈ left) /\
  KVTransaction.getMany SQLite.run keys now s = CoreKV.getMany SQLite.run keys now s.
Proof.
  intros left. subst left.
  apply and_snoc4; [ | apply awaited_reads_on_engine ].
  destruct keys as [ | k0 keys0 ].
  { cbn [CoreKV.getMany length bool_decide]. simpl. repeat split_and; try tauto.
    intros row _ Hin. inversion Hin. }
  set (keys := k0 :: keys0). rewrite getMany_conn by discriminate.
  assert (Hfetched : forall x, x ∈ List.filter (fun r => existsb (String.eqb (key r)) keys)
                                              (CoreKV.conn s)
                               <-> x ∈ CoreKV.conn s /\ key x ∈ keys).
  { intros x. rewrite list_elem_of_In, filter_In, <- list_elem_of_In, existsb_exists.
    split.
    - intros (Hin & k & Hk & Heq). apply String.eqb_eq in Heq. subst k.
      split; [ exact Hin | now apply list_elem_of_In ].
    - intros (Hin & Hk). split; [ exact Hin | ]. exists (key x).
      split; [ now apply list_elem_of_In | apply String.eqb_refl ]. }
  repeat split_and.
  - intros row Hrow Hk. apply cleaned_elem in Hrow. destruct Hrow as (Hin & Hall).
    destruct (CoreKV.expired row now) eqn:Hexp; [ | reflexivity ].
    destruct (Hall row); [ now apply Hfetched | exact Hexp | reflexivity ].
  - intros row Hrow. now apply cleaned_elem in Hrow.
  - intros row Hin Hk. apply cleaned_elem. split; [ exact Hin | ].
    intros x Hx _ Heq. apply Hfetched in Hx. destruct Hx as (_ & Hx).
    rewrite Heq in Hx. contradiction.
  - intros Hu row Hin Hlive. apply cleaned_elem. split; [ exact Hin | ].
    intros x Hx Hexp Heq. apply Hfetched in Hx. destruct Hx as (Hx & _).
    pose proof (row_under_unique x _ Hu Hx) as H1.
    pose proof (row_under_unique row _ Hu Hin) as H2.
    rewrite Heq, H2 in H1. injection H1 as ->. congruence.
Qed.

End ManyCleanUp.

(** ** What a compiled filter means *)

Section FilterMeaning.
Context `{Ext : Externals}.

Lemma eval_junction (is_and : bool) (first : SQLite.Expr) (others : list SQLite.Expr)
    (arguments : list (InValue finite)) (row : Row) :
  SQLite.eval_expr (SQLite.Junction is_and first others) arguments row =
    let '(b, rest) := SQLite.eval_expr first arguments row in
    eval_others is_and row others b rest.
Proof. reflexivity. Qed.

Lemma build_each_eval (conditions : list (Filter finite)) (row : Row) :
  Forall (fun f => forall frag e, CoreKV.buildWhereSql f = Ok frag ->
                     plan_expr (filter_shape f) = Some e ->
                     forall rest, SQLite.eval_expr e (CoreKV.frag_args frag ++ rest) row
                                  = (holds row f, rest))
         conditions ->
  forall parts arguments parts' arguments' es,
    CoreKV.build_each CoreKV.buildWhereSql conditions parts arguments = Ok (parts', arguments') ->
    each_plan plan_expr (List.map filter_shape conditions) = Some es ->
    exists more,
      arguments' = arguments ++ more /\
      forall is_and acc rest,
        eval_others is_and row es acc (more ++ rest)
        = (each_holds (holds row) is_and acc conditions, rest).
Proof.
  induction 1 as [ | f fs Hf _ IH ]; intros parts arguments parts' arguments' es Hrun Hes;
    simpl in Hrun, Hes.
  - injection Hrun as <- <-. injection Hes as <-. exists []. split.
    + now rewrite app_nil_r.
    + reflexivity.
  - destruct (CoreKV.buildWhereSql f) as [frag | err] eqn:Hfrag; simpl in Hrun; [ | discriminate ].
    destruct (plan_expr (filter_shape f)) as [e | ] eqn:He; [ | discriminate ].
    destruct (each_plan plan_expr (List.map filter_shape fs)) as [es' | ] eqn:Hes';
      [ | discriminate ].
    injection Hes as <-.
    destruct (IH _ _ _ _ es' Hrun eq_refl) as (more & Hmore & Heval).
    exists (CoreKV.frag_args frag ++ more). split.
    + now rewrite Hmore, app_assoc.
    + intros is_and acc rest. simpl.
      rewrite <- app_assoc, (Hf frag e eq_refl eq_refl). apply Heval.
Qed.

(** Evaluating the compiled expression on the compiled arguments gives
    the value of the filter and uses up exactly those arguments. *)
Lemma buildWhereSql_eval (f : Filter finite) (row : Row) :
  forall frag e,
    CoreKV.buildWhereSql f = Ok frag ->
    plan_expr (filter_shape f) = Some e ->
    forall rest, SQLite.eval_expr e (CoreKV.frag_args frag ++ rest) row = (holds row f, rest).
Proof.
  induction f as [c | op conditions IH] using Filter_induction; intros frag e Hfrag He rest.
  - simpl in Hfrag, He. injection Hfrag as <-. injection He as <-. reflexivity.
  - destruct op.
    + simpl in Hfrag.
      destruct (CoreKV.build_each CoreKV.buildWhereSql conditions [] []) as [[parts arguments] | err]
        eqn:Hrun; simpl in Hfrag; [ | discriminate ].
      injection Hfrag as <-. cbn [CoreKV.frag_args].
      change (plan_expr (filter_shape (LogicResult AND conditions)))
        with (plan_expr (ShapeLogic AND (List.map filter_shape conditions))) in He.
      rewrite plan_expr_junction in He by discriminate.
      destruct conditions as [ | first others ]; [ discriminate | ].
      apply Forall_cons in IH. destruct IH as (IH1 & IHs).
      simpl in Hrun, He.
      destruct (CoreKV.buildWhereSql first) as [frag1 | err] eqn:Hfrag1; simpl in Hrun;
        [ | discriminate ].
      destruct (plan_expr (filter_shape first)) as [e1 | ] eqn:He1; [ | discriminate ].
      destruct (each_plan plan_expr (List.map filter_shape others)) as [es | ] eqn:Hes;
        [ | discriminate ].
      injection He as <-.
      destruct (build_each_eval others row IHs _ _ _ _ es Hrun Hes) as (more & -> & Heval).
      rewrite eval_junction. cbn [app]. rewrite <- app_assoc.
      rewrite (IH1 frag1 e1 eq_refl eq_refl).
      rewrite Heval. cbn [holds]. now destruct es.
    + simpl in Hfrag.
      destruct (CoreKV.build_each CoreKV.buildWhereSql conditions [] []) as [[parts arguments] | err]
        eqn:Hrun; simpl in Hfrag; [ | discriminate ].
      injection Hfrag as <-. cbn [CoreKV.frag_args].
      change (plan_expr (filter_shape (LogicResult OR conditions)))
        with (plan_expr (ShapeLogic OR (List.map filter_shape conditions))) in He.
      rewrite plan_expr_junction in He by discriminate.
      destruct conditions as [ | first others ]; [ discriminate | ].
      apply Forall_cons in IH. destruct IH as (IH1 & IHs).
      simpl in Hrun, He.
      destruct (CoreKV.buildWhereSql first) as [frag1 | err] eqn:Hfrag1; simpl in Hrun;
        [ | discriminate ].
      destruct (plan_expr (filter_shape first)) as [e1 | ] eqn:He1; [ | discriminate ].
      destruct (each_plan plan_expr (List.map filter_shape others)) as [es | ] eqn:Hes;
        [ | discriminate ].
      injection He as <-.
      destruct (build_each_eval others row IHs _ _ _ _ es Hrun Hes) as (more & -> & Heval).
      rewrite eval_junction. cbn [app]. rewrite <- app_assoc.
      rewrite (IH1 frag1 e1 eq_refl eq_refl).
      destruct es as [ | e2 es ].
      * destruct others as [ | second others ]; [ | simpl in Hes;
          destruct (plan_expr (filter_shape second)); [ | discriminate ];
          destruct (each_plan plan_expr (List.map filter_shape others)); discriminate ].
        rewrite Heval. reflexivity.
      * rewrite Heval. reflexivity.
    + destruct conditions as [ | first others ]; [ discriminate | ].
      apply Forall_inv in IH. simpl in Hfrag, He.
      destruct (CoreKV.buildWhereSql first) as [inner | err] eqn:Hinner; simpl in Hfrag;
        [ | discriminate ].
      destruct (plan_expr (filter_shape first)) as [e1 | ] eqn:He1; [ | discriminate ].
      injection Hfrag as <-. injection He as <-. simpl.
      now rewrite (IH inner e1 eq_refl eq_refl).
Qed.

End FilterMeaning.
Section FilterTheorems.
Context `{Ext : Externals}.

(** X22.  The compiled filter means the filter.  When the engine
    evaluates the expression it reads from the text of [buildWhereSql] on
    the arguments of [buildWhereSql], every condition is compared through
    its own path and with its own value, under the operator the compiler
    settled on, and the connectives are those of the tree: the outcome is
    the value of the filter on the row, in three-valued logic, and the
    arguments are used up exactly.  What follows the first condition of a
    [NOT] takes no part. *)
Theorem compiled_filter_means_the_filter (f : Filter finite) (frag : CoreKV.Fragment)
    (e : SQLite.Expr) (row : Row) :
  CoreKV.buildWhereSql f = Ok frag ->
  plan_expr (filter_shape f) = Some e ->
  (forall rest, SQLite.eval_expr e (CoreKV.frag_args frag ++ rest) row = (holds row f, rest)) /\
  (forall t rest, shape_text (filter_shape f) = Some t ->
                  SQLite.parse_expr (String.length t) (t +:+ rest) = Some (e, rest)) /\
  shape_text (filter_shape f) = Some (CoreKV.frag_sql frag).
Proof.
  intros Hfrag He. split; [ | split ].
  - intros rest. now apply buildWhereSql_eval.
  - intros t rest Ht.
    apply (reads_every_shape (filter_shape f)); try assumption.
    + eapply Forall_impl; [ apply shape_operators_safe | ].
      intros op Hop. simpl in Hop. now apply list_elem_of_In in Hop.
    + now apply weight_length.
  - pose proof (buildWhereSql_expected f) as H. unfold compiled_as_expected in H.
    rewrite Hfrag in H. tauto.
Qed.

Lemma passes_where (options : ListOptions finite) (w : Where finite) (row : Row) :
  populated_where (where_shape (shape_of options)) = true ->
  ListOptions.where_ options = Some w ->
  SQLite.passes (filter_of options) (where_args options) row =
    match value_type row with
    | Val ty => String.eqb ty "json" && bool_decide (where_holds w row = Some true)
    | _ => false
    end.
Proof.
  intros Hp Hw. unfold filter_of, where_args, SQLite.passes.
  destruct options as [p l c w' r]. simpl in *. subst w'.
  destruct w as [cond | callback]; simpl in *.
  - reflexivity.
  - destruct (populated_plans _ Hp) as (t & e & Ht & He). rewrite He.
    pose proof (buildWhereSql_expected (callback the_combinators)) as Hc.
    unfold compiled_as_expected in Hc.
    destruct (CoreKV.buildWhereSql (callback the_combinators)) as [frag | err] eqn:Hfrag.
    + pose proof (buildWhereSql_eval (callback the_combinators) row frag e Hfrag He []) as Heval.
      rewrite app_nil_r in Heval. now rewrite Heval.
    + destruct Hc as (_ & _ & Hnone). congruence.
Qed.

(** X23.  A [list] with a filter returns what the filter holds of.  A
    row passes exactly when its type is [json] and the filter tree is true
    of it (not false, and not unknown).  Every entry returned comes from
    such a row; and when no limit is in effect, every such row of the table
    that has not expired and whose key matches the prefix is returned. *)
Theorem filtered_list_is_the_filter (options : ListOptions finite) (w : Where finite)
    (now : Z) (s : CoreKV.Session) (entries : list (KVEntry finite)) :
  populated_where (where_shape (shape_of options)) = true ->
  ListOptions.where_ options = Some w ->
  fst (CoreKV.list SQLite.run options now s) = Ok entries ->
  (forall e, e ∈ entries ->
     exists row, row ∈ CoreKV.conn s /\ read_entry row = Ok e /\
                 value_type row = Val "json" /\ where_holds w row = Some true) /\
  (limit_of options = None ->
   forall row, row ∈ CoreKV.conn s ->
     SQLite.unexpired now row = true ->
     match pattern_of options with
     | Some pattern => SQLite.like pattern (key row) = true
     | None => True
     end ->
     value_type row = Val "json" -> where_holds w row = Some true ->
     exists e, e ∈ entries /\ read_entry row = Ok e).
Proof.
  intros Hp Hw Hlist.
  destruct (list_on_engine options now s Hp) as (Hfst & _). rewrite Hfst in Hlist.
  apply all_ok_entries in Hlist. split.
  - intros e He. apply list_elem_of_lookup_1 in He. destruct He as (i & Hi).
    destruct (Forall2_lookup_r _ _ _ _ _ Hlist Hi) as (row & Hrow & Hread).
    apply list_elem_of_lookup_2, selected_elem, candidates_elem in Hrow.
    destruct Hrow as (Hin & _ & _ & Hpass).
    rewrite (passes_where options w row Hp Hw) in Hpass.
    destruct (value_type row) as [ | | ty ] eqn:Hty; try discriminate.
    apply andb_true_iff in Hpass. destruct Hpass as (Hjson & Hholds).
    apply String.eqb_eq in Hjson. subst ty. apply bool_decide_eq_true in Hholds.
    exists row. now repeat split.
  - intros Hlimit row Hin Hlive Hpattern Hty Hholds.
    assert (Hsel : row ∈ selected options now (CoreKV.conn s)).
    { unfold selected. rewrite Hlimit. apply order_by_key_elem, candidates_elem.
      repeat split; try assumption.
      rewrite (passes_where options w row Hp Hw), Hty. simpl.
      now apply bool_decide_eq_true. }
    apply list_elem_of_lookup_1 in Hsel. destruct Hsel as (i & Hi).
    destruct (Forall2_lookup_l _ _ _ _ _ Hlist Hi) as (e & He & Hread).
    exists e. split; [ now apply list_elem_of_lookup_2 in He | exact Hread ].
Qed.

(** X9.  What [get] on the engine returns.  An entry it returns carries
    the requested key, and the version and the decoded value of a row of
    the table under that key which has not expired.  For a key without a
    row it returns [null] after its one look-up, with nothing deleted; for
    a key whose row has expired it returns [null]. *)
Theorem get_returns_a_stored_row (k : string) (now : Z) (s : CoreKV.Session) :
  (forall e, fst (CoreKV.get SQLite.run k now s) = Ok (Some e) ->
     KVEntry.key e = k /\
     exists row, row ∈ CoreKV.conn s /\ key row = k /\ KVEntry.version e = version row /\
                 decodeValue row = Ok (KVEntry.value e) /\ CoreKV.expired row now = false) /\
  (row_under k (CoreKV.conn s) = None ->
   CoreKV.get SQLite.run k now s
     = (Ok None, after_statement s (select_by_key k) (CoreKV.conn s))) /\
  (forall row, row_under k (CoreKV.conn s) = Some row -> CoreKV.expired row now = true ->
               fst (CoreKV.get SQLite.run k now s) = Ok None).
Proof.
  rewrite get_on_engine. cbn [fst]. split; [ | split ].
  - intros e He. unfold read_row in He.
    destruct (row_under k (CoreKV.conn s)) as [row | ] eqn:Hrow; [ | discriminate ].
    apply row_under_key in Hrow. destruct Hrow as (Hin & Hk).
    destruct (CoreKV.expired row now) eqn:Hexp; [ discriminate | ].
    destruct (decodeValue row) as [v | err] eqn:Hv; [ | discriminate ].
    injection He as <-. simpl. split; [ exact Hk | ].
    exists row. now repeat split.
  - intros Hnone. now rewrite Hnone.
  - intros row Hrow Hexp. rewrite Hrow. simpl. now rewrite Hexp.
Qed.

(** X13.  What [set] writes, [get] reads.  After [set] of a key, on any
    table, [get] of that key returns the value that was set, under the
    version drawn for the write, at every instant at which the row written
    has not expired; a row written without [expireIn] never has. *)
Theorem set_then_get (k : string) (v : KVValue finite) (options : option SetOptions)
    (fresh : string) (now now' : Z) (s : CoreKV.Session) :
  text_faithful v ->
  let written := row_of k (encodeValue v) fresh (CoreKV.expiresAt_of options now) in
  let s' := snd (CoreKV.set SQLite.run k v options fresh now s) in
  (CoreKV.expired written now' = false ->
   fst (CoreKV.get SQLite.run k now' s') =
     Ok (Some {| KVEntry.key := k; KVEntry.value := Defined (decoded_form v);
                 KVEntry.version := fresh |})) /\
  same_value v (decoded_form v) /\
  (options = None -> CoreKV.expired written now' = false).
Proof.
  intros Hv written s'. split; [ | split ].
  - intros Hlive. subst s'. rewrite set_on_engine. cbn [snd]. fold written.
    pose proof (get_after_upsert written now' (CoreKV.conn s)) as Hget. simpl in Hget.
    rewrite Hget, Hlive. subst written. now rewrite (decode_row_of v k fresh _ Hv).
  - destruct v as [j | arr]; simpl; [ reflexivity | ].
    now rewrite elements_of_whole, toArrayBuffer_elements.
  - intros ->. reflexivity.
Qed.

End FilterTheorems.

(** ** The further properties at work *)

Section FurtherWorked.
Import Integers Examples Cases.

Lemma transaction_reads_agree_witness :
  (forall k c, exists rs c', engine (delete_by_key k) c = (Ok rs, c')) /\
  (forall key, KVTransaction.get engine key 7000 expiring = CoreKV.get engine key 7000 expiring) /\
  (forall keys,
      KVTransaction.getMany engine keys 7000 expiring = CoreKV.getMany engine keys 7000 expiring).
Proof.
  assert (H : forall k c, exists rs c', engine (delete_by_key k) c = (Ok rs, c')).
  { intros k c. eexists. eexists. apply run_delete. }
  split; [ exact H | ].
  exact (transaction_reads_agree engine expiring 7000 H).
Defined.

(** The executor refuses the delete: the store answers [null], the
    transaction rejects. *)
Example clean_up_failure_at_work :
  fst (CoreKV.get read_only "k" 10 nowhere) = Ok None /\
  fst (KVTransaction.get read_only "k" 10 nowhere)
    = Throw (LibsqlError "attempt to write a readonly database") /\
  fst (CoreKV.getMany read_only ["k"] 10 nowhere) = Ok [None] /\
  fst (KVTransaction.getMany read_only ["k"] 10 nowhere)
    = Throw (LibsqlError "attempt to write a readonly database").
Proof. vm_compute. repeat split. Qed.

Lemma view_is_stored_alone_witness :
  (byteOffset window + byteLength window <= length (buffer window))%nat /\
  let stored := toArrayBuffer window in
  blob (encodeValue (Ext:=runtime) (Binary window)) = Some stored /\
  length stored = byteLength window /\
  (forall i, (i < byteLength window)%nat ->
             stored !! i = buffer window !! (byteOffset window + i)%nat) /\
  decodeValue (Ext:=runtime) (row_of "k" (encodeValue (Binary window)) "0001" None) =
    Ok (Defined (Binary {| buffer := stored; byteOffset := 0;
                           byteLength := byteLength window |})).
Proof.
  assert (H : (byteOffset window + byteLength window <= length (buffer window))%nat)
    by (simpl; lia).
  split; [ exact H | ].
  exact (view_is_stored_alone (Ext:=runtime) window "k" "0001" None H).
Defined.

Lemma users_unique : unique_keys (CoreKV.conn users).
Proof. unfold unique_keys. apply (bool_decide_unpack (NoDup _)). vm_compute. exact I. Qed.

Lemma keys_stay_unique_witness :
  unique_keys (CoreKV.conn users) /\
  let after {A} (m : CoreKV.M A) := unique_keys (CoreKV.conn (snd (m users))) in
  unique_keys [] /\
  (forall key now, after (CoreKV.get engine key now)) /\
  (forall keys now, after (CoreKV.getMany engine keys now)) /\
  (forall key value options fresh now,
      after (CoreKV.set engine key value options fresh now)) /\
  (forall key, after (CoreKV.del engine key)) /\
  (forall now, after (CoreKV.cleanupExpired engine now)) /\
  (forall options now, after (CoreKV.list engine options now)) /\
  (forall key now, after (KVTransaction.get engine key now)) /\
  (forall keys now, after (KVTransaction.getMany engine keys now)).
Proof.
  split; [ exact users_unique | ].
  exact (keys_stay_unique (Ext:=runtime) users users_unique).
Defined.

Lemma getMany_is_get_of_each_witness :
  unique_keys (CoreKV.conn users) /\
  fst (CoreKV.getMany engine wanted 10 users) =
    all_ok (List.map (fun k => fst (CoreKV.get engine k 10 users)) wanted).
Proof.
  split; [ exact users_unique | ].
  exact (getMany_is_get_of_each (Ext:=runtime) wanted 10 users users_unique).
Defined.


Lemma adults_listed : fst (CoreKV.list engine (age_over 28) 10 users) = Ok adults.
Proof. vm_compute. reflexivity. Qed.

Lemma list_is_in_key_order_witness :
  populated_where (where_shape (shape_of (age_over 28))) = true /\
  fst (CoreKV.list engine (age_over 28) 10 users) = Ok adults /\
  Sorted (in_order (match ListOptions.reverse (age_over 28) with
                    | Some true => true
                    | _ => false
                    end))
         (List.map KVEntry.key adults) /\
  (unique_keys (CoreKV.conn users) -> NoDup (List.map KVEntry.key adults)).
Proof.
  split; [ reflexivity | ]. split; [ exact adults_listed | ].
  exact (list_is_in_key_order (Ext:=runtime) (age_over 28) 10 users adults eq_refl adults_listed).
Defined.

Lemma limit_cuts_the_list_witness :
  populated_where (where_shape (shape_of hostile)) = true /\
  ListOptions.limit hostile = Some 2 /\
  (0 < 2 ->
   forall every, fst (CoreKV.list engine (unlimited hostile) 10 grid) = Ok every ->
     fst (CoreKV.list engine hostile 10 grid) = Ok (take (Z.to_nat 2) every) /\
     (length (take (Z.to_nat 2) every) <= Z.to_nat 2)%nat) /\
  (2 <= 0 ->
   fst (CoreKV.list engine hostile 10 grid)
     = fst (CoreKV.list engine (unlimited hostile) 10 grid)).
Proof.
  split; [ reflexivity | ]. split; [ reflexivity | ].
  exact (limit_cuts_the_list (Ext:=runtime) hostile 10 grid 2 eq_refl eq_refl).
Defined.

Lemma age_filter_present : ListOptions.where_ (age_over 28) <> None.
Proof. discriminate. Qed.

Lemma filtered_list_returns_json_only_witness :
  populated_where (where_shape (shape_of (age_over 28))) = true /\
  ListOptions.where_ (age_over 28) <> None /\
  fst (CoreKV.list engine (age_over 28) 10 users) = Ok adults /\
  Forall (fun e => exists row j,
            row ∈ CoreKV.conn users /\ key row = KVEntry.key e /\
            value_type row = Val "json" /\
            JSON_parse_column (value_text row) = Some j /\
            KVEntry.value e = Defined (Json j))
         adults /\
  (forall v : KVValue Z,
      type (encodeValue v) = "json" <->
      match v with
      | Json JNull | Json (JObject _) | Json (JArray _) => True
      | _ => False
      end).
Proof.
  split; [ reflexivity | ]. split; [ exact age_filter_present | ].
  split; [ exact adults_listed | ].
  exact (filtered_list_returns_json_only (Ext:=runtime) (age_over 28) 10 users adults
           eq_refl age_filter_present adults_listed).
Defined.

Lemma later : 6001 <= 7000.
Proof. lia. Qed.

Lemma cleanup_is_invisible_witness :
  6001 <= 7000 /\
  let s' := snd (CoreKV.cleanupExpired engine 6001 expiring) in
  fst (CoreKV.cleanupExpired engine 6001 expiring) = Ok tt /\
  (forall row, row ∈ CoreKV.conn s' <->
               row ∈ CoreKV.conn expiring /\ SQLite.overdue 6001 row = false) /\
  (forall options,
      populated_where (where_shape (shape_of options)) = true ->
      fst (CoreKV.list engine options 7000 s') = fst (CoreKV.list engine options 7000 expiring)) /\
  (unique_keys (CoreKV.conn expiring) ->
   (forall row, row ∈ CoreKV.conn expiring -> expires_at row <> Some 0) ->
   forall k, fst (CoreKV.get engine k 7000 s') = fst (CoreKV.get engine k 7000 expiring)).
Proof.
  split; [ exact later | ].
  exact (cleanup_is_invisible (Ext:=runtime) 6001 7000 expiring later).
Defined.

Lemma listed_entries_can_be_got_witness :
  populated_where (where_shape (shape_of (age_over 28))) = true /\
  unique_keys (CoreKV.conn users) /\
  fst (CoreKV.list engine (age_over 28) 10 users) = Ok adults /\
  forall e, e ∈ adults -> fst (CoreKV.get engine (KVEntry.key e) 10 users) = Ok (Some e).
Proof.
  split; [ reflexivity | ]. split; [ exact users_unique | ]. split; [ exact adults_listed | ].
  exact (listed_entries_can_be_got (Ext:=runtime) (age_over 28) 10 users adults
           eq_refl users_unique adults_listed).
Defined.

Lemma everyone_listed : fst (CoreKV.list engine (only_prefix "user:") 10 users) = Ok everyone.
Proof. vm_compute. reflexivity. Qed.

Lemma alice_stored : alice ∈ CoreKV.conn users.
Proof. apply list_elem_of_In. vm_compute. left. reflexivity. Qed.

Lemma prefix_misses_no_key_witness :
  populated_where (where_shape (shape_of (only_prefix "user:"))) = true /\
  ListOptions.prefix (only_prefix (Ext:=runtime) "user:") = Some "user:" /\
  limit_of (only_prefix "user:") = None /\
  fst (CoreKV.list engine (only_prefix "user:") 10 users) = Ok everyone /\
  alice ∈ CoreKV.conn users /\
  SQLite.unexpired 10 alice = true /\
  String.prefix "user:" (key alice) = true /\
  SQLite.passes (filter_of (only_prefix "user:")) (where_args (only_prefix "user:")) alice
    = true /\
  exists e, e ∈ everyone /\ read_entry alice = Ok e.
Proof.
  repeat (split; [ first [ reflexivity | exact everyone_listed | exact alice_stored ] | ]).
  exact (prefix_misses_no_key (Ext:=runtime) (only_prefix "user:") "user:" 10 users everyone
           alice eq_refl eq_refl eq_refl everyone_listed alice_stored eq_refl eq_refl eq_refl).
Defined.

Lemma conjunction : AND <> NOT.
Proof. discriminate. Qed.

Lemma empty_junction_is_refused_witness :
  AND <> NOT /\
  vacuous the_combinators = LogicResult AND [] /\
  let options :=
    {| ListOptions.prefix := Some "n:"; ListOptions.limit := Some 5;
       ListOptions.cursor := None;
       ListOptions.where_ := Some (WhereCallback vacuous); ListOptions.reverse := None |} in
  CoreKV.buildWhereSql (vacuous the_combinators)
    = Ok {| CoreKV.frag_sql := "()"; CoreKV.frag_args := [] |} /\
  (exists stmt, CoreKV.list_statement options 10 = Ok stmt) /\
  fst (CoreKV.list engine options 10 grid) = Throw (LibsqlError "SQL_PARSE_ERROR") /\
  CoreKV.conn (snd (CoreKV.list engine options 10 grid)) = CoreKV.conn grid.
Proof.
  split; [ exact conjunction | ]. split; [ reflexivity | ].
  exact (empty_junction_is_refused (Ext:=runtime) AND vacuous (Some "n:") (Some 5) None None
           10 grid conjunction eq_refl).
Defined.

Lemma number_faithful : text_faithful (number_value 12345).
Proof. vm_compute. reflexivity. Qed.

Lemma set_then_get_witness :
  text_faithful (number_value 12345) /\
  let written := row_of "test-number" (encodeValue (number_value 12345)) "0001"
                        (CoreKV.expiresAt_of None 1000) in
  let s' := snd (CoreKV.set engine "test-number" (number_value 12345) None "0001" 1000 users) in
  (CoreKV.expired written 2000 = false ->
   fst (CoreKV.get engine "test-number" 2000 s') =
     Ok (Some {| KVEntry.key := "test-number";
                 KVEntry.value := Defined (decoded_form (number_value 12345));
                 KVEntry.version := "0001" |})) /\
  same_value (number_value 12345) (decoded_form (number_value 12345)) /\
  (@None SetOptions = None -> CoreKV.expired written 2000 = false).
Proof.
  split; [ exact number_faithful | ].
  exact (set_then_get (Ext:=runtime) "test-number" (number_value 12345) None "0001" 1000 2000
           users number_faithful).
Defined.

Lemma crossing_compiles : CoreKV.buildWhereSql crossing = Ok crossing_fragment.
Proof. reflexivity. Qed.

Lemma crossing_planned : plan_expr (filter_shape crossing) = Some crossing_expr.
Proof. reflexivity. Qed.

Lemma compiled_filter_means_the_filter_witness :
  CoreKV.buildWhereSql crossing = Ok crossing_fragment /\
  plan_expr (filter_shape crossing) = Some crossing_expr /\
  (forall rest,
      SQLite.eval_expr crossing_expr (CoreKV.frag_args crossing_fragment ++ rest) second_record
      = (holds second_record crossing, rest)) /\
  (forall t rest, shape_text (filter_shape crossing) = Some t ->
                  SQLite.parse_expr (String.length t) (t +:+ rest) = Some (crossing_expr, rest)) /\
  shape_text (filter_shape crossing) = Some (CoreKV.frag_sql crossing_fragment).
Proof.
  split; [ exact crossing_compiles | ]. split; [ exact crossing_planned | ].
  exact (compiled_filter_means_the_filter (Ext:=runtime) crossing crossing_fragment
           crossing_expr second_record crossing_compiles crossing_planned).
Defined.

(** The filter is true of the second record, and of no record with
    [a = b]. *)
Example crossing_at_work :
  holds second_record crossing = Some true /\
  List.map (fun row => holds row crossing) (CoreKV.conn grid)
    = [Some false; Some true; Some true; Some false].
Proof. vm_compute. split; reflexivity. Qed.

Lemma crossed_listed : fst (CoreKV.list engine crossed 10 grid) = Ok crossed_entries.
Proof. vm_compute. reflexivity. Qed.

Lemma crossed_has_filter : ListOptions.where_ crossed = Some crossed_where.
Proof. reflexivity. Qed.

Lemma filtered_list_is_the_filter_witness :
  populated_where (where_shape (shape_of crossed)) = true /\
  ListOptions.where_ crossed = Some crossed_where /\
  fst (CoreKV.list engine crossed 10 grid) = Ok crossed_entries /\
  (forall e, e ∈ crossed_entries ->
     exists row, row ∈ CoreKV.conn grid /\ read_entry row = Ok e /\
                 value_type row = Val "json" /\ where_holds crossed_where row = Some true) /\
  (limit_of crossed = None ->
   forall row, row ∈ CoreKV.conn grid ->
     SQLite.unexpired 10 row = true ->
     match pattern_of crossed with
     | Some pattern => SQLite.like pattern (key row) = true
     | None => True
     end ->
     value_type row = Val "json" -> where_holds crossed_where row = Some true ->
     exists e, e ∈ crossed_entries /\ read_entry row = Ok e).
Proof.
  split; [ reflexivity | ]. split; [ exact crossed_has_filter | ].
  split; [ exact crossed_listed | ].
  exact (filtered_list_is_the_filter (Ext:=runtime) crossed crossed_where 10 grid
           crossed_entries eq_refl crossed_has_filter crossed_listed).
Defined.

End FurtherWorked.
